(** * bloxd-movie: texture indexing, candidate filtering, colour matching
      and blueprint encoding

    A shallow embedding of the three scripts concatenated in
    [src/3_bloxelizer.js] (the still-image bloxelizer, the GIF bloxelizer
    and the texture indexer) and of [src/generate_included_blockids.js].

    Conventions of the embedding.
    - A JavaScript number that goes through arithmetic ([/], [Math.sqrt],
      [Math.round], the comparisons on distances and variances) is a
      binary64 value: Rocq's primitive [float], whose operations are the
      IEEE 754 ones the JavaScript engines execute.
    - A JavaScript number that is only stored, compared for identity or
      used as an array index (texture ids, block ids, pixel counts, array
      lengths) is a [Z]; it is converted with [of_Z] where the source
      multiplies or divides by it.  [of_Z] is exact for magnitudes below
      2^53.
    - Strings are [string]s of bytes; the strings the scripts inspect
      (hex colours, block ids, block names, face names) are ASCII.
    - A JavaScript object used as a dictionary is a [gmap], a [Set] a
      [gset]; where the iteration order of an object matters
      ([Object.entries]) the input is the list of entries in that order.
    - The bytes of a bitmap are [Byte.byte]s.
    - What a script gets from Jimp or from a file (the pixel values of an
      image, the texture cut from an atlas) is an input or a parameter of
      the function that embeds it.
    - [throw] is the [Throws] constructor of [result]. *)

From Stdlib Require Import ZArith List String Ascii Floats Lia Bool.
From Stdlib Require Uint63 HexadecimalString.
From Stdlib.Strings Require Byte.
From stdpp Require Import base gmap sets list strings sorting.
Import ListNotations.
Open Scope Z_scope.

(* ================================================================== *)
(** * Part I: JavaScript values and built-ins *)
(* ================================================================== *)

Module Js.

(** ** Errors and the result of a call that may throw *)

Inductive error : Type :=
| Error (message : string)
| TypeError
| RangeError.

Inductive result (A : Type) : Type :=
| Returns (a : A)
| Throws (e : error).
Arguments Returns {A} a.
Arguments Throws {A} e.

(** Sequencing: a statement that throws aborts what follows it
    ([x ← m; k] in stdpp's notation). *)
#[global] Instance result_ret : MRet result := fun A a => Returns a.
#[global] Instance result_bind : MBind result := fun A B k m =>
  match m with
  | Returns a => k a
  | Throws e => Throws e
  end.

(** ** Numbers *)

(** The number denoted by an integer literal or an integer JSON field. *)
Definition of_Z (z : Z) : float :=
  if z <? 0 then (- of_uint63 (Uint63.of_Z (- z)))%float
  else of_uint63 (Uint63.of_Z z).

(** [Infinity] and [NaN]. *)
Definition Infinity : float := infinity.
Definition NaN : float := nan.

(** [x > y], [x < y], [x <= y] and [x === y] on numbers. *)
Definition gt (x y : float) : bool := (y <? x)%float.
Definition lt (x y : float) : bool := (x <? y)%float.
Definition le (x y : float) : bool := (x <=? y)%float.
Definition strict_eq (x y : float) : bool := (x =? y)%float.

(** [Math.round]: the integer nearest to [x], ties towards +Infinity;
    NaN, the infinities, the zeros and the integers are returned as they
    are, and a result of zero keeps the sign of [x].  A finite binary64
    is [(-1)^s * m * 2^e]; for [e < 0] the result is
    [floor ((2 * (+-m) + 2^(-e)) / 2^(1 - e))], computed exactly in [Z]. *)
Definition Math_round (x : float) : float :=
  match Prim2SF x with
  | S754_finite s m e =>
      if 0 <=? e then x
      else
        let n := if s then Z.neg m else Z.pos m in
        let k := Z.shiftr (2 * n + 2 ^ (- e)) (1 - e) in
        if k =? 0 then (if s then neg_zero else zero) else of_Z k
  | _ => x
  end.

(** ** Strings *)

(** [hay.includes(needle)]. *)
Fixpoint includes (hay needle : string) : bool :=
  if String.prefix needle hay then true
  else match hay with
       | EmptyString => false
       | String _ rest => includes rest needle
       end.

(** [s.slice(from, to)] for [0 <= from <= to]. *)
Definition slice (s : string) (from to : nat) : string :=
  String.substring from (to - from) s.

(** The ASCII part of the white space [parseInt] skips. *)
Definition is_whitespace (c : ascii) : bool :=
  let n := Z.of_nat (nat_of_ascii c) in
  ((9 <=? n) && (n <=? 13)) || (n =? 32).

Fixpoint skip_whitespace (s : string) : string :=
  match s with
  | String c rest => if is_whitespace c then skip_whitespace rest else s
  | EmptyString => s
  end.

(** The value of a digit in radix 36. *)
Definition digit_value (c : ascii) : option Z :=
  let n := Z.of_nat (nat_of_ascii c) in
  if (48 <=? n) && (n <=? 57) then Some (n - 48)
  else if (97 <=? n) && (n <=? 122) then Some (n - 87)
  else if (65 <=? n) && (n <=? 90) then Some (n - 55)
  else None.

(** The value of the longest prefix of [s] made of digits of [radix];
    [acc] is [None] as long as no digit was read. *)
Fixpoint parse_digits (radix : Z) (s : string) (acc : option Z) : option Z :=
  match s with
  | String c rest =>
      match digit_value c with
      | Some d =>
          if d <? radix
          then parse_digits radix rest (Some (default 0 acc * radix + d))
          else acc
      | None => acc
      end
  | EmptyString => acc
  end.

Definition strip_sign (s : string) : bool * string :=
  match s with
  | String "-" rest => (true, rest)
  | String "+" rest => (false, rest)
  | _ => (false, s)
  end.

Definition strip_hex_prefix (s : string) : string :=
  match s with
  | String "0" (String "x" rest) => rest
  | String "0" (String "X" rest) => rest
  | _ => s
  end.

(** [parseInt(s, radix)] for [radix] 10 or 16: the sign that was read and
    the magnitude, or [None] for NaN. *)
Definition parseInt_parts (s : string) (radix : Z) : option (bool * Z) :=
  let '(neg, s1) := strip_sign (skip_whitespace s) in
  let s2 := if radix =? 16 then strip_hex_prefix s1 else s1 in
  match parse_digits radix s2 None with
  | Some n => Some (neg, n)
  | None => None
  end.

(** [parseInt] as a number. *)
Definition parseInt (s : string) (radix : Z) : float :=
  match parseInt_parts s radix with
  | Some (neg, n) => if neg then (- of_Z n)%float else of_Z n
  | None => NaN
  end.

(** [parseInt] as an integer, [None] for NaN. *)
Definition parseInt_Z (s : string) (radix : Z) : option Z :=
  match parseInt_parts s radix with
  | Some (neg, n) => Some (if neg then - n else n)
  | None => None
  end.

(** ** Arrays *)

(** [a[i]] for a number [i]: [None] is [undefined]. *)
Definition array_get {A : Type} (a : list A) (i : Z) : option A :=
  if i <? 0 then None else a !! Z.to_nat i.

(** The order [(a, b) => a - b] induces: a NaN difference counts as 0. *)
Definition num_le (a b : option Z) : Prop :=
  match a, b with
  | Some x, Some y => x <= y
  | _, _ => True
  end.

#[global] Instance num_le_dec (a b : option Z) : Decision (num_le a b).
Proof. destruct a, b; simpl; apply _. Defined.

(** [a.sort((a, b) => a - b)].  On integers the result is the ascending
    arrangement, whatever algorithm the engine runs; with a NaN among the
    elements the engine is free in where it leaves it, and only the
    elements themselves are settled. *)
Definition sort_numeric (a : list (option Z)) : list (option Z) :=
  merge_sort num_le a.

End Js.

Import Js.

(* ================================================================== *)
(** * Part II: the data shared by the scripts *)
(* ================================================================== *)

(** An [{r, g, b}] object.  [intToRGBA] also yields an [a] field, which
    no function of the scripts reads. *)
Record rgb : Type := Rgb { r : float; g : float; b : float }.

(** An entry of [texture_palette] as the bloxelizers read it from the
    index file.  [blockIds] is [None] when the entry has no such field. *)
Record textureInfo : Type := TextureInfo {
  textureId : Z;
  atlasFileIndex : Z;
  textureIndexOnAtlas : Z;
  hasTransparency : bool;
  colorCount : Z;
  colorHexes : list string;
  colorPixelCounts : list Z;
  blockIds : option (list Z)
}.

(** The index file: [texture_palette] and [face_index] (face, then colour,
    then the texture ids showing that colour on that face).  [block_map]
    is not read by the bloxelizers. *)
Record textureData : Type := TextureData {
  texture_palette : list textureInfo;
  face_index : gmap string (gmap string (list Z))
}.

(** An element of the [candidates] array. *)
Record candidate : Type := Candidate {
  textureInfo_of : textureInfo;
  perceivedColor : rgb
}.

(** The options of [CONFIG] the matching engine reads.  [None] is [null];
    for [searchDepth] the scripts read it as [searchDepth ?? Infinity].
    [textureSwitchThreshold] exists in the GIF script only. *)
Record config : Type := Config {
  faceDirection : string;
  maxVariance : option float;
  searchDepth : option nat;
  maxColorCount : option Z;
  allowTransparency : bool;
  textureSwitchThreshold : float
}.

(** The [CONFIG] objects as the two scripts ship them. *)
Definition CONFIG_still : config :=
  Config "front" (Some 20%float) None None false 15%float.
Definition CONFIG_gif : config :=
  Config "back" (Some 20%float) None None false 15%float.

(** What an element of a choices grid, or a read of one, can be: [null],
    [undefined] (a read outside the array) or a texture id. *)
Inductive choice : Type :=
| Null
| Undefined
| TexId (id : Z).

(** [grid[y][x]] once the row [grid[y]] is at hand. *)
Definition row_get (row : list choice) (x : nat) : choice :=
  match row !! x with
  | Some c => c
  | None => Undefined
  end.

(* ================================================================== *)
(** * Part III: the functions both bloxelizers define *)
(* ================================================================== *)

(** These six functions appear twice in [src/3_bloxelizer.js], once per
    bloxelizer, with the same statements (the second copy is only laid
    out more densely and words its error messages differently). *)
Module Bloxelizer.

Definition colorDistance (rgb1 rgb2 : rgb) : float :=
  let rDiff := (r rgb1 - r rgb2)%float in
  let gDiff := (g rgb1 - g rgb2)%float in
  let bDiff := (b rgb1 - b rgb2)%float in
  PrimFloat.sqrt (rDiff * rDiff + gDiff * gDiff + bDiff * bDiff)%float.

Definition hexToRgb (hex : string) : option rgb :=
  if String.eqb hex "#transparent" then None
  else
    let r := parseInt (slice hex 1 3) 16 in
    let g := parseInt (slice hex 3 5) 16 in
    let b := parseInt (slice hex 5 7) 16 in
    Some (Rgb r g b).

(** [texture.colorHexes[i]] and [texture.colorPixelCounts[i]].  Both
    loops keep [i] below [texture.colorHexes.length]; a count read past
    the end of [colorPixelCounts] is [undefined], NaN in arithmetic. *)
Definition hex_at (texture : textureInfo) (i : nat) : string :=
  nth i (colorHexes texture) "undefined"%string.

Definition count_at (texture : textureInfo) (i : nat) : float :=
  match colorPixelCounts texture !! i with
  | Some n => of_Z n
  | None => NaN
  end.

(** [Math.min(depth, texture.colorHexes.length)], [depth] being a count
    of entries or, as [None], [Infinity]. *)
Definition depth_limit (depth : option nat) (len : nat) : nat :=
  match depth with
  | Some d => Nat.min d len
  | None => len
  end.

(** The running sums [totalR, totalG, totalB, totalPixels]. *)
Record totals : Type := Totals {
  totalR : float; totalG : float; totalB : float; totalPixels : float
}.

(** One iteration of the loop of [calculatePerceivedColor]. *)
Definition perceived_step (texture : textureInfo) (t : totals) (i : nat)
  : totals :=
  let hex := hex_at texture i in
  let count := count_at texture i in
  match hexToRgb hex with
  | Some rgb =>
      Totals (totalR t + r rgb * count) (totalG t + g rgb * count)
             (totalB t + b rgb * count) (totalPixels t + count)
  | None => t
  end.

Definition calculatePerceivedColor (texture : textureInfo)
  (depth : option nat) : option rgb :=
  let limit := depth_limit depth (length (colorHexes texture)) in
  let t := fold_left (perceived_step texture) (seq 0 limit)
             (Totals 0 0 0 0) in
  if strict_eq (totalPixels t) 0 then None
  else Some (Rgb (Math_round (totalR t / totalPixels t))
                 (Math_round (totalG t / totalPixels t))
                 (Math_round (totalB t / totalPixels t))).

(** One iteration of the loop of [calculateColorVariance]; the state is
    [(totalWeightedDistance, totalPixels)]. *)
Definition variance_step (texture : textureInfo) (meanColor : rgb)
  (acc : float * float) (i : nat) : float * float :=
  let hex := hex_at texture i in
  let count := count_at texture i in
  match hexToRgb hex with
  | Some rgb =>
      let distance := colorDistance rgb meanColor in
      ((fst acc + distance * count)%float, (snd acc + count)%float)
  | None => acc
  end.

Definition calculateColorVariance (texture : textureInfo) : float :=
  if colorCount texture <=? 1 then 0%float
  else
    match calculatePerceivedColor texture None with
    | None => 0%float
    | Some meanColor =>
        let '(totalWeightedDistance, totalPixels) :=
          fold_left (variance_step texture meanColor)
            (seq 0 (length (colorHexes texture))) (0%float, 0%float) in
        if strict_eq totalPixels 0 then 0%float
        else (totalWeightedDistance / totalPixels)%float
    end.

(** [new Set(Object.values(faceIndex).flat())]. *)
Definition validTextureIds (faceIndex : gmap string (list Z)) : gset Z :=
  list_to_set (concat (snd <$> map_to_list faceIndex)).

(** The body of the loop over [textureData.texture_palette]: what it does
    to [candidates] for one [texture]. *)
Definition candidate_step (CONFIG : config) (valid : gset Z)
  (candidates : list candidate) (texture : textureInfo) : list candidate :=
  if negb (bool_decide (textureId texture ∈ valid)) then candidates
  else if match maxColorCount CONFIG with
          | Some m => m <? colorCount texture
          | None => false
          end then candidates
  else if negb (allowTransparency CONFIG) && hasTransparency texture
       then candidates
  else if match maxVariance CONFIG with
          | Some m => gt (calculateColorVariance texture) m
          | None => false
          end then candidates
  else
    match calculatePerceivedColor texture (searchDepth CONFIG) with
    | Some perceivedColor => candidates ++ [Candidate texture perceivedColor]
    | None => candidates
    end.

(** The two messages are shortened: the scripts put the requested
    direction into the first. *)
Definition loadAndPrepareCandidates (CONFIG : config)
  (textureData : textureData) : result (list candidate) :=
  match face_index textureData !! faceDirection CONFIG with
  | None => Throws (Error "Face direction not found in index file.")
  | Some faceIndex =>
      let validTextureIdsForFace := validTextureIds faceIndex in
      let candidates :=
        fold_left (candidate_step CONFIG validTextureIdsForFace)
          (texture_palette textureData) [] in
      if (Z.of_nat (length candidates) =? 0)
      then Throws (Error "No candidate textures found with the specified filters.")
      else Returns candidates
  end.

(** The loop both [findBestMatch] functions start with; the state is
    [(bestMatch, minDistance)]. *)
Definition nearest_step (pixelColor : rgb) (st : option candidate * float)
  (c : candidate) : option candidate * float :=
  let distance := colorDistance pixelColor (perceivedColor c) in
  if lt distance (snd st) then (Some c, distance) else st.

Definition nearest (pixelColor : rgb) (candidates : list candidate)
  : option candidate * float :=
  fold_left (nearest_step pixelColor) candidates (None, Infinity).

(** The blueprint files: the symbols of the [.txt] file, as code points,
    and the [{width, height}] of the [.json] file. *)
Record blueprint : Type := Blueprint {
  blockMapString : list Z;
  width : nat;
  height : nat
}.

Definition UNICODE_PRIVATE_USE_START : Z := 0xE000.

(** [String.fromCodePoint(n)] for an integer [n]: the code point, or a
    [RangeError] outside 0 .. 0x10FFFF. *)
Definition String_fromCodePoint (n : Z) : result Z :=
  if (0 <=? n) && (n <=? 0x10FFFF) then Returns n else Throws RangeError.

(** The [blockId] the encoder computes for the value read from a cell.
    [undefined] passes the test [textureId !== null], and
    [texturePalette[undefined]] is [undefined] again. *)
Definition cell_blockId (texturePalette : list textureInfo)
  (textureId : choice) : Z :=
  match textureId with
  | Null => 0
  | Undefined => 0
  | TexId id =>
      match array_get texturePalette id with
      | Some texture =>
          match blockIds texture with
          | Some (first :: _) => first
          | _ => 0
          end
      | None => 0
      end
  end.

(** The inner loop, over [x]. *)
Fixpoint encode_row (texturePalette : list textureInfo) (row : list choice)
  (xs : list nat) (stringBuilder : list Z) : result (list Z) :=
  match xs with
  | [] => Returns stringBuilder
  | x :: xs' =>
      let blockId := cell_blockId texturePalette (row_get row x) in
      let charCode := UNICODE_PRIVATE_USE_START + blockId in
      symbol ← String_fromCodePoint charCode;
      encode_row texturePalette row xs' (stringBuilder ++ [symbol])
  end.

(** The outer loop, over [y]: [rows] are the rows [choicesGrid[y]] still
    to come ([y] stays below [choicesGrid.length]). *)
Fixpoint encode_rows (texturePalette : list textureInfo)
  (rows : list (list choice)) (width : nat) (stringBuilder : list Z)
  : result (list Z) :=
  match rows with
  | [] => Returns stringBuilder
  | row :: rows' =>
      stringBuilder' ← encode_row texturePalette row (seq 0 width)
                         stringBuilder;
      encode_rows texturePalette rows' width stringBuilder'
  end.

(** [generateBlueprintFiles]: [None] when it returns before writing
    anything. *)
Definition generateBlueprintFiles (choicesGrid : list (list choice))
  (texturePalette : list textureInfo) : result (option blueprint) :=
  match choicesGrid with
  | [] => Returns None
  | row0 :: _ =>
      let height := length choicesGrid in
      let width := length row0 in
      blockMapString ← encode_rows texturePalette choicesGrid width [];
      Returns (Some (Blueprint blockMapString width height))
  end.

End Bloxelizer.

Import Bloxelizer.

(* ================================================================== *)
(** * Part IV: the still-image bloxelizer *)
(* ================================================================== *)

Module Still.

Definition findBestMatch (pixelColor : rgb) (candidates : list candidate)
  : option textureInfo :=
  match fst (nearest pixelColor candidates) with
  | Some bestMatch => Some (textureInfo_of bestMatch)
  | None => None
  end.

End Still.

(* ================================================================== *)
(** * Part V: the GIF bloxelizer *)
(* ================================================================== *)

Module Gif.

(** [id === previousTextureId] for a number [id]. *)
Definition same_id (id : Z) (previousTextureId : choice) : bool :=
  match previousTextureId with
  | TexId p => id =? p
  | _ => false
  end.

Definition findBestMatch (CONFIG : config) (pixelColor : rgb)
  (candidates : list candidate) (previousTextureId : choice)
  : option textureInfo :=
  let '(bestOverallMatch, minDistance) := nearest pixelColor candidates in
  match bestOverallMatch with
  | None => None
  | Some bestOverallMatch =>
      match previousTextureId with
      | Null => Some (textureInfo_of bestOverallMatch)
      | _ =>
          if same_id (textureId (textureInfo_of bestOverallMatch))
               previousTextureId
          then Some (textureInfo_of bestOverallMatch)
          else
            match find (fun c => same_id (textureId (textureInfo_of c))
                                   previousTextureId) candidates with
            | None => Some (textureInfo_of bestOverallMatch)
            | Some previousCandidate =>
                let previousMatchDistance :=
                  colorDistance pixelColor (perceivedColor previousCandidate) in
                let improvement :=
                  (previousMatchDistance - minDistance)%float in
                if gt improvement (textureSwitchThreshold CONFIG)
                then Some (textureInfo_of bestOverallMatch)
                else Some (textureInfo_of previousCandidate)
            end
      end
  end.

(** [previousFrameChoices ? previousFrameChoices[y][x] : null]; reading
    [[x]] of a row that does not exist throws. *)
Definition previous_choice (previousFrameChoices : option (list (list choice)))
  (y x : nat) : result choice :=
  match previousFrameChoices with
  | None => Returns Null
  | Some grid =>
      match grid !! y with
      | Some row => Returns (row_get row x)
      | None => Throws TypeError
      end
  end.

(** The inner loop of [processImageFrame] over the pixels of row [y],
    from column [x] on.  [pixels] are the colours
    [intToRGBA(blueprint.getPixelColor(x, y))]; the result is the row of
    [currentFrameChoices], whose cells start as [null]. *)
Fixpoint process_row (CONFIG : config) (candidates : list candidate)
  (previousFrameChoices : option (list (list choice))) (y x : nat)
  (pixels : list rgb) : result (list choice) :=
  match pixels with
  | [] => Returns []
  | pixelRGBA :: pixels' =>
      previousChoiceId ← previous_choice previousFrameChoices y x;
      let cell :=
        match findBestMatch CONFIG pixelRGBA candidates previousChoiceId with
        | Some bestTextureInfo => TexId (textureId bestTextureInfo)
        | None => Null
        end in
      cells ← process_row CONFIG candidates previousFrameChoices y (S x)
                pixels';
      Returns (cell :: cells)
  end.

(** The outer loop, from row [y] on. *)
Fixpoint process_rows (CONFIG : config) (candidates : list candidate)
  (previousFrameChoices : option (list (list choice))) (y : nat)
  (rows : list (list rgb)) : result (list (list choice)) :=
  match rows with
  | [] => Returns []
  | pixels :: rows' =>
      row ← process_row CONFIG candidates previousFrameChoices y 0 pixels;
      rest ← process_rows CONFIG candidates previousFrameChoices (S y) rows';
      Returns (row :: rest)
  end.

(** [processImageFrame], as far as [currentFrameChoices] goes: [blueprint]
    is the resized frame, row by row.  The drawing of the chosen textures
    onto [finalImage] is left out. *)
Definition processImageFrame (CONFIG : config) (blueprint : list (list rgb))
  (candidates : list candidate)
  (previousFrameChoices : option (list (list choice)))
  : result (list (list choice)) :=
  process_rows CONFIG candidates previousFrameChoices 0 blueprint.

End Gif.

(* ================================================================== *)
(** * Part VI: the texture indexer *)
(* ================================================================== *)

(** An entry of a block's [texturePalette] in [block_texture_map.json]. *)
Record textureRef : Type := TextureRef {
  ref_atlasFileIndex : Z;
  ref_textureIndexOnAtlas : Z
}.

(** A value of [block_texture_map.json]: [name], the entries of [faceMap]
    in the order [Object.entries] yields them, and [texturePalette]. *)
Record blockData : Type := BlockData {
  block_name : string;
  block_faceMap : list (string * Z);
  block_texturePalette : list textureRef
}.

Module Indexer.

(** What [analyzeTexture] returns. *)
Record analysis : Type := Analysis {
  an_hasTransparency : bool;
  an_colorCount : Z;
  an_colorHexes : list string;
  an_colorPixelCounts : list Z
}.

(** An element of the indexer's [texturePalette]:
    [{textureId, ...textureInfo, ...analysis}], and the [blockIds] the last
    loop attaches ([None] before it ran).  A block id is what [parseInt]
    made of the key, [None] standing for NaN. *)
Record indexedTexture : Type := IndexedTexture {
  it_textureId : Z;
  it_ref : textureRef;
  it_analysis : analysis;
  it_blockIds : option (list (option Z))
}.

(** The variables [main] declares before its loop. *)
Record state : Type := State {
  texturePalette : list indexedTexture;
  blockMap : gmap string string;
  faceIndex : gmap string (gmap string (list Z));
  includedBlockIds : list (option Z);
  textureCache : gmap (Z * Z) Z;
  textureIdToBlockIds : gmap Z (gset (option Z))
}.

Definition faces : list string :=
  ["top"; "bottom"; "front"; "back"; "left"; "right"]%string.

Definition initial : state :=
  State [] ∅ (list_to_map ((fun f => (f, ∅)) <$> faces)) [] ∅ ∅.

Definition idsToSkip : gset string :=
  list_to_set ["1"; "127"; "655"; "656"; "657"; "658"; "659"; "660";
               "1227"; "1228"; "1229"; "1230"; "1231"; "1232"]%string.

Definition getSimpleFaceName (complexFaceName : string) : string :=
  if includes complexFaceName "Top" then "top"
  else if includes complexFaceName "Bottom" then "bottom"
  else if includes complexFaceName "Front" then "front"
  else if includes complexFaceName "Back" then "back"
  else if includes complexFaceName "Right" then "right"
  else if includes complexFaceName "Left" then "left"
  else "unknown".

(** The key [`${atlasFileIndex}-${textureIndexOnAtlas}`] of [textureCache],
    kept as the pair of numbers it is printed from. *)
Definition cacheKey (textureInfo : textureRef) : Z * Z :=
  (ref_atlasFileIndex textureInfo, ref_textureIndexOnAtlas textureInfo).

(** [for (const x of xs)] with a body that may throw. *)
Fixpoint for_of {S A : Type} (body : S -> A -> result S) (xs : list A)
  (s : S) : result S :=
  match xs with
  | [] => Returns s
  | x :: xs' => s' ← body s x; for_of body xs' s'
  end.

(** The body of the loop over [analysisResult.colorHexes]. *)
Definition color_step (textureId : Z) (simpleFaceName : string)
  (faceIndex : gmap string (gmap string (list Z))) (colorHex : string)
  : gmap string (gmap string (list Z)) :=
  let byColor := default ∅ (faceIndex !! simpleFaceName) in
  let ids := default [] (byColor !! colorHex) in
  let ids' := if existsb (Z.eqb textureId) ids then ids
              else ids ++ [textureId] in
  <[simpleFaceName := <[colorHex := ids']> byColor]> faceIndex.

Section Main.

(** [analyzeTexture] reads the atlas image through Jimp; what it finds
    there, or that it fails, is a parameter of the index. *)
Variable analyzeTexture : textureRef -> result analysis.

(** The body of the loop over [Object.entries(blockData.faceMap)]. *)
Definition face_step (parsedBlockId : option Z) (blockData : blockData)
  (st : state) (entry : string * Z) : result state :=
  let '(complexFaceName, paletteIndex) := entry in
  match array_get (block_texturePalette blockData) paletteIndex with
  | None => Returns st
  | Some textureInfo =>
      '(textureId, st1) ←
        match textureCache st !! cacheKey textureInfo with
        | None =>
            analysis ← analyzeTexture textureInfo;
            let textureId := Z.of_nat (length (texturePalette st)) in
            Returns (textureId,
              State
                (texturePalette st ++
                   [IndexedTexture textureId textureInfo analysis None])
                (blockMap st) (faceIndex st) (includedBlockIds st)
                (<[cacheKey textureInfo := textureId]> (textureCache st))
                (textureIdToBlockIds st))
        | Some textureId => Returns (textureId, st)
        end;
      let owners := default ∅ (textureIdToBlockIds st1 !! textureId) in
      let st2 :=
        State (texturePalette st1) (blockMap st1) (faceIndex st1)
          (includedBlockIds st1) (textureCache st1)
          (<[textureId := {[parsedBlockId]} ∪ owners]>
             (textureIdToBlockIds st1)) in
      let simpleFaceName := getSimpleFaceName complexFaceName in
      if String.eqb simpleFaceName "unknown" then Returns st2
      else
        match array_get (texturePalette st2) textureId with
        | None => Throws TypeError
        | Some analysisResult =>
            Returns
              (State (texturePalette st2) (blockMap st2)
                 (fold_left (color_step textureId simpleFaceName)
                    (an_colorHexes (it_analysis analysisResult))
                    (faceIndex st2))
                 (includedBlockIds st2) (textureCache st2)
                 (textureIdToBlockIds st2))
        end
  end.

(** The body of the loop over [blockEntries]. *)
Definition block_step (st : state) (entry : string * blockData)
  : result state :=
  let '(blockId, blockData) := entry in
  if includes (block_name blockData) "Slab" then Returns st
  else if bool_decide (blockId ∈ idsToSkip) then Returns st
  else
    let st1 :=
      State (texturePalette st)
        (<[blockId := block_name blockData]> (blockMap st))
        (faceIndex st)
        (includedBlockIds st ++ [parseInt_Z blockId 10])
        (textureCache st) (textureIdToBlockIds st) in
    let parsedBlockId := parseInt_Z blockId 10 in
    for_of (face_step parsedBlockId blockData) (block_faceMap blockData) st1.

(** The loop that attaches [blockIds] to every texture. *)
Definition attach_blockIds (owners : gmap Z (gset (option Z)))
  (texture : indexedTexture) : indexedTexture :=
  IndexedTexture (it_textureId texture) (it_ref texture)
    (it_analysis texture)
    (Some match owners !! it_textureId texture with
          | Some blockIdSet => sort_numeric (elements blockIdSet)
          | None => []
          end).

(** What [main] writes: [finalData], to the index file, and the sorted
    [includedBlockIds], to the block id list file. *)
Record output : Type := Output {
  out_texture_palette : list indexedTexture;
  out_block_map : gmap string string;
  out_face_index : gmap string (gmap string (list Z));
  out_includedBlockIds : list (option Z)
}.

(** [main]: [blockEntries] is [Object.entries(mapData)]. *)
Definition main (blockEntries : list (string * blockData)) : result output :=
  st ← for_of block_step blockEntries initial;
  Returns
    (Output (attach_blockIds (textureIdToBlockIds st) <$> texturePalette st)
       (blockMap st) (faceIndex st)
       (sort_numeric (includedBlockIds st))).

End Main.

End Indexer.

(* ================================================================== *)
(** * Part VII: [generate_included_blockids.js] *)
(* ================================================================== *)

Module IncludedBlockIds.

(** The body of the loop over [blockEntries]: what it does to the set
    [includedBlockIds]. *)
Definition block_step (includedBlockIds : gset (option Z))
  (entry : string * blockData) : gset (option Z) :=
  let '(blockId, blockData) := entry in
  if includes (block_name blockData) "Slab" then includedBlockIds
  else {[parseInt_Z blockId 10]} ∪ includedBlockIds.

(** [main]: the [sortedBlockIds] it writes. *)
Definition main (blockEntries : list (string * blockData))
  : list (option Z) :=
  let includedBlockIds := fold_left block_step blockEntries ∅ in
  sort_numeric (elements includedBlockIds).

End IncludedBlockIds.

(* ================================================================== *)
(** * Part VIII: the notions the statements use *)
(* ================================================================== *)

(** ** Matching *)

(** The distance from a pixel colour to a candidate. *)
Definition distance_to (pixelColor : rgb) (c : candidate) : float :=
  colorDistance pixelColor (perceivedColor c).

(** The distance is a number below [Infinity], as it is between colours
    whose channels are bytes: such a candidate takes part in the scan
    ([distance < minDistance] can hold for it). *)
Definition measurable (pixelColor : rgb) (c : candidate) : Prop :=
  lt (distance_to pixelColor c) Infinity = true.

(** [c] carries the texture id [id]. *)
Definition has_id (id : Z) (c : candidate) : Prop :=
  textureId (textureInfo_of c) = id.

(** What the scan holds after the candidates [seen]: nothing before the
    first candidate; afterwards the first of the nearest candidates seen
    and its distance. *)
Inductive scanned (px : rgb)
  : list candidate -> option candidate * float -> Prop :=
| scanned_nil : scanned px [] (None, Infinity)
| scanned_best (before : list candidate) (best : candidate)
    (after : list candidate) :
    measurable px best ->
    (forall c, c ∈ before ->
       lt (distance_to px best) (distance_to px c) = true) ->
    (forall c, c ∈ after ->
       le (distance_to px best) (distance_to px c) = true) ->
    scanned px (before ++ best :: after) (Some best, distance_to px best).

(** A cell of a choices grid that is [null] or the id of a candidate. *)
Definition chosen_from (candidates : list candidate) (cell : choice) : Prop :=
  cell = Null \/
  exists c, c ∈ candidates /\ cell = TexId (textureId (textureInfo_of c)).

(** A colour with integer channels; [in_range] when they are bytes, as
    the channels [intToRGBA] reads from a pixel and those
    [calculatePerceivedColor] rounds from a histogram of hex colours. *)
Record rgb8 : Type := Rgb8 { r8 : Z; g8 : Z; b8 : Z }.

Definition in_range (c : rgb8) : Prop :=
  0 <= r8 c <= 255 /\ 0 <= g8 c <= 255 /\ 0 <= b8 c <= 255.

Definition to_rgb (c : rgb8) : rgb :=
  Rgb (of_Z (r8 c)) (of_Z (g8 c)) (of_Z (b8 c)).

(** The square of the Euclidean distance, in exact arithmetic. *)
Definition squared_distance (c1 c2 : rgb8) : Z :=
  (r8 c1 - r8 c2) * (r8 c1 - r8 c2)
  + (g8 c1 - g8 c2) * (g8 c1 - g8 c2)
  + (b8 c1 - b8 c2) * (b8 c1 - b8 c2).

(** A candidate whose perceived colour has integer channels. *)
Definition candidate8 (c : textureInfo * rgb8) : candidate :=
  Candidate (fst c) (to_rgb (snd c)).

(** The bytes, as integers and as machine words, and the squared
    distances two byte colours can be at, but for the largest. *)
Fixpoint Z_range (from : Z) (n : nat) : list Z :=
  match n with
  | O => []
  | S n' => from :: Z_range (from + 1) n'
  end.

Definition bytes : list Z := Eval vm_compute in Z_range 0 256.
Definition words : list Uint63.int :=
  Eval vm_compute in Uint63.of_Z <$> bytes.
Definition squared_distances : list Z := Z_range 0 (Z.to_nat 195075).

(** The square of a difference of bytes, as [colorDistance] computes it,
    is the square of the number that is its magnitude. *)
Definition square_exact (a b : Z) : bool :=
  let diff := (of_Z a - of_Z b)%float in
  let x := of_uint63 (Uint63.of_Z (Z.abs (a - b))) in
  PrimFloat.Leibniz.eqb (diff * diff) (x * x).

(** The sum of three squares of bytes, as [colorDistance] adds them, is
    the number their integer sum denotes. *)
Definition sum_exact (x y z : Uint63.int) : bool :=
  let xf := of_uint63 x in
  let yf := of_uint63 y in
  let zf := of_uint63 z in
  PrimFloat.Leibniz.eqb (xf * xf + yf * yf + zf * zf)%float
    (of_uint63 (Uint63.add (Uint63.add (Uint63.mul x x) (Uint63.mul y y))
                  (Uint63.mul z z))).

(** The square root grows from [k] to [k + 1], and stays a number. *)
Definition root_grows (k : Z) : bool :=
  lt (PrimFloat.sqrt (of_Z k)) (PrimFloat.sqrt (of_Z (k + 1)))
  && lt (PrimFloat.sqrt (of_Z (k + 1))) Infinity.

(** ** Encoding *)

(** The symbol the encoder emits for the value read from a cell. *)
Definition symbol_of (texturePalette : list textureInfo) (cell : choice) : Z :=
  UNICODE_PRIVATE_USE_START + cell_blockId texturePalette cell.

(** A code point [String.fromCodePoint] accepts. *)
Definition code_point (n : Z) : Prop := 0 <= n <= 0x10FFFF.




(** A stored texture id the palette cannot resolve to a block id: no
    palette entry, or an entry whose [blockIds] is missing or empty. *)
Definition unresolved (texturePalette : list textureInfo) (cell : choice)
  : Prop :=
  match cell with
  | TexId id =>
      match array_get texturePalette id with
      | Some texture => blockIds texture = None \/ blockIds texture = Some []
      | None => True
      end
  | _ => False
  end.

(** The cells the inner loop reads from a row: [row[x]] for [x] below the
    width of the first row. *)
Definition cells_read (width : nat) (row : list choice) : list choice :=
  row_get row <$> seq 0 width.

(** Subtracting the private-use base: the decoding of a symbol. *)
Definition decode (symbol : Z) : Z := symbol - UNICODE_PRIVATE_USE_START.

(** ** Filtering *)

(** The [candidates] array when the loop of [loadAndPrepareCandidates]
    is over, for the face index [faceIndex] of the requested direction. *)
Definition prepared (CONFIG : config) (faceIndex : gmap string (list Z))
  (texturePalette : list textureInfo) : list candidate :=
  fold_left (candidate_step CONFIG (validTextureIds faceIndex))
    texturePalette [].

(** The candidate filter in the words of the specification: a texture
    is kept when its id is valid for the face, [maxColorCount] is unset
    or not exceeded, transparency is absent or allowed, and [maxVariance]
    is unset or not exceeded. *)
Definition passes (CONFIG : config) (valid : gset Z) (texture : textureInfo)
  : bool :=
  bool_decide (textureId texture ∈ valid)
  && match maxColorCount CONFIG with
     | Some m => negb (m <? colorCount texture)
     | None => true
     end
  && (allowTransparency CONFIG || negb (hasTransparency texture))
  && match maxVariance CONFIG with
     | Some m => negb (gt (calculateColorVariance texture) m)
     | None => true
     end.

(** A kept texture becomes a candidate when it has a perceived colour. *)
Definition candidate_of (CONFIG : config) (valid : gset Z)
  (texture : textureInfo) : option candidate :=
  if passes CONFIG valid texture
  then Candidate texture <$> calculatePerceivedColor texture (searchDepth CONFIG)
  else None.

Definition filtered (CONFIG : config) (faceIndex : gmap string (list Z))
  (texturePalette : list textureInfo) : list candidate :=
  omap (candidate_of CONFIG (validTextureIds faceIndex)) texturePalette.

(** [tight] is [loose] or a smaller bound; no bound ([null]) is the
    loosest. *)
Definition tighter_variance (tight loose : option float) : Prop :=
  tight = loose \/
  match loose, tight with
  | None, _ => True
  | Some l, Some t => le t l = true
  | Some _, None => False
  end.

Definition tighter_count (tight loose : option Z) : Prop :=
  match loose, tight with
  | None, _ => True
  | Some l, Some t => t <= l
  | Some _, None => False
  end.

(** [CONFIG] with other bounds, all else equal. *)
Definition with_bounds (CONFIG : config) (maxVariance' : option float)
  (maxColorCount' : option Z) : config :=
  Config (faceDirection CONFIG) maxVariance' (searchDepth CONFIG)
    maxColorCount' (allowTransparency CONFIG)
    (textureSwitchThreshold CONFIG).

(** ** Colours *)

(** The side of a texture, [CONFIG.TEXTURE_SIZE]; a histogram counts the
    [TEXTURE_SIZE * TEXTURE_SIZE] pixels of a texture. *)
Definition TEXTURE_SIZE : Z := 8.

(** A hex colour as the analyzer writes it: [#] and six hex digits. *)
Definition is_hex_digit (c : ascii) : bool :=
  match digit_value c with
  | Some d => d <? 16
  | None => false
  end.

Definition is_hex_color (hex : string) : bool :=
  match hex with
  | String c0 (String c1 (String c2 (String c3 (String c4 (String c5
      (String c6 EmptyString)))))) =>
      Ascii.eqb c0 "#" && forallb is_hex_digit [c1; c2; c3; c4; c5; c6]
  | _ => false
  end.

(** The sum of [terms], added from left to right to [start]. *)
Definition sum_from (start : float) (terms : list float) : float :=
  fold_left PrimFloat.add terms start.

(** What the loops of [calculatePerceivedColor] and
    [calculateColorVariance] read at the indices [idxs]: the colour
    [hexToRgb] gives for the key, with the pixel count; an index whose
    key gives no colour is passed over. *)
Definition entries_at (texture : textureInfo) (idxs : list nat)
  : list (rgb * float) :=
  omap (fun i => (fun color => (color, count_at texture i))
                   <$> hexToRgb (hex_at texture i)) idxs.

(** What the loops read over the whole histogram. *)
Definition opaque_entries (texture : textureInfo) : list (rgb * float) :=
  entries_at texture (seq 0 (length (colorHexes texture))).

(** The pixel counts the loops add up. *)
Definition opaque_pixels (texture : textureInfo) : float :=
  sum_from 0 (snd <$> opaque_entries texture).

(** The place of a character in a string of digits, from 0. *)
Fixpoint place_in (digits : string) (c : ascii) : option Z :=
  match digits with
  | EmptyString => None
  | String d rest =>
      if Ascii.eqb c d then Some 0 else Z.succ <$> place_in rest c
  end.

(** The number a hex digit stands for: its place among the sixteen
    digits, in lower or in upper case. *)
Definition hex_digit_number (c : ascii) : option Z :=
  match place_in "0123456789abcdef" c with
  | Some d => Some d
  | None => place_in "0123456789ABCDEF" c
  end.

(** The channel two hex digits denote: sixteen times the first and the
    second. *)
Definition channel_number (c1 c2 : ascii) : option Z :=
  match hex_digit_number c1, hex_digit_number c2 with
  | Some d1, Some d2 => Some (16 * d1 + d2)
  | _, _ => None
  end.

(** The colour a key [#rrggbb] denotes; no other string denotes a colour,
    the key of the transparent pixels among them. *)
Definition denoted_color (hex : string) : option rgb8 :=
  match hex with
  | String "#" (String c1 (String c2 (String c3 (String c4 (String c5
      (String c6 EmptyString)))))) =>
      match channel_number c1 c2, channel_number c3 c4,
            channel_number c5 c6 with
      | Some r, Some g, Some b => Some (Rgb8 r g b)
      | _, _, _ => None
      end
  | _ => None
  end.

(** A histogram as the indexer writes it: a pixel count for every key,
    and every key a colour or the key of the transparent pixels. *)
Definition well_formed_histogram (texture : textureInfo) : Prop :=
  length (colorPixelCounts texture) = length (colorHexes texture) /\
  Forall (fun hex => hex = "#transparent"%string \/
                     is_Some (denoted_color hex)) (colorHexes texture).

(** The colours of the histogram with their pixel counts, in histogram
    order; the transparent entry is left out. *)
Definition coloured_entries (texture : textureInfo) : list (rgb8 * Z) :=
  omap (fun e => (fun color => (color, snd e)) <$> denoted_color (fst e))
    (zip (colorHexes texture) (colorPixelCounts texture)).

(** The number of pixels that have a colour. *)
Definition coloured_pixels (texture : textureInfo) : float :=
  sum_from 0 ((fun e => of_Z (snd e)) <$> coloured_entries texture).

(** The weighted mean colour over the whole histogram, in the words of
    the specification: per channel, the count-weighted sum of the colours
    divided by the number of pixels that have a colour; none when no
    pixel has a colour. *)
Definition weighted_mean (texture : textureInfo) : option rgb :=
  let mean_of (channel : rgb8 -> Z) :=
    (sum_from 0 ((fun e => of_Z (channel (fst e)) * of_Z (snd e))%float
                   <$> coloured_entries texture)
     / coloured_pixels texture)%float in
  if strict_eq (coloured_pixels texture) 0 then None
  else Some (Rgb (mean_of r8) (mean_of g8) (mean_of b8)).

(** A colour with every channel rounded to the nearest integer. *)
Definition rounded (color : rgb) : rgb :=
  Rgb (Math_round (r color)) (Math_round (g color)) (Math_round (b color)).

(** The Euclidean distance between two colours: the square root of the
    sum of the squares of the three channel differences. *)
Definition euclidean_distance (c1 c2 : rgb) : float :=
  let square (x : float) := (x * x)%float in
  PrimFloat.sqrt (square (r c1 - r c2) + square (g c1 - g c2)
                  + square (b c1 - b c2))%float.

(** The count-weighted average Euclidean distance of the colours of the
    histogram from the colour [mean]. *)
Definition weighted_average_distance (texture : textureInfo) (mean : rgb)
  : float :=
  (sum_from 0 ((fun e => euclidean_distance (to_rgb (fst e)) mean
                         * of_Z (snd e))%float
                 <$> coloured_entries texture)
   / coloured_pixels texture)%float.

(** The Euclidean distance between two colours with integer channels:
    the square root, as a number, of the exact sum of squares. *)
Definition euclidean8 (c1 c2 : rgb8) : float :=
  PrimFloat.sqrt (of_Z (squared_distance c1 c2)).

(** A texture of 48 black and 16 white pixels. *)
Definition chequered : textureInfo :=
  TextureInfo 0 0 0 false 2 ["#000000"; "#ffffff"]%string [48; 16] None.

(** The hex digits and the pixel counts of a texture, enumerated. *)
Definition hex_digits : list ascii :=
  list_ascii_of_string "0123456789abcdefABCDEF".

Definition pixel_counts : list Z :=
  Z.of_nat <$> seq 1 (Z.to_nat (TEXTURE_SIZE * TEXTURE_SIZE)).

(** The channel two hex digits denote. *)
Definition channel_of (c1 c2 : ascii) : float :=
  parseInt (String c1 (String c2 EmptyString)) 16.

(** [parseInt] with radix 16 reads two hex digits as the number they
    denote, a byte. *)
Definition channel_read (c1 c2 : ascii) : bool :=
  match channel_number c1 c2 with
  | Some n =>
      PrimFloat.Leibniz.eqb (channel_of c1 c2) (of_Z n)
      && (0 <=? n) && (n <=? 255)
  | None => false
  end.

(** For a channel value [v] and a pixel count [n]: the mean of [n] times
    [v] rounds to [v], [n] pixels are not 0 pixels, and [v] is at
    distance 0 from itself. *)
Definition channel_exact (c1 c2 : ascii) (count : Z) : bool :=
  let v := channel_of c1 c2 in
  let n := of_Z count in
  PrimFloat.Leibniz.eqb (Math_round ((0 + v * n) / (0 + n))) v
  && negb (strict_eq (0 + n) 0)
  && PrimFloat.Leibniz.eqb (v - v) 0.

(** A weighted distance of 0 averages to 0. *)
Definition zero_average (count : Z) : bool :=
  let n := of_Z count in
  PrimFloat.Leibniz.eqb
    ((0 + PrimFloat.sqrt (0 * 0 + 0 * 0 + 0 * 0) * n) / (0 + n)) 0.

(** ** Indexing *)

(** A block the indexer is meant to leave out: its name contains
    "Slab", or its id is in the fixed exclusion set. *)
Definition excluded (entry : string * blockData) : bool :=
  includes (block_name (snd entry)) "Slab"
  || bool_decide (fst entry ∈ Indexer.idsToSkip).

(** Every texture id the cache of the indexer holds is an index of its
    palette. *)
Definition cache_in_range (st : Indexer.state) : Prop :=
  forall key id,
    Indexer.textureCache st !! key = Some id ->
    0 <= id < Z.of_nat (length (Indexer.texturePalette st)).

(** ** Worked examples *)

(** A small index for the worked examples: two plain textures, a
    two-colour one, a fully transparent one. *)
Module Sample.

Definition red : textureInfo :=
  TextureInfo 0 0 0 false 1 ["#ff0000"%string] [64] (Some [7; 9]).
Definition blue : textureInfo :=
  TextureInfo 1 0 1 false 1 ["#0000ff"%string] [64] (Some [3]).
Definition dusk : textureInfo :=
  TextureInfo 2 0 2 false 2 ["#102030"; "#405060"]%string [40; 24]
    (Some [5]).
Definition glass : textureInfo :=
  TextureInfo 3 0 3 true 1 ["#transparent"%string] [64] (Some []).
Definition crimson : textureInfo :=
  TextureInfo 4 0 4 false 1 ["#f00000"%string] [64] None.

Definition palette : list textureInfo := [red; blue; dusk; glass; crimson].

Definition index : textureData :=
  TextureData palette
    {[ "front"%string :=
         {[ "#ff0000"%string := [0]; "#0000ff"%string := [1];
            "#102030"%string := [2]; "#405060"%string := [2];
            "#transparent"%string := [3]; "#f00000"%string := [4] ]} ]}.

Definition c_red : candidate := Candidate red (Rgb 255 0 0).
Definition c_blue : candidate := Candidate blue (Rgb 0 0 255).
Definition c_crimson : candidate := Candidate crimson (Rgb 240 0 0).

(** A small [block_texture_map.json]: block 1 is in the exclusion set,
    block 3 is a slab; blocks 2 and 12 share a texture. *)
Definition blocks : list (string * blockData) :=
  [("1", BlockData "Air" [("Top", 0)] [TextureRef 0 0]);
   ("2", BlockData "Stone" [("TopFace", 0); ("Side", 1)]
           [TextureRef 0 1; TextureRef 0 2]);
   ("3", BlockData "Stone Slab" [("Top", 0)] [TextureRef 0 5]);
   ("12", BlockData "Dirt" [("Top", 0)] [TextureRef 0 1])]%string.

(** An analyzer that finds every texture plain red. *)
Definition plain_red (textureInfo : textureRef) : result Indexer.analysis :=
  Returns (Indexer.Analysis false 1 ["#ff0000"%string] [64]).

End Sample.

(* ================================================================== *)
(** * Part IX: [getAtlas] and [analyzeTexture] *)
(* ================================================================== *)

(** ** More built-ins *)

Module JsLib.

(** [n.toString(16)] for a natural number [n]: its hexadecimal digits,
    lower case, without leading zeros. *)
Definition toString16 (n : N) : string :=
  HexadecimalString.NilZero.string_of_uint (N.to_hex_uint n).

(** [s.padStart(targetLength, pad)] for a one-character [pad]. *)
Definition padStart (s : string) (targetLength : nat) (pad : ascii) : string :=
  String.append
    (string_of_list_ascii (repeat pad (targetLength - String.length s))) s.

(** [a.sort(cmp)] for a comparator that orders the elements consistently:
    the arrangement in the order of [cmp] in which elements that compare
    equal keep their places relative to each other (the sort is stable).
    Inserting the elements from the last to the first, each before the
    first element it does not have to follow, computes it. *)
Fixpoint sort_insert {A : Type} (cmp : A -> A -> Z) (x : A) (sorted : list A)
  : list A :=
  match sorted with
  | [] => [x]
  | y :: rest =>
      if 0 <? cmp x y then y :: sort_insert cmp x rest else x :: sorted
  end.

Definition sort_by {A : Type} (cmp : A -> A -> Z) (a : list A) : list A :=
  foldr (sort_insert cmp) [] a.

End JsLib.

Import JsLib.

(** ** [analyzeTexture] of the indexer *)

Module Analyzer.
Import Indexer.

(** A Jimp image as far as the indexer reads it: [bitmap.width] and
    the bytes of [bitmap.data], four to a pixel. *)
Record image : Type := Image {
  bitmap_width : nat;
  bitmap_data : list Byte.byte
}.

(** [c.toString(16).padStart(2, '0')] for a byte of the bitmap. *)
Definition channel_hex (c : Byte.byte) : string :=
  padStart (toString16 (Byte.to_N c)) 2 "0".

(** ['#' + [r, g, b].map(...).join('')]. *)
Definition hex_key (r g b : Byte.byte) : string :=
  String "#"
    (String.append (channel_hex r)
       (String.append (channel_hex g) (channel_hex b))).

(** [colorCounts[colorKey] = (colorCounts[colorKey] || 0) + 1] on the
    entries of [colorCounts] in the order [Object.entries] yields them:
    that of insertion, no key being an array index. *)
Fixpoint count_color (colorKey : string) (colorCounts : list (string * Z))
  : list (string * Z) :=
  match colorCounts with
  | [] => [(colorKey, 0 + 1)]
  | (key, count) :: rest =>
      if String.eqb key colorKey then (key, count + 1) :: rest
      else (key, count) :: count_color colorKey rest
  end.

(** The variables the callback of [scan] updates. *)
Record scanned_colors : Type := ScannedColors {
  colorCounts : list (string * Z);
  seenTransparency : bool
}.

(** The callback of [scan] at the byte offset [idx].  A byte read past
    the end of the data is [undefined]: as alpha it is not below 255, as
    a channel its [toString] throws. *)
Definition scan_callback (textureImage : image) (st : scanned_colors)
  (idx : nat) : result scanned_colors :=
  let data := bitmap_data textureImage in
  let opaque :=
    match data !! idx, data !! (idx + 1)%nat, data !! (idx + 2)%nat with
    | Some r, Some g, Some b =>
        Returns (ScannedColors (count_color (hex_key r g b) (colorCounts st))
                   (seenTransparency st))
    | _, _, _ => Throws TypeError
    end in
  match data !! (idx + 3)%nat with
  | Some a =>
      if (Byte.to_N a <? 255)%N
      then Returns (ScannedColors
                      (count_color "#transparent" (colorCounts st)) true)
      else opaque
  | None => opaque
  end.

(** The offsets [scan(0, 0, TEXTURE_SIZE, TEXTURE_SIZE, ...)] of Jimp
    hands to its callback: row by row, [(bitmap.width * y + x) << 2] for
    the pixel [(x, y)], which is [(bitmap.width * y + x) * 4] at the size
    of an image. *)
Definition scan_offsets (textureImage : image) : list nat :=
  let size := Z.to_nat TEXTURE_SIZE in
  flat_map (fun y => (fun x => ((bitmap_width textureImage * y + x) * 4)%nat)
                       <$> seq 0 size)
    (seq 0 size).

(** The comparator [([, countA], [, countB]) => countB - countA]. *)
Definition by_count (entryA entryB : string * Z) : Z :=
  snd entryB - snd entryA.

(** The part of [analyzeTexture] that follows the cropping of the texture
    from its atlas. *)
Definition analyzeImage (textureImage : image) : result analysis :=
  st ← for_of (scan_callback textureImage) (scan_offsets textureImage)
         (ScannedColors [] false);
  let sortedColors :=
    sort_by by_count (colorCounts st) in
  let colorHexes := fst <$> sortedColors in
  let colorPixelCounts := snd <$> sortedColors in
  Returns (Analysis (seenTransparency st) (Z.of_nat (length colorHexes))
             colorHexes colorPixelCounts).

Section Atlas.

(** The texture image: [getAtlas] reads the atlas through Jimp and [crop]
    cuts the texture out of a clone of it; what they yield for a texture,
    or that they fail, is a parameter. *)
Variable textureImage : textureRef -> result image.

Definition analyzeTexture (textureInfo : textureRef) : result analysis :=
  image ← textureImage textureInfo;
  analyzeImage image.

End Atlas.

End Analyzer.

(** ** [getAtlas] *)

Module Atlas.

Section Files.

(** The images are Jimp's; [Jimp.read] of the file [atlas_<index>.png],
    or its failure, is a parameter. *)
Variable image : Type.
Variable Jimp_read : Z -> result image.

(** [atlasCache], and the calls of [Jimp.read] made so far, by atlas
    index. *)
Record files : Type := Files {
  atlasCache : gmap Z image;
  reads : list Z
}.

(** [getAtlas]: the atlas or the error, and the state it leaves.  The
    indexer's version logs the error before it throws it again. *)
Definition getAtlas (st : files) (atlasFileIndex : Z)
  : result image * files :=
  match atlasCache st !! atlasFileIndex with
  | Some atlas => (Returns atlas, st)
  | None =>
      let st1 := Files (atlasCache st) (reads st ++ [atlasFileIndex]) in
      match Jimp_read atlasFileIndex with
      | Returns atlas =>
          (Returns atlas,
           Files (<[atlasFileIndex := atlas]> (atlasCache st1)) (reads st1))
      | Throws e => (Throws e, st1)
      end
  end.

(** A sequence of calls, each on the state the call before it left. *)
Fixpoint getAtlases (st : files) (indices : list Z)
  : list (result image) * files :=
  match indices with
  | [] => ([], st)
  | atlasFileIndex :: rest =>
      let '(atlas, st1) := getAtlas st atlasFileIndex in
      let '(atlases, st2) := getAtlases st1 rest in
      (atlas :: atlases, st2)
  end.

End Files.

Arguments Files {image}.
Arguments atlasCache {image}.
Arguments reads {image}.
Arguments getAtlas {image}.
Arguments getAtlases {image}.

End Atlas.

(* ================================================================== *)
(** * Part X: the runs of the two bloxelizers *)
(* ================================================================== *)

(** ** [main] of the still-image bloxelizer *)

Module StillJob.

(** What [choicesGrid[y][x]] holds after the pixel was matched: the id of
    the texture found, or the [null] the grid was filled with. *)
Definition cell_of (bestTextureInfo : option textureInfo) : choice :=
  match bestTextureInfo with
  | Some t => TexId (textureId t)
  | None => Null
  end.

Section Pixels.

(** [intToRGBA] of Jimp: the colour a pixel value packs. *)
Variable intToRGBA : Z -> rgb.

(** The texture for one pixel, through [colorMatchCache]: an entry that is
    a texture is returned as it is; without an entry, and with an entry
    that is [null], the match is computed and stored. *)
Definition match_pixel (candidates : list candidate)
  (colorMatchCache : gmap Z (option textureInfo)) (pixelColorInt : Z)
  : option textureInfo * gmap Z (option textureInfo) :=
  match colorMatchCache !! pixelColorInt with
  | Some (Some cached) => (Some cached, colorMatchCache)
  | _ =>
      let pixelRGBA := intToRGBA pixelColorInt in
      let bestTextureInfo := Still.findBestMatch pixelRGBA candidates in
      (bestTextureInfo, <[pixelColorInt := bestTextureInfo]> colorMatchCache)
  end.

(** The inner loop, over the pixels of a row of the resized image. *)
Fixpoint match_row (candidates : list candidate)
  (colorMatchCache : gmap Z (option textureInfo)) (pixels : list Z)
  : list choice * gmap Z (option textureInfo) :=
  match pixels with
  | [] => ([], colorMatchCache)
  | pixelColorInt :: pixels' =>
      let '(bestTextureInfo, cache1) :=
        match_pixel candidates colorMatchCache pixelColorInt in
      let '(cells, cache2) := match_row candidates cache1 pixels' in
      (cell_of bestTextureInfo :: cells, cache2)
  end.

(** The outer loop, over the rows. *)
Fixpoint match_rows (candidates : list candidate)
  (colorMatchCache : gmap Z (option textureInfo)) (rows : list (list Z))
  : list (list choice) * gmap Z (option textureInfo) :=
  match rows with
  | [] => ([], colorMatchCache)
  | pixels :: rows' =>
      let '(row, cache1) := match_row candidates colorMatchCache pixels in
      let '(grid, cache2) := match_rows candidates cache1 rows' in
      (row :: grid, cache2)
  end.

(** [main] from the index file to the blueprint files: [resized] holds
    the pixel values of the resized image, row by row; [colorMatchCache]
    starts empty.  The drawing of the textures onto the output image is
    left out. *)
Definition main (textureData : textureData) (resized : list (list Z))
  : result (option blueprint) :=
  candidates ← loadAndPrepareCandidates CONFIG_still textureData;
  let choicesGrid := fst (match_rows candidates ∅ resized) in
  generateBlueprintFiles choicesGrid (texture_palette textureData).

End Pixels.

End StillJob.

(** ** [main] of the GIF bloxelizer *)

Module GifJob.

(** The variables of the loop over the frames: [previousFrameChoices],
    the frames the encoder was given ([None] as long as [encoder] is
    undefined; a frame stands here for the choices it was drawn from),
    and the blueprint [generateBlueprintFiles] wrote. *)
Record run : Type := Run {
  previousFrameChoices : option (list (list choice));
  encoder : option (list (list (list choice)));
  written : option blueprint
}.

(** The body of the loop for frame [i]. *)
Definition frame_step (CONFIG : config) (textureData : textureData)
  (candidates : list candidate) (st : run) (i : nat)
  (frame : list (list rgb)) : result run :=
  currentFrameChoices ←
    Gif.processImageFrame CONFIG frame candidates (previousFrameChoices st);
  '(encoder1, written1) ←
    (if (i =? 0)%nat
     then blueprint ← generateBlueprintFiles currentFrameChoices
                        (texture_palette textureData);
          Returns (Some [], blueprint)
     else Returns (encoder st, written st));
  match encoder1 with
  | None => Throws TypeError
  | Some frames =>
      Returns (Run (Some currentFrameChoices)
                 (Some (frames ++ [currentFrameChoices])) written1)
  end.

Fixpoint frames_from (CONFIG : config) (textureData : textureData)
  (candidates : list candidate) (st : run) (i : nat)
  (frameData : list (list (list rgb))) : result run :=
  match frameData with
  | [] => Returns st
  | frame :: rest =>
      st' ← frame_step CONFIG textureData candidates st i frame;
      frames_from CONFIG textureData candidates st' (S i) rest
  end.

(** The input of the script once decoded and resized: the frames of a
    GIF, or one image. *)
Inductive input : Type :=
| Animated (frameData : list (list (list rgb)))
| Static (sourceImage : list (list rgb)).

(** What a run that reaches its end has produced: the blueprint written
    and the frames of the output, one for a static image. *)
Record output : Type := Output {
  out_blueprint : option blueprint;
  out_frames : list (list (list choice))
}.

(** [main] from the index file on; [encoder.finish()] on an encoder that
    was never created throws. *)
Definition main (CONFIG : config) (textureData : textureData)
  (inputFile : input) : result output :=
  candidates ← loadAndPrepareCandidates CONFIG textureData;
  match inputFile with
  | Animated frameData =>
      st ← frames_from CONFIG textureData candidates (Run None None None)
             0 frameData;
      match encoder st with
      | None => Throws TypeError
      | Some frames => Returns (Output (written st) frames)
      end
  | Static sourceImage =>
      currentFrameChoices ←
        Gif.processImageFrame CONFIG sourceImage candidates None;
      blueprint ← generateBlueprintFiles currentFrameChoices
                    (texture_palette textureData);
      Returns (Output blueprint [currentFrameChoices])
  end.

End GifJob.

(* ================================================================== *)
(** * Part XI: the notions the further statements use *)
(* ================================================================== *)

(** ** The histogram of a texture *)

(** The key the callback of [scan] counts for the pixel at offset [idx]. *)
Definition pixel_key (textureImage : Analyzer.image) (idx : nat)
  : result string :=
  let data := Analyzer.bitmap_data textureImage in
  let opaque :=
    match data !! idx, data !! (idx + 1)%nat, data !! (idx + 2)%nat with
    | Some r, Some g, Some b => Returns (Analyzer.hex_key r g b)
    | _, _, _ => Throws TypeError
    end in
  match data !! (idx + 3)%nat with
  | Some a => if (Byte.to_N a <? 255)%N then Returns "#transparent"%string
              else opaque
  | None => opaque
  end.

(** How many of the scanned pixels count for [key]. *)
Definition pixels_with (textureImage : Analyzer.image) (key : string) : Z :=
  Z.of_nat (length (List.filter
    (fun idx => match pixel_key textureImage idx with
                | Returns k => String.eqb k key
                | Throws _ => false
                end)
    (Analyzer.scan_offsets textureImage))).

(** The count a histogram holds for [key], 0 when it has no entry. *)
Definition tally (key : string) (colorCounts : list (string * Z)) : Z :=
  match find (fun e => String.eqb (fst e) key) colorCounts with
  | Some e => snd e
  | None => 0
  end.

(** The histogram of an analysis, hex by hex. *)
Definition histogram (a : Indexer.analysis) : list (string * Z) :=
  zip (Indexer.an_colorHexes a) (Indexer.an_colorPixelCounts a).

(** The byte [n] denotes, for [n] below 256. *)
Definition byte_of (n : Z) : Byte.byte :=
  default Byte.x00 (Byte.of_N (Z.to_N n)).

Definition all_bytes : list Byte.byte :=
  Eval vm_compute in byte_of <$> bytes.

Definition byte_value (c : Byte.byte) : Z := Z.of_N (Byte.to_N c).

(** A texture image of a single opaque colour. *)
Definition plain_image (r g b : Byte.byte) : Analyzer.image :=
  Analyzer.Image (Z.to_nat TEXTURE_SIZE)
    (concat (repeat [r; g; b; Byte.xff]
               (Z.to_nat (TEXTURE_SIZE * TEXTURE_SIZE)))).

(** The two characters written for a byte are hex digits, and read as a
    number in radix 16 they denote the byte. *)
Definition channel_round_trip (c : Byte.byte) : bool :=
  match Analyzer.channel_hex c with
  | String d1 (String d2 EmptyString) =>
      is_hex_digit d1 && is_hex_digit d2
      && PrimFloat.Leibniz.eqb (channel_of d1 d2) (of_Z (byte_value c))
  | _ => false
  end.

(** The two characters written for a byte denote it. *)
Definition channel_written (c : Byte.byte) : bool :=
  match Analyzer.channel_hex c with
  | String d1 (String d2 EmptyString) =>
      match channel_number d1 d2 with
      | Some n => n =? byte_value c
      | None => false
      end
  | _ => false
  end.

(** A texture image for the worked examples: in every row four pixels
    of one colour, three of another and one that is half transparent. *)
Module Swatch.

Definition row : list Byte.byte :=
  concat (repeat [Byte.x10; Byte.x20; Byte.x30; Byte.xff] 4
          ++ repeat [Byte.x40; Byte.x50; Byte.x60; Byte.xff] 3
          ++ [[Byte.xff; Byte.xff; Byte.xff; Byte.x80]]).

Definition two_tone : Analyzer.image :=
  Analyzer.Image 8 (concat (repeat row 8)).

End Swatch.

(** Two bytes that are written with the same two characters are the same
    byte. *)
Definition channel_hex_distinct (c c' : Byte.byte) : bool :=
  implb (String.eqb (Analyzer.channel_hex c) (Analyzer.channel_hex c'))
    (Byte.eqb c c').

(** ** The index *)

(** A texture id joins a list of ids unless it is there already. *)
Definition with_id (textureId : Z) (ids : list Z) : list Z :=
  if existsb (Z.eqb textureId) ids then ids else ids ++ [textureId].

(** What holds of the variables of the indexer between two faces: texture
    ids are positions in the palette; the cache knows exactly the
    textures of the palette, by their atlas position; every texture
    carries the analysis of its reference; every texture has owners, all
    of them listed block ids; the face index has the six faces, and its
    lists hold, without repetition, ids of palette textures that show
    the colour. *)
Record index_invariant
  (analyzeTexture : textureRef -> result Indexer.analysis)
  (st : Indexer.state) : Prop := IndexInvariant {
  inv_ids : forall i t,
    Indexer.texturePalette st !! i = Some t ->
    Indexer.it_textureId t = Z.of_nat i;
  inv_cache : forall key id,
    Indexer.textureCache st !! key = Some id <->
    exists t, t ∈ Indexer.texturePalette st /\
              Indexer.cacheKey (Indexer.it_ref t) = key /\
              Indexer.it_textureId t = id;
  inv_analysis : forall t,
    t ∈ Indexer.texturePalette st ->
    analyzeTexture (Indexer.it_ref t) = Returns (Indexer.it_analysis t) /\
    Indexer.it_blockIds t = None;
  inv_owners : forall id owners,
    Indexer.textureIdToBlockIds st !! id = Some owners ->
    owners <> ∅ /\
    0 <= id < Z.of_nat (length (Indexer.texturePalette st)) /\
    forall blockId, blockId ∈ owners -> blockId ∈ Indexer.includedBlockIds st;
  inv_owned : forall t,
    t ∈ Indexer.texturePalette st ->
    is_Some (Indexer.textureIdToBlockIds st !! Indexer.it_textureId t);
  inv_faces : forall face,
    is_Some (Indexer.faceIndex st !! face) <-> face ∈ Indexer.faces;
  inv_face_ids : forall face byColor hex ids,
    Indexer.faceIndex st !! face = Some byColor ->
    byColor !! hex = Some ids ->
    NoDup ids /\
    forall id, id ∈ ids ->
      exists t, array_get (Indexer.texturePalette st) id = Some t /\
                hex ∈ Indexer.an_colorHexes (Indexer.it_analysis t)
}.

(** The variables of the indexer only grow: the palette at its end, the
    cache by new keys, the owners and the lists of the face index by new
    members. *)
Record index_grows (st st' : Indexer.state) : Prop := IndexGrows {
  grows_palette :
    Indexer.texturePalette st `prefix_of` Indexer.texturePalette st';
  grows_cache : Indexer.textureCache st ⊆ Indexer.textureCache st';
  grows_owners : forall id owners,
    Indexer.textureIdToBlockIds st !! id = Some owners ->
    exists owners', Indexer.textureIdToBlockIds st' !! id = Some owners' /\
                    owners ⊆ owners';
  grows_faces : forall face byColor hex ids,
    Indexer.faceIndex st !! face = Some byColor ->
    byColor !! hex = Some ids ->
    exists byColor' ids',
      Indexer.faceIndex st' !! face = Some byColor' /\
      byColor' !! hex = Some ids' /\ ids ⊆ ids'
}.

(** The texture [ref] is indexed for the block id [blockId]: the cache
    resolves it to a texture of the palette that counts the block among
    its owners. *)
Definition indexed_for (st : Indexer.state) (ref : textureRef)
  (blockId : option Z) : Prop :=
  exists id owners,
    Indexer.textureCache st !! Indexer.cacheKey ref = Some id /\
    Indexer.textureIdToBlockIds st !! id = Some owners /\
    blockId ∈ owners.

(** The texture [ref] is listed on [face] under each of its colours. *)
Definition listed_on (st : Indexer.state) (ref : textureRef) (face : string)
  : Prop :=
  exists id t,
    Indexer.textureCache st !! Indexer.cacheKey ref = Some id /\
    array_get (Indexer.texturePalette st) id = Some t /\
    forall hex, hex ∈ Indexer.an_colorHexes (Indexer.it_analysis t) ->
      exists byColor ids,
        Indexer.faceIndex st !! face = Some byColor /\
        byColor !! hex = Some ids /\ id ∈ ids.

(** The textures of the faces [faceMap] of a block are indexed for the
    block. *)
Definition faces_indexed (st : Indexer.state) (parsedBlockId : option Z)
  (blockData : blockData) (faceMap : list (string * Z)) : Prop :=
  forall complexFaceName paletteIndex textureInfo,
    (complexFaceName, paletteIndex) ∈ faceMap ->
    array_get (block_texturePalette blockData) paletteIndex
      = Some textureInfo ->
    indexed_for st textureInfo parsedBlockId /\
    (Indexer.getSimpleFaceName complexFaceName <> "unknown"%string ->
     listed_on st textureInfo (Indexer.getSimpleFaceName complexFaceName)).

(** The textures of every block of [blockEntries] that is not excluded
    are indexed for the block. *)
Definition blocks_indexed (st : Indexer.state)
  (blockEntries : list (string * blockData)) : Prop :=
  forall entry,
    entry ∈ blockEntries -> excluded entry = false ->
    faces_indexed st (parseInt_Z (fst entry) 10) (snd entry)
      (block_faceMap (snd entry)).

(** ** The runs *)

(** A cached match is the match: what [colorMatchCache] holds for a pixel
    value is what [findBestMatch] finds for it. *)
Definition cache_sound (intToRGBA : Z -> rgb) (candidates : list candidate)
  (colorMatchCache : gmap Z (option textureInfo)) : Prop :=
  forall pixelColorInt cached,
    colorMatchCache !! pixelColorInt = Some cached ->
    cached = Still.findBestMatch (intToRGBA pixelColorInt) candidates.

(** The grid of the matches, cell by cell, without any cache. *)
Definition matched_grid (intToRGBA : Z -> rgb) (candidates : list candidate)
  (resized : list (list Z)) : list (list choice) :=
  (fun pixels : list Z =>
     (fun pixelColorInt =>
        StillJob.cell_of
          (Still.findBestMatch (intToRGBA pixelColorInt) candidates))
       <$> pixels) <$> resized.

(** The widths of the rows of a grid. *)
Definition shape {A : Type} (grid : list (list A)) : list nat :=
  length <$> grid.

(** The grids [grids] are the choices for the frames [frames], each frame
    processed with the choices of the frame before it; [previous] are the
    choices before the first of them. *)
Fixpoint follows (CONFIG : config) (candidates : list candidate)
  (previous : option (list (list choice)))
  (frames : list (list (list rgb))) (grids : list (list (list choice)))
  : Prop :=
  match frames, grids with
  | [], [] => True
  | frame :: frames', grid :: grids' =>
      Gif.processImageFrame CONFIG frame candidates previous = Returns grid /\
      follows CONFIG candidates (Some grid) frames' grids'
  | _, _ => False
  end.

(** ** The index file, from the indexer to the bloxelizers *)

(** A palette entry the indexer wrote, read back by a bloxelizer: the
    fields are those written.  A block id that is NaN is written as
    [null], which is no number: the relation holds of entries whose
    block ids are all numbers. *)
Definition reads_texture (written : Indexer.indexedTexture)
  (read : textureInfo) : Prop :=
  textureId read = Indexer.it_textureId written /\
  atlasFileIndex read = ref_atlasFileIndex (Indexer.it_ref written) /\
  textureIndexOnAtlas read
    = ref_textureIndexOnAtlas (Indexer.it_ref written) /\
  hasTransparency read
    = Indexer.an_hasTransparency (Indexer.it_analysis written) /\
  colorCount read = Indexer.an_colorCount (Indexer.it_analysis written) /\
  colorHexes read = Indexer.an_colorHexes (Indexer.it_analysis written) /\
  colorPixelCounts read
    = Indexer.an_colorPixelCounts (Indexer.it_analysis written) /\
  Indexer.it_blockIds written
    = (fun ids : list Z => Some <$> ids) <$> blockIds read.

(** The index file read back. *)
Definition reads_index (written : Indexer.output) (read : textureData)
  : Prop :=
  Forall2 reads_texture (Indexer.out_texture_palette written)
    (texture_palette read) /\
  face_index read = Indexer.out_face_index written.

(** A symbol of a blueprint stands for the block id 0 or for a block id
    the indexer listed as available. *)
Definition available_symbol (written : Indexer.output) (symbol : Z) : Prop :=
  decode symbol = 0 \/
  Some (decode symbol) ∈ Indexer.out_includedBlockIds written.

(** A symbol [String.fromCodePoint] rejects is read in [row]. *)
Definition rejected_in (texturePalette : list textureInfo) (width : nat)
  (row : list choice) : Prop :=
  Exists (fun cell => ~ code_point (symbol_of texturePalette cell))
    (cells_read width row).

(** ** The atlas files *)

(** [Jimp.read] returned for the atlas [atlasFileIndex]. *)
Definition was_read {image : Type} (Jimp_read : Z -> result image)
  (atlasFileIndex : Z) : bool :=
  match Jimp_read atlasFileIndex with
  | Returns _ => true
  | Throws _ => false
  end.

(** The cache holds what [Jimp.read] returns, every atlas read so far is
    in it, and none was read twice. *)
Record files_sound {image : Type} (Jimp_read : Z -> result image)
  (st : Atlas.files image) : Prop := {
  cache_read : forall i atlas,
    Atlas.atlasCache st !! i = Some atlas -> Jimp_read i = Returns atlas;
  read_cached : forall i atlas,
    i ∈ Atlas.reads st -> Jimp_read i = Returns atlas ->
    Atlas.atlasCache st !! i = Some atlas;
  read_once : NoDup (List.filter (was_read Jimp_read) (Atlas.reads st))
}.

(** The first block id of every palette texture gives a symbol
    [String.fromCodePoint] accepts. *)
Definition first_ids_in_range (texturePalette : list textureInfo) : Prop :=
  forall texture first others,
    texture ∈ texturePalette ->
    blockIds texture = Some (first :: others) ->
    code_point (UNICODE_PRIVATE_USE_START + first).

(* ================================================================== *)
(** * Part XII: facts about the built-ins *)
(* ================================================================== *)

Module JsFacts.

(** ** The order of the numbers

    [<] and [<=] on binary64 are specified by [SFcompare] on the
    sign/mantissa/exponent form; the facts below are read off it. *)

Ltac sf_fold_compare :=
  repeat match goal with
  | H : context [PosDef.Pos.compare_cont Eq ?a ?b] |- _ =>
      change (PosDef.Pos.compare_cont Eq a b) with (Pos.compare a b) in H
  | |- context [PosDef.Pos.compare_cont Eq ?a ?b] =>
      change (PosDef.Pos.compare_cont Eq a b) with (Pos.compare a b)
  end.

Ltac sf_cases :=
  repeat match goal with s : bool |- _ => destruct s end;
  simpl in *; sf_fold_compare; try congruence;
  repeat match goal with
  | H : context [Z.compare ?a ?b] |- _ =>
      destruct (Z.compare_spec a b); simpl in H; try congruence
  | |- context [Z.compare ?a ?b] =>
      destruct (Z.compare_spec a b); simpl; try congruence
  | H : context [Pos.compare ?a ?b] |- _ =>
      destruct (Pos.compare_spec a b); simpl in H; try congruence
  | |- context [Pos.compare ?a ?b] =>
      destruct (Pos.compare_spec a b); simpl; try congruence
  end;
  simpl in *; try congruence; try lia.

Ltac sf_order :=
  unfold SFltb, SFleb;
  repeat match goal with
  | x : spec_float |- _ => destruct x as [?|?| |? ? ?]
  end;
  simpl; intros; try congruence; sf_cases.

Lemma SFltb_SFleb_trans (a b c : spec_float) :
  SFltb a b = true -> SFleb b c = true -> SFltb a c = true.
Proof. revert a b c. intros a b c. sf_order. Qed.

Lemma SFleb_SFltb_trans (a b c : spec_float) :
  SFleb a b = true -> SFltb b c = true -> SFltb a c = true.
Proof. sf_order. Qed.

Lemma SFltb_SFleb (a b : spec_float) : SFltb a b = true -> SFleb a b = true.
Proof. sf_order. Qed.

Lemma SFltb_false_SFleb (a b : spec_float) :
  SFltb a (S754_infinity false) = true ->
  SFltb b (S754_infinity false) = true ->
  SFltb a b = false -> SFleb b a = true.
Proof. sf_order. Qed.

Lemma SFltb_asym (a b : spec_float) :
  SFltb a b = true -> SFltb b a = false.
Proof. sf_order. Qed.

Lemma SFltb_irrefl (a : spec_float) : SFltb a a = false.
Proof.
  unfold SFltb. destruct a as [s|s| |s m e]; simpl; try reflexivity.
  - destruct s; reflexivity.
  - destruct s; rewrite Z.compare_refl;
      change (PosDef.Pos.compare_cont Eq m m) with (Pos.compare m m);
      rewrite Pos.compare_refl; reflexivity.
Qed.

Lemma SFleb_SFltb_false (a b : spec_float) :
  SFleb a b = true -> SFltb b a = false.
Proof. sf_order. Qed.

Lemma SFleb_refl (a : spec_float) :
  SFltb a (S754_infinity false) = true -> SFleb a a = true.
Proof.
  unfold SFltb, SFleb. destruct a as [s|s| |s m e]; simpl; try congruence.
  - destruct s; congruence.
  - intros _. destruct s; rewrite Z.compare_refl;
      change (PosDef.Pos.compare_cont Eq m m) with (Pos.compare m m);
      rewrite Pos.compare_refl; reflexivity.
Qed.

Lemma Prim2SF_Infinity : Prim2SF Infinity = S754_infinity false.
Proof. reflexivity. Qed.

Lemma lt_spec (x y : float) : lt x y = SFltb (Prim2SF x) (Prim2SF y).
Proof. apply FloatAxioms.ltb_spec. Qed.

Lemma le_spec (x y : float) : le x y = SFleb (Prim2SF x) (Prim2SF y).
Proof. apply FloatAxioms.leb_spec. Qed.

Lemma lt_le_trans (a b c : float) :
  lt a b = true -> le b c = true -> lt a c = true.
Proof. rewrite !lt_spec, le_spec. apply SFltb_SFleb_trans. Qed.

Lemma le_lt_trans (a b c : float) :
  le a b = true -> lt b c = true -> lt a c = true.
Proof. rewrite !lt_spec, le_spec. apply SFleb_SFltb_trans. Qed.

Lemma lt_le (a b : float) : lt a b = true -> le a b = true.
Proof. rewrite lt_spec, le_spec. apply SFltb_SFleb. Qed.

Lemma not_lt_le (a b : float) :
  lt a Infinity = true -> lt b Infinity = true ->
  lt a b = false -> le b a = true.
Proof.
  rewrite !lt_spec, le_spec, Prim2SF_Infinity. apply SFltb_false_SFleb.
Qed.

Lemma lt_asym (a b : float) : lt a b = true -> lt b a = false.
Proof. rewrite !lt_spec. apply SFltb_asym. Qed.

Lemma lt_irrefl (a : float) : lt a a = false.
Proof. rewrite lt_spec. apply SFltb_irrefl. Qed.

Lemma le_not_lt (a b : float) : le a b = true -> lt b a = false.
Proof. rewrite lt_spec, le_spec. apply SFleb_SFltb_false. Qed.

Lemma le_refl (a : float) : lt a Infinity = true -> le a a = true.
Proof. rewrite lt_spec, le_spec, Prim2SF_Infinity. apply SFleb_refl. Qed.

(** ** The built-ins on a few arguments *)

Example Math_round_examples :
  Math_round 2.5 = 3%float /\ Math_round (-2.5) = (-2)%float /\
  Math_round 0.5 = 1%float /\ Math_round (-0.5) = (-0)%float /\
  Math_round 0x1.fffffffffffffp-2 = 0%float /\
  Math_round 0.25 = 0%float /\ Math_round (-0.25) = (-0)%float /\
  Math_round 255 = 255%float /\ Math_round NaN = NaN /\
  Math_round Infinity = Infinity.
Proof. repeat split; vm_compute; reflexivity. Qed.

Example parseInt_examples :
  parseInt "ff" 16 = 255%float /\ parseInt "0A" 16 = 10%float /\
  parseInt "1z" 16 = 1%float /\ parseInt "0x" 16 = NaN /\
  parseInt "zz" 16 = NaN /\ parseInt "" 16 = NaN /\
  parseInt_Z "1227" 10 = Some 1227 /\ parseInt_Z " 42" 10 = Some 42 /\
  parseInt_Z "-7" 10 = Some (-7) /\ parseInt_Z "12ab" 10 = Some 12 /\
  parseInt_Z "0x10" 10 = Some 0 /\ parseInt_Z "abc" 10 = None.
Proof. repeat split; vm_compute; reflexivity. Qed.

Example includes_examples :
  includes "Stone Slab" "Slab" = true /\ includes "Slate" "Slab" = false /\
  includes "slab" "Slab" = false /\ includes "" "Slab" = false /\
  includes "TopFace" "Top" = true.
Proof. repeat split; reflexivity. Qed.

End JsFacts.

(* ================================================================== *)
(** * Part XIII: the colour matcher *)
(* ================================================================== *)

Module MatcherFacts.
Import JsFacts.

Lemma scanned_step (px : rgb) (seen : list candidate)
  (st : option candidate * float) (c : candidate) :
  scanned px seen st -> measurable px c ->
  scanned px (seen ++ [c]) (nearest_step px st c).
Proof.
  intros Hinv Hc. unfold nearest_step. fold (distance_to px c).
  destruct Hinv as [|before best after Hbest Hbefore Hafter]; simpl.
  - rewrite Hc. apply (scanned_best px [] c []); [exact Hc | |];
      intros x Hx; apply elem_of_nil in Hx; contradiction.
  - destruct (lt (distance_to px c) (distance_to px best)) eqn:Hlt.
    + apply (scanned_best px (before ++ best :: after) c []);
        [exact Hc | | intros x Hx; apply elem_of_nil in Hx; contradiction].
      intros x Hx. apply elem_of_app in Hx as [Hx|Hx].
      * eapply lt_le_trans; [exact Hlt|]. apply lt_le, Hbefore, Hx.
      * apply elem_of_cons in Hx as [->|Hx]; [exact Hlt|].
        eapply lt_le_trans; [exact Hlt|]. apply Hafter, Hx.
    + rewrite <- app_assoc. simpl.
      apply scanned_best; [exact Hbest | exact Hbefore |].
      intros x Hx. apply elem_of_app in Hx as [Hx|Hx]; [apply Hafter, Hx|].
      apply list_elem_of_singleton in Hx as ->.
      apply not_lt_le; assumption.
Qed.

Lemma scanned_fold (px : rgb) (rest seen : list candidate)
  (st : option candidate * float) :
  scanned px seen st -> Forall (measurable px) rest ->
  scanned px (seen ++ rest) (fold_left (nearest_step px) rest st).
Proof.
  revert seen st. induction rest as [|c rest IH]; intros seen st Hinv Hall.
  - rewrite app_nil_r. exact Hinv.
  - inversion Hall as [|? ? Hc Hrest]; subst. simpl.
    replace (seen ++ c :: rest) with ((seen ++ [c]) ++ rest)
      by (rewrite <- app_assoc; reflexivity).
    apply IH; [apply scanned_step; assumption | exact Hrest].
Qed.

Lemma scanned_nearest (px : rgb) (candidates : list candidate) :
  Forall (measurable px) candidates ->
  scanned px candidates (nearest px candidates).
Proof. intros Hall. apply (scanned_fold px candidates []); [constructor | exact Hall]. Qed.

(** With candidates to scan, all of them measurable, the scan ends on
    the first of the nearest ones. *)
Lemma nearest_spec (px : rgb) (candidates : list candidate) :
  candidates <> [] -> Forall (measurable px) candidates ->
  exists before best after,
    candidates = before ++ best :: after /\
    nearest px candidates = (Some best, distance_to px best) /\
    (forall c, c ∈ candidates ->
       le (distance_to px best) (distance_to px c) = true) /\
    (forall c, c ∈ before ->
       lt (distance_to px best) (distance_to px c) = true).
Proof.
  intros Hne Hall. pose proof (scanned_nearest px candidates Hall) as Hinv.
  inversion Hinv as [Hnil|before best after Hbest Hbefore Hafter Hcands Hst].
  - congruence.
  - exists before, best, after. repeat split; try reflexivity.
    + intros c Hc. apply elem_of_app in Hc as [Hc|Hc].
      * apply lt_le, Hbefore, Hc.
      * apply elem_of_cons in Hc as [->|Hc]; [apply le_refl, Hbest|].
        apply Hafter, Hc.
    + exact Hbefore.
Qed.

(** Whatever the scan holds is one of the candidates. *)
Lemma nearest_step_elem (px : rgb) (rest seen : list candidate)
  (st : option candidate * float) (best : candidate) :
  (forall c, fst st = Some c -> c ∈ seen) ->
  fst (fold_left (nearest_step px) rest st) = Some best ->
  best ∈ seen ++ rest.
Proof.
  revert seen st. induction rest as [|c rest IH]; intros seen st Hst Hbest.
  - rewrite app_nil_r. apply Hst, Hbest.
  - simpl in Hbest.
    replace (seen ++ c :: rest) with ((seen ++ [c]) ++ rest)
      by (rewrite <- app_assoc; reflexivity).
    apply (IH (seen ++ [c]) (nearest_step px st c)); [|exact Hbest].
    intros x Hx. unfold nearest_step in Hx.
    destruct (lt _ _); simpl in Hx; apply elem_of_app.
    + right. injection Hx as <-. apply list_elem_of_singleton. reflexivity.
    + left. apply Hst, Hx.
Qed.

Lemma nearest_elem (px : rgb) (candidates : list candidate)
  (best : candidate) :
  fst (nearest px candidates) = Some best -> best ∈ candidates.
Proof.
  intros H. apply (nearest_step_elem px candidates [] (None, Infinity));
    [simpl; congruence | exact H].
Qed.

Lemma find_first {A : Type} (f : A -> bool) (before : list A) (x : A)
  (after : list A) :
  f x = true -> (forall y, y ∈ before -> f y = false) ->
  find f (before ++ x :: after) = Some x.
Proof.
  intros Hx. induction before as [|y before IH]; intros Hbefore; simpl.
  - rewrite Hx. reflexivity.
  - rewrite (Hbefore y) by (apply elem_of_cons; left; reflexivity).
    apply IH. intros z Hz. apply Hbefore, elem_of_cons. right. exact Hz.
Qed.

Lemma find_absent {A : Type} (f : A -> bool) (l : list A) :
  (forall y, y ∈ l -> f y = false) -> find f l = None.
Proof.
  induction l as [|y l IH]; intros Hl; simpl; [reflexivity|].
  rewrite (Hl y) by (apply elem_of_cons; left; reflexivity).
  apply IH. intros z Hz. apply Hl, elem_of_cons. right. exact Hz.
Qed.

Lemma find_elem {A : Type} (f : A -> bool) (l : list A) (x : A) :
  find f l = Some x -> x ∈ l.
Proof.
  intros H. apply find_some in H as [H _]. apply list_elem_of_In. exact H.
Qed.

End MatcherFacts.

Module MatcherSpec.
Import JsFacts MatcherFacts.

(** Static matching, in the distances the scan compares: over a
    non-empty list of candidates, each at a measurable distance from the
    pixel colour, [findBestMatch] of the still-image script returns the
    texture of a candidate [best] whose distance to the pixel no
    candidate undercuts, and every candidate listed before [best] is
    strictly farther: among the nearest candidates the first in list
    order wins. *)
Theorem findBestMatch_static_nearest_first (pixelColor : rgb)
  (candidates : list candidate) :
  candidates <> [] ->
  Forall (measurable pixelColor) candidates ->
  exists before best after,
    candidates = before ++ best :: after /\
    Still.findBestMatch pixelColor candidates = Some (textureInfo_of best) /\
    (forall c, c ∈ candidates ->
       le (distance_to pixelColor best) (distance_to pixelColor c) = true) /\
    (forall c, c ∈ before ->
       lt (distance_to pixelColor best) (distance_to pixelColor c) = true).
Proof.
  intros Hne Hall.
  destruct (nearest_spec pixelColor candidates Hne Hall)
    as (before & best & after & Hsplit & Hscan & Hmin & Hfirst).
  exists before, best, after. repeat split; try assumption.
  unfold Still.findBestMatch. rewrite Hscan. reflexivity.
Qed.

Lemma findBestMatch_static_nearest_first_witness :
  exists before best after,
    [Sample.c_crimson; Sample.c_red; Sample.c_blue]
      = before ++ best :: after /\
    Still.findBestMatch (Rgb 250 0 0)
      [Sample.c_crimson; Sample.c_red; Sample.c_blue]
      = Some (textureInfo_of best) /\
    (forall c, c ∈ [Sample.c_crimson; Sample.c_red; Sample.c_blue] ->
       le (distance_to (Rgb 250 0 0) best) (distance_to (Rgb 250 0 0) c)
         = true) /\
    (forall c, c ∈ before ->
       lt (distance_to (Rgb 250 0 0) best) (distance_to (Rgb 250 0 0) c)
         = true).
Proof.
  apply (findBestMatch_static_nearest_first (Rgb 250 0 0)
           [Sample.c_crimson; Sample.c_red; Sample.c_blue]).
  - discriminate.
  - repeat (constructor; [vm_compute; reflexivity|]). constructor.
Defined.

(** Two candidates at the same distance: the one listed first is
    returned, in either order. *)
Example findBestMatch_static_tie :
  Still.findBestMatch (Rgb 255 0 0)
    [Sample.c_blue; Candidate Sample.crimson (Rgb 255 0 0); Sample.c_red]
    = Some Sample.crimson /\
  Still.findBestMatch (Rgb 255 0 0)
    [Sample.c_blue; Sample.c_red; Candidate Sample.crimson (Rgb 255 0 0)]
    = Some Sample.red.
Proof. split; vm_compute; reflexivity. Qed.

(** Sequence matching with hysteresis, in the distances the scan
    compares.  Over a non-empty list of measurable candidates the scan
    finds the global nearest candidate [B].  [findBestMatch] of the GIF script returns [B]'s texture when the
    previous choice is [null] (or was never written), when it is [B]'s own
    id, and when no candidate carries it.  When the previous id [P] is not
    [B]'s and [Pc] is the first candidate carrying [P], the function
    returns [B]'s texture exactly when
    [distance(pixel, Pc) - distance(pixel, B)] exceeds
    [textureSwitchThreshold], and [Pc]'s texture otherwise. *)
Theorem findBestMatch_hysteresis (CONFIG : config) (pixelColor : rgb)
  (candidates : list candidate) (previousTextureId : choice) :
  candidates <> [] ->
  Forall (measurable pixelColor) candidates ->
  exists B,
    B ∈ candidates /\
    Still.findBestMatch pixelColor candidates = Some (textureInfo_of B) /\
    (forall c, c ∈ candidates ->
       le (distance_to pixelColor B) (distance_to pixelColor c) = true) /\
    (previousTextureId = Null \/ previousTextureId = Undefined ->
       Gif.findBestMatch CONFIG pixelColor candidates previousTextureId
         = Some (textureInfo_of B)) /\
    (forall P, previousTextureId = TexId P -> has_id P B ->
       Gif.findBestMatch CONFIG pixelColor candidates previousTextureId
         = Some (textureInfo_of B)) /\
    (forall P, previousTextureId = TexId P ->
       (forall c, c ∈ candidates -> ~ has_id P c) ->
       Gif.findBestMatch CONFIG pixelColor candidates previousTextureId
         = Some (textureInfo_of B)) /\
    (forall P before Pc after,
       previousTextureId = TexId P -> ~ has_id P B ->
       candidates = before ++ Pc :: after -> has_id P Pc ->
       (forall c, c ∈ before -> ~ has_id P c) ->
       let improvement :=
         (distance_to pixelColor Pc - distance_to pixelColor B)%float in
       (Gif.findBestMatch CONFIG pixelColor candidates previousTextureId
          = Some (textureInfo_of B)
        <-> gt improvement (textureSwitchThreshold CONFIG) = true) /\
       (gt improvement (textureSwitchThreshold CONFIG) = false ->
        Gif.findBestMatch CONFIG pixelColor candidates previousTextureId
          = Some (textureInfo_of Pc))).
Proof.
  intros Hne Hall.
  destruct (nearest_spec pixelColor candidates Hne Hall)
    as (before0 & B & after0 & Hsplit & Hscan & Hmin & _).
  exists B.
  assert (HB : B ∈ candidates).
  { rewrite Hsplit. apply elem_of_app. right. apply elem_of_cons. left.
    reflexivity. }
  split; [exact HB|].
  split; [unfold Still.findBestMatch; rewrite Hscan; reflexivity|].
  split; [exact Hmin|].
  unfold Gif.findBestMatch. rewrite Hscan. clear Hsplit.
  split; [|split; [|split]].
  - intros [->| ->]; [reflexivity|]. simpl.
    rewrite find_absent; [reflexivity|]. intros; reflexivity.
  - intros P -> HP. unfold has_id in HP. simpl. rewrite HP, Z.eqb_refl.
    reflexivity.
  - intros P -> Habsent. simpl.
    destruct (textureId (textureInfo_of B) =? P); [reflexivity|].
    rewrite find_absent; [reflexivity|].
    intros c Hc. apply Z.eqb_neq. apply Habsent, Hc.
  - intros P before Pc after -> HBP Hcands HPc Hbefore.
    unfold has_id in *. simpl.
    destruct (Z.eqb_spec (textureId (textureInfo_of B)) P) as [|_];
      [contradiction|].
    rewrite Hcands, find_first;
      [| apply Z.eqb_eq; exact HPc
       | intros c Hc; apply Z.eqb_neq, Hbefore, Hc].
    fold (distance_to pixelColor Pc).
    destruct (gt _ (textureSwitchThreshold CONFIG)).
    + split; [split; reflexivity | discriminate].
    + split; [|reflexivity]. split; [|discriminate].
      intros Heq. exfalso. apply HBP.
      injection Heq as Heq. rewrite <- Heq. exact HPc.
Qed.

Lemma findBestMatch_hysteresis_witness :
  exists B,
    B ∈ [Sample.c_crimson; Sample.c_red; Sample.c_blue] /\
    Still.findBestMatch (Rgb 250 0 0)
      [Sample.c_crimson; Sample.c_red; Sample.c_blue]
      = Some (textureInfo_of B) /\
    Gif.findBestMatch CONFIG_gif (Rgb 250 0 0)
      [Sample.c_crimson; Sample.c_red; Sample.c_blue] (TexId 4)
      = Some Sample.crimson.
Proof.
  destruct (findBestMatch_hysteresis CONFIG_gif (Rgb 250 0 0)
              [Sample.c_crimson; Sample.c_red; Sample.c_blue] (TexId 4))
    as (B & HB & Hstatic & _).
  - discriminate.
  - repeat (constructor; [vm_compute; reflexivity|]). constructor.
  - exists B. split; [exact HB|]. split; [exact Hstatic|].
    vm_compute. reflexivity.
Defined.

(** The two cases the specification works out, with the threshold 15 of
    the shipped configuration: an improvement of 2 keeps the previous
    texture, an improvement of 17 switches to the nearest one. *)
Example hysteresis_keeps_previous :
  Gif.findBestMatch CONFIG_gif (Rgb 0 0 0)
    [Candidate Sample.red (Rgb 10 0 0); Candidate Sample.blue (Rgb 8 0 0)]
    (TexId 0) = Some Sample.red.
Proof. vm_compute. reflexivity. Qed.

Example hysteresis_switches :
  Gif.findBestMatch CONFIG_gif (Rgb 0 0 0)
    [Candidate Sample.red (Rgb 20 0 0); Candidate Sample.blue (Rgb 3 0 0)]
    (TexId 0) = Some Sample.blue.
Proof. vm_compute. reflexivity. Qed.

End MatcherSpec.

(* ================================================================== *)
(** * Part XIV: the choices of a frame *)
(* ================================================================== *)

Module FrameSpec.
Import MatcherFacts.

Lemma findBestMatch_static_elem (pixelColor : rgb)
  (candidates : list candidate) (t : textureInfo) :
  Still.findBestMatch pixelColor candidates = Some t ->
  exists c, c ∈ candidates /\ textureInfo_of c = t.
Proof.
  unfold Still.findBestMatch.
  destruct (fst (nearest pixelColor candidates)) as [best|] eqn:Hbest;
    [|discriminate].
  intros [= <-]. exists best. split; [|reflexivity].
  apply (nearest_elem pixelColor), Hbest.
Qed.

Lemma findBestMatch_gif_elem (CONFIG : config) (pixelColor : rgb)
  (candidates : list candidate) (previousTextureId : choice)
  (t : textureInfo) :
  Gif.findBestMatch CONFIG pixelColor candidates previousTextureId = Some t ->
  exists c, c ∈ candidates /\ textureInfo_of c = t.
Proof.
  unfold Gif.findBestMatch.
  destruct (nearest pixelColor candidates) as [best minDistance] eqn:Hscan.
  destruct best as [best|]; [|discriminate].
  assert (Hbest : best ∈ candidates).
  { apply (nearest_elem pixelColor). rewrite Hscan. reflexivity. }
  assert (Hpick : forall id : choice,
    (if Gif.same_id (textureId (textureInfo_of best)) id
     then Some (textureInfo_of best)
     else match find (fun c => Gif.same_id (textureId (textureInfo_of c)) id)
                  candidates with
          | Some previousCandidate =>
              if gt (colorDistance pixelColor (perceivedColor previousCandidate)
                     - minDistance)%float (textureSwitchThreshold CONFIG)
              then Some (textureInfo_of best)
              else Some (textureInfo_of previousCandidate)
          | None => Some (textureInfo_of best)
          end) = Some t ->
    exists c, c ∈ candidates /\ textureInfo_of c = t).
  { intros id. destruct (Gif.same_id _ id).
    - intros [= <-]. eauto.
    - destruct (find _ candidates) as [previous|] eqn:Hfind.
      + apply find_elem in Hfind. destruct (gt _ _); intros [= <-]; eauto.
      + intros [= <-]. eauto. }
  destruct previousTextureId as [| |P].
  - intros [= <-]. eauto.
  - apply Hpick.
  - apply Hpick.
Qed.

Lemma process_row_chosen (CONFIG : config) (candidates : list candidate)
  (previousFrameChoices : option (list (list choice))) (y : nat)
  (pixels : list rgb) :
  forall (x : nat) (row : list choice),
    Gif.process_row CONFIG candidates previousFrameChoices y x pixels
      = Returns row ->
    Forall (chosen_from candidates) row.
Proof.
  induction pixels as [|pixel pixels IH]; intros x row; simpl.
  - intros [= <-]. constructor.
  - destruct (Gif.previous_choice previousFrameChoices y x)
      as [previousChoiceId|]; simpl; [|discriminate].
    destruct (Gif.process_row CONFIG candidates previousFrameChoices y
                (S x) pixels) as [cells|] eqn:Hcells; simpl; [|discriminate].
    intros [= <-]. constructor; [|apply (IH (S x)), Hcells].
    destruct (Gif.findBestMatch CONFIG pixel candidates previousChoiceId)
      as [t|] eqn:Hmatch; [|left; reflexivity].
    right. apply findBestMatch_gif_elem in Hmatch as (c & Hc & <-).
    exists c. split; [exact Hc | reflexivity].
Qed.

Lemma process_rows_chosen (CONFIG : config) (candidates : list candidate)
  (previousFrameChoices : option (list (list choice)))
  (rows : list (list rgb)) :
  forall (y : nat) (grid : list (list choice)),
    Gif.process_rows CONFIG candidates previousFrameChoices y rows
      = Returns grid ->
    Forall (Forall (chosen_from candidates)) grid.
Proof.
  induction rows as [|pixels rows IH]; intros y grid; simpl.
  - intros [= <-]. constructor.
  - destruct (Gif.process_row CONFIG candidates previousFrameChoices y 0
                pixels) as [row|] eqn:Hrow; simpl; [|discriminate].
    destruct (Gif.process_rows CONFIG candidates previousFrameChoices (S y)
                rows) as [rest|] eqn:Hrest; simpl; [|discriminate].
    intros [= <-]. constructor.
    + apply process_row_chosen in Hrow. exact Hrow.
    + apply (IH (S y)), Hrest.
Qed.

(** Without a previous frame nothing is read that could be missing: the
    frame is processed to the end, and the grid has the shape of the
    blueprint. *)
Lemma process_row_first_frame (CONFIG : config) (candidates : list candidate)
  (y : nat) (pixels : list rgb) :
  forall x : nat,
    exists row,
      Gif.process_row CONFIG candidates None y x pixels = Returns row /\
      length row = length pixels.
Proof.
  induction pixels as [|pixel pixels IH]; intros x; simpl.
  - exists []. split; reflexivity.
  - destruct (IH (S x)) as (cells & -> & Hlen). simpl.
    eexists. split; [reflexivity|]. simpl. rewrite Hlen. reflexivity.
Qed.

Lemma processImageFrame_first_frame (CONFIG : config)
  (blueprint : list (list rgb)) (candidates : list candidate) :
  exists grid,
    Gif.processImageFrame CONFIG blueprint candidates None = Returns grid /\
    length <$> grid = length <$> blueprint.
Proof.
  unfold Gif.processImageFrame. generalize 0%nat.
  induction blueprint as [|pixels rows IH]; intros y; simpl.
  - exists []. split; reflexivity.
  - destruct (process_row_first_frame CONFIG candidates y pixels 0%nat)
      as (row & -> & Hlen).
    destruct (IH (S y)) as (rest & -> & Hrest). simpl.
    eexists. split; [reflexivity|]. rewrite !fmap_cons, Hlen, Hrest.
    reflexivity.
Qed.

(** C9.  Every texture [findBestMatch] returns, in the still-image script
    and in the GIF script whatever the previous choice, is the
    [textureInfo] of one of the candidates; so every cell of the choices
    grid [processImageFrame] returns is [null] or the id of a candidate,
    whatever ids the previous frame's grid holds. *)
Theorem choices_among_candidates (CONFIG : config)
  (candidates : list candidate) :
  (forall pixelColor t,
     Still.findBestMatch pixelColor candidates = Some t ->
     exists c, c ∈ candidates /\ textureInfo_of c = t) /\
  (forall pixelColor previousTextureId t,
     Gif.findBestMatch CONFIG pixelColor candidates previousTextureId
       = Some t ->
     exists c, c ∈ candidates /\ textureInfo_of c = t) /\
  (forall blueprint previousFrameChoices currentFrameChoices,
     Gif.processImageFrame CONFIG blueprint candidates previousFrameChoices
       = Returns currentFrameChoices ->
     Forall (Forall (chosen_from candidates)) currentFrameChoices).
Proof.
  split; [|split].
  - intros pixelColor t. apply findBestMatch_static_elem.
  - intros pixelColor previousTextureId t. apply findBestMatch_gif_elem.
  - intros blueprint previousFrameChoices currentFrameChoices.
    apply process_rows_chosen.
Qed.

(** The previous frame chose texture 2 and texture 4, neither of which
    is a candidate of this run: the new grid holds candidates only. *)
Lemma choices_among_candidates_witness :
  Gif.processImageFrame CONFIG_gif [[Rgb 250 0 0; Rgb 0 0 250]]
    [Sample.c_red; Sample.c_blue] (Some [[TexId 2; TexId 4]])
    = Returns [[TexId 0; TexId 1]] /\
  Forall (Forall (chosen_from [Sample.c_red; Sample.c_blue]))
    [[TexId 0; TexId 1]].
Proof.
  split; [vm_compute; reflexivity|].
  apply (proj2 (proj2 (choices_among_candidates CONFIG_gif
                         [Sample.c_red; Sample.c_blue]))
           [[Rgb 250 0 0; Rgb 0 0 250]] (Some [[TexId 2; TexId 4]])).
  vm_compute. reflexivity.
Defined.

End FrameSpec.

(* ================================================================== *)
(** * Part XV: the blueprint encoder *)
(* ================================================================== *)

Module EncoderFacts.

Lemma fromCodePoint_code_point (n : Z) :
  code_point n -> String_fromCodePoint n = Returns n.
Proof.
  unfold code_point, String_fromCodePoint. intros [H0 H1].
  destruct (Z.leb_spec 0 n); [|lia].
  destruct (Z.leb_spec n 0x10FFFF); [|lia]. reflexivity.
Qed.

Lemma encode_row_spec (texturePalette : list textureInfo)
  (row : list choice) (xs : list nat) :
  forall stringBuilder,
    Forall (fun x => code_point (symbol_of texturePalette (row_get row x)))
      xs ->
    encode_row texturePalette row xs stringBuilder
      = Returns (stringBuilder ++
                 ((fun x => symbol_of texturePalette (row_get row x)) <$> xs)).
Proof.
  induction xs as [|x xs IH]; intros stringBuilder Hall; simpl.
  - rewrite app_nil_r. reflexivity.
  - inversion Hall as [|? ? Hx Hxs]; subst.
    fold (symbol_of texturePalette (row_get row x)).
    rewrite (fromCodePoint_code_point _ Hx). simpl.
    rewrite (IH _ Hxs), <- app_assoc. reflexivity.
Qed.

Lemma encode_rows_spec (texturePalette : list textureInfo) (width : nat)
  (rows : list (list choice)) :
  forall stringBuilder,
    Forall (fun row =>
              Forall (fun c => code_point (symbol_of texturePalette c))
                (cells_read width row)) rows ->
    encode_rows texturePalette rows width stringBuilder
      = Returns (stringBuilder ++
                 concat ((fun row => symbol_of texturePalette
                                       <$> cells_read width row) <$> rows)).
Proof.
  induction rows as [|row rows IH]; intros stringBuilder Hall; simpl.
  - rewrite app_nil_r. reflexivity.
  - inversion Hall as [|? ? Hrow Hrows]; subst.
    rewrite encode_row_spec.
    + simpl. rewrite (IH _ Hrows), <- app_assoc. unfold cells_read.
      rewrite <- list_fmap_compose. reflexivity.
    + unfold cells_read in Hrow. rewrite Forall_fmap in Hrow. exact Hrow.
Qed.




Lemma unresolved_blockId (texturePalette : list textureInfo)
  (cell : choice) :
  unresolved texturePalette cell -> cell_blockId texturePalette cell = 0.
Proof.
  destruct cell as [| |id]; simpl; try contradiction.
  destruct (array_get texturePalette id) as [texture|]; [|reflexivity].
  intros [-> | ->]; reflexivity.
Qed.

(** The [x]-th entry of the [y]-th of lists that are all [n] long. *)
Lemma lookup_concat_uniform {A : Type} (n : nat) (ls : list (list A)) :
  Forall (fun l => length l = n) ls ->
  forall (y x : nat) (l : list A),
    ls !! y = Some l -> (x < n)%nat ->
    concat ls !! (y * n + x)%nat = l !! x.
Proof.
  induction 1 as [|l0 ls Hl0 Hls IH]; intros y x l Hy Hx.
  - rewrite lookup_nil in Hy. discriminate.
  - destruct y as [|y]; simpl in *.
    + injection Hy as <-. apply lookup_app_l. lia.
    + rewrite lookup_app_r by lia.
      replace (n + y * n + x - length l0)%nat with (y * n + x)%nat by lia.
      apply IH; assumption.
Qed.

End EncoderFacts.

Module EncoderSpec.
Import EncoderFacts.

(** An empty grid: the function returns before it builds or writes
    anything. *)
Lemma generateBlueprintFiles_empty (texturePalette : list textureInfo) :
  generateBlueprintFiles [] texturePalette = Returns None.
Proof. reflexivity. Qed.





(** C10.  The encoder on choices the palette cannot resolve.  Take a
    non-empty grid in which every cell the loops read is either
    unresolved (a stored id without palette entry, or whose entry has no
    or an empty [blockIds]) or has a symbol that is a code point.  Then
    the encoder does not throw, and at the place of every unresolved cell
    it emits the symbol of block id 0, the one it emits for [null]. *)
Theorem unresolved_cells_encode_zero (row0 : list choice)
  (rows : list (list choice)) (texturePalette : list textureInfo) :
  Forall (fun row =>
            Forall (fun c => unresolved texturePalette c \/
                             code_point (symbol_of texturePalette c))
              (cells_read (length row0) row)) (row0 :: rows) ->
  exists symbols,
    generateBlueprintFiles (row0 :: rows) texturePalette
      = Returns (Some (Blueprint symbols (length row0)
                         (length (row0 :: rows)))) /\
    forall (y x : nat) (row : list choice),
      (row0 :: rows) !! y = Some row -> (x < length row0)%nat ->
      unresolved texturePalette (row_get row x) ->
      symbols !! (y * length row0 + x)%nat
        = Some (symbol_of texturePalette Null).
Proof.
  intros Hcells. set (w := length row0) in *.
  assert (Hok : Forall (fun row =>
            Forall (fun c => code_point (symbol_of texturePalette c))
              (cells_read w row)) (row0 :: rows)).
  { eapply Forall_impl; [exact Hcells|]. intros row Hrow.
    eapply Forall_impl; [exact Hrow|]. intros c [Hc|Hc]; [|exact Hc].
    unfold symbol_of. rewrite (unresolved_blockId _ _ Hc).
    unfold code_point, UNICODE_PRIVATE_USE_START. lia. }
  eexists. split.
  - unfold generateBlueprintFiles. fold w.
    rewrite (encode_rows_spec _ _ _ [] Hok). reflexivity.
  - intros y x row Hy Hx Hc. rewrite app_nil_l.
    set (encoded := fun row1 : list choice =>
                      symbol_of texturePalette <$> cells_read w row1).
    assert (Hlen : Forall (fun l => length l = w) (encoded <$> row0 :: rows)).
    { apply Forall_fmap, Forall_forall. intros l _. simpl.
      unfold encoded, cells_read. rewrite !length_fmap, length_seq.
      reflexivity. }
    assert (Hrow : (encoded <$> row0 :: rows) !! y = Some (encoded row)).
    { rewrite list_lookup_fmap, Hy. reflexivity. }
    rewrite (lookup_concat_uniform w _ Hlen y x _ Hrow Hx).
    unfold encoded, cells_read. rewrite !list_lookup_fmap.
    rewrite (proj2 (lookup_seq 0 w x x)) by (split; [reflexivity | exact Hx]).
    simpl. unfold symbol_of. rewrite (unresolved_blockId _ _ Hc).
    reflexivity.
Qed.

(** Texture 9 has no palette entry, texture 3 has an empty [blockIds],
    texture 4 has none; the second row is shorter than the first. *)
Lemma unresolved_cells_encode_zero_witness :
  exists symbols,
    generateBlueprintFiles [[TexId 9; TexId 3]; [TexId 4]] Sample.palette
      = Returns (Some (Blueprint symbols 2 2)) /\
    forall (y x : nat) (row : list choice),
      [[TexId 9; TexId 3]; [TexId 4]] !! y = Some row -> (x < 2)%nat ->
      unresolved Sample.palette (row_get row x) ->
      symbols !! (y * 2 + x)%nat = Some 0xE000.
Proof.
  apply (unresolved_cells_encode_zero [TexId 9; TexId 3] [[TexId 4]]
           Sample.palette).
  cbv [cells_read fmap list_fmap seq length].
  repeat (apply List.Forall_cons); try apply List.Forall_nil;
    first [ solve [left; vm_compute; auto]
          | right; vm_compute; split; discriminate ].
Defined.

Example unresolved_cells_symbols :
  generateBlueprintFiles [[TexId 9; TexId 3]; [TexId 4]] Sample.palette
    = Returns (Some (Blueprint [0xE000; 0xE000; 0xE000; 0xE000] 2 2)).
Proof. vm_compute. reflexivity. Qed.

End EncoderSpec.

(* ================================================================== *)
(** * Part XVI: the candidate filter *)
(* ================================================================== *)

Module FilterFacts.
Import JsFacts.

(** One step of the loop appends the candidate of the texture, if it
    has one. *)
Lemma candidate_step_spec (CONFIG : config) (valid : gset Z)
  (candidates : list candidate) (texture : textureInfo) :
  candidate_step CONFIG valid candidates texture
    = candidates ++ option_list (candidate_of CONFIG valid texture).
Proof.
  unfold candidate_step, candidate_of, passes.
  destruct (bool_decide (textureId texture ∈ valid)); simpl;
    [|rewrite app_nil_r; reflexivity].
  destruct (match maxColorCount CONFIG with
            | Some m => m <? colorCount texture
            | None => false
            end) eqn:Hcount.
  { destruct (maxColorCount CONFIG); [|discriminate].
    rewrite Hcount. simpl. rewrite app_nil_r. reflexivity. }
  replace (match maxColorCount CONFIG with
           | Some m => negb (m <? colorCount texture)
           | None => true
           end) with true
    by (destruct (maxColorCount CONFIG); [rewrite Hcount|]; reflexivity).
  simpl.
  destruct (allowTransparency CONFIG), (hasTransparency texture); simpl;
    try (rewrite app_nil_r; reflexivity).
  all: destruct (maxVariance CONFIG) as [m|];
    [destruct (gt (calculateColorVariance texture) m); simpl;
       [rewrite app_nil_r; reflexivity|]|];
    destruct (calculatePerceivedColor texture (searchDepth CONFIG)); simpl;
    rewrite ?app_nil_r; reflexivity.
Qed.

Lemma candidate_fold_spec (CONFIG : config) (valid : gset Z)
  (texturePalette : list textureInfo) :
  forall candidates,
    fold_left (candidate_step CONFIG valid) texturePalette candidates
      = candidates ++ omap (candidate_of CONFIG valid) texturePalette.
Proof.
  induction texturePalette as [|texture rest IH]; intros candidates; simpl.
  - rewrite app_nil_r. reflexivity.
  - rewrite IH, candidate_step_spec, <- app_assoc. f_equal.
    destruct (candidate_of CONFIG valid texture); reflexivity.
Qed.

(** The loop computes the filter of the specification. *)
Lemma prepared_filtered (CONFIG : config) (faceIndex : gmap string (list Z))
  (texturePalette : list textureInfo) :
  prepared CONFIG faceIndex texturePalette
    = filtered CONFIG faceIndex texturePalette.
Proof. unfold prepared, filtered. apply candidate_fold_spec. Qed.

(** What [loadAndPrepareCandidates] does, by cases. *)
Lemma loadAndPrepareCandidates_cases (CONFIG : config)
  (textureData : textureData) :
  match face_index textureData !! faceDirection CONFIG with
  | None => exists e, loadAndPrepareCandidates CONFIG textureData = Throws e
  | Some faceIndex =>
      match prepared CONFIG faceIndex (texture_palette textureData) with
      | [] => exists e, loadAndPrepareCandidates CONFIG textureData = Throws e
      | c :: cs => loadAndPrepareCandidates CONFIG textureData
                     = Returns (c :: cs)
      end
  end.
Proof.
  unfold loadAndPrepareCandidates, prepared.
  destruct (face_index textureData !! faceDirection CONFIG) as [faceIndex|];
    [|eauto].
  destruct (fold_left _ (texture_palette textureData) []) as [|c cs];
    simpl; eauto.
Qed.

(** A texture kept under the tighter bounds is kept under the looser. *)
Lemma passes_tighter (CONFIG : config) (maxVariance' : option float)
  (maxColorCount' : option Z) (valid : gset Z) (texture : textureInfo) :
  tighter_variance maxVariance' (maxVariance CONFIG) ->
  tighter_count maxColorCount' (maxColorCount CONFIG) ->
  passes (with_bounds CONFIG maxVariance' maxColorCount') valid texture = true ->
  passes CONFIG valid texture = true.
Proof.
  unfold passes, with_bounds, tighter_variance, tighter_count. simpl.
  intros Hvariance Hcount.
  rewrite !andb_true_iff. intros (((Hvalid & Hc) & Ht) & Hv).
  repeat split; try assumption.
  - destruct (maxColorCount CONFIG) as [l|]; [|reflexivity].
    destruct maxColorCount' as [t|]; [|contradiction].
    apply negb_true_iff, Z.ltb_ge in Hc. apply negb_true_iff, Z.ltb_ge. lia.
  - destruct Hvariance as [->|Hvariance]; [exact Hv|].
    destruct (maxVariance CONFIG) as [l|]; [|reflexivity].
    destruct maxVariance' as [t|]; [|contradiction].
    apply negb_true_iff in Hv. apply negb_true_iff.
    destruct (gt (calculateColorVariance texture) l) eqn:Hgt; [|reflexivity].
    assert (Hlt : lt t (calculateColorVariance texture) = true)
      by (apply (le_lt_trans t l); [exact Hvariance | exact Hgt]).
    unfold lt, gt in *. congruence.
Qed.

Lemma candidate_of_tighter (CONFIG : config) (maxVariance' : option float)
  (maxColorCount' : option Z) (valid : gset Z) (texture : textureInfo)
  (c : candidate) :
  tighter_variance maxVariance' (maxVariance CONFIG) ->
  tighter_count maxColorCount' (maxColorCount CONFIG) ->
  candidate_of (with_bounds CONFIG maxVariance' maxColorCount') valid texture
    = Some c ->
  candidate_of CONFIG valid texture = Some c.
Proof.
  intros Hvariance Hcount. unfold candidate_of.
  destruct (passes (with_bounds CONFIG maxVariance' maxColorCount') valid
              texture) eqn:Hpasses; [|discriminate].
  rewrite (passes_tighter _ _ _ _ _ Hvariance Hcount Hpasses).
  trivial.
Qed.

Lemma omap_sublist {A B : Type} (f f' : A -> option B) (l : list A) :
  (forall x y, f' x = Some y -> f x = Some y) ->
  sublist (omap f' l) (omap f l).
Proof.
  intros Hf. induction l as [|x l IH]; simpl; [constructor|].
  destruct (f' x) as [y|] eqn:Hx.
  - rewrite (Hf x y Hx). constructor. exact IH.
  - destruct (f x); [constructor|]; exact IH.
Qed.

End FilterFacts.

Module FilterSpec.
Import FilterFacts.

(** C4.  [loadAndPrepareCandidates] throws exactly when the index has no
    entry for the requested face direction or the filter keeps no
    candidate; when it returns, it returns the filtered list itself, which
    is not empty: no other candidate is put in its place. *)
Theorem loadAndPrepareCandidates_fails_iff (CONFIG : config)
  (textureData : textureData) :
  ((exists e, loadAndPrepareCandidates CONFIG textureData = Throws e) <->
   (face_index textureData !! faceDirection CONFIG = None \/
    exists faceIndex,
      face_index textureData !! faceDirection CONFIG = Some faceIndex /\
      filtered CONFIG faceIndex (texture_palette textureData) = [])) /\
  (forall candidates,
     loadAndPrepareCandidates CONFIG textureData = Returns candidates ->
     candidates <> [] /\
     exists faceIndex,
       face_index textureData !! faceDirection CONFIG = Some faceIndex /\
       candidates = filtered CONFIG faceIndex (texture_palette textureData)).
Proof.
  pose proof (loadAndPrepareCandidates_cases CONFIG textureData) as Hcases.
  destruct (face_index textureData !! faceDirection CONFIG) as [faceIndex|].
  - rewrite prepared_filtered in Hcases.
    destruct (filtered CONFIG faceIndex (texture_palette textureData))
      as [|c cs] eqn:Hfiltered.
    + split.
      * split; [intros _; right; eauto | intros _; exact Hcases].
      * intros candidates Hreturns. destruct Hcases as [e He]. congruence.
    + split.
      * split.
        -- intros [e He]. congruence.
        -- intros [Hnone | (faceIndex' & Hsome & Hnil)]; [discriminate|].
           injection Hsome as <-. congruence.
      * intros candidates Hreturns. rewrite Hcases in Hreturns.
        injection Hreturns as <-. split; [discriminate|].
        exists faceIndex. split; [reflexivity|]. symmetry. exact Hfiltered.
  - split.
    + split; [intros _; left; reflexivity | intros _; exact Hcases].
    + intros candidates Hreturns. destruct Hcases as [e He]. congruence.
Qed.

(** The three outcomes on the sample index: the shipped still-image
    configuration keeps the plain textures; the GIF configuration asks for
    a face the index lacks; a variance bound below zero on the two-colour
    texture alone keeps nothing. *)
Example loadAndPrepareCandidates_returns :
  loadAndPrepareCandidates CONFIG_still Sample.index
    = Returns [Sample.c_red; Sample.c_blue; Sample.c_crimson].
Proof. vm_compute. reflexivity. Qed.

Example loadAndPrepareCandidates_no_face :
  loadAndPrepareCandidates CONFIG_gif Sample.index
    = Throws (Error "Face direction not found in index file.").
Proof. vm_compute. reflexivity. Qed.

Example loadAndPrepareCandidates_no_candidate :
  loadAndPrepareCandidates CONFIG_still
    (TextureData [Sample.dusk; Sample.glass] (face_index Sample.index))
    = Throws (Error "No candidate textures found with the specified filters.").
Proof. vm_compute. reflexivity. Qed.

(** C5.  The filter is monotonic in its numeric bounds.  With
    [maxVariance] and [maxColorCount] replaced by tighter values, all else
    equal, the candidates the loop collects are a sublist of those it
    collects under the original bounds, hence no more numerous; and when
    [loadAndPrepareCandidates] returns under the tighter bounds it returns
    under the original ones, a list that contains the tighter one. *)
Theorem candidate_filter_monotonic (CONFIG : config)
  (maxVariance' : option float) (maxColorCount' : option Z)
  (textureData : textureData) :
  tighter_variance maxVariance' (maxVariance CONFIG) ->
  tighter_count maxColorCount' (maxColorCount CONFIG) ->
  (forall faceIndex,
     sublist
       (prepared (with_bounds CONFIG maxVariance' maxColorCount') faceIndex
          (texture_palette textureData))
       (prepared CONFIG faceIndex (texture_palette textureData)) /\
     (length (prepared (with_bounds CONFIG maxVariance' maxColorCount')
                faceIndex (texture_palette textureData))
      <= length (prepared CONFIG faceIndex (texture_palette textureData)))%nat)
  /\
  (forall tight,
     loadAndPrepareCandidates (with_bounds CONFIG maxVariance' maxColorCount')
       textureData = Returns tight ->
     exists loose,
       loadAndPrepareCandidates CONFIG textureData = Returns loose /\
       sublist tight loose /\ (length tight <= length loose)%nat).
Proof.
  intros Hvariance Hcount.
  assert (Hsub : forall faceIndex,
    sublist
      (prepared (with_bounds CONFIG maxVariance' maxColorCount') faceIndex
         (texture_palette textureData))
      (prepared CONFIG faceIndex (texture_palette textureData))).
  { intros faceIndex. rewrite !prepared_filtered. unfold filtered.
    apply omap_sublist. intros texture c.
    apply candidate_of_tighter; assumption. }
  split.
  - intros faceIndex. split; [apply Hsub | apply sublist_length, Hsub].
  - intros tight Htight.
    pose proof (loadAndPrepareCandidates_cases
                  (with_bounds CONFIG maxVariance' maxColorCount')
                  textureData) as Hcases'.
    pose proof (loadAndPrepareCandidates_cases CONFIG textureData) as Hcases.
    simpl in Hcases'.
    destruct (face_index textureData !! faceDirection CONFIG)
      as [faceIndex|]; [|destruct Hcases' as [e He]; congruence].
    specialize (Hsub faceIndex).
    destruct (prepared (with_bounds CONFIG maxVariance' maxColorCount')
                faceIndex (texture_palette textureData)) as [|c' cs'];
      [destruct Hcases' as [e He]; congruence|].
    rewrite Hcases' in Htight. injection Htight as <-.
    destruct (prepared CONFIG faceIndex (texture_palette textureData))
      as [|c cs].
    + apply sublist_length in Hsub. simpl in Hsub. lia.
    + exists (c :: cs). split; [exact Hcases|].
      split; [exact Hsub | apply sublist_length, Hsub].
Qed.

(** The shipped still-image bounds (variance at most 20, any number of
    colours) tightened to variance at most 0 and a single colour. *)
Lemma candidate_filter_monotonic_witness :
  exists loose,
    loadAndPrepareCandidates CONFIG_still Sample.index = Returns loose /\
    sublist [Sample.c_red; Sample.c_blue; Sample.c_crimson] loose /\
    (3 <= length loose)%nat.
Proof.
  apply (proj2 (candidate_filter_monotonic CONFIG_still (Some 0%float)
                  (Some 1) Sample.index
                  (or_intror (eq_refl : le 0 20 = true)) I)).
  vm_compute. reflexivity.
Defined.

(** A bound that bites: with every colour count allowed and no variance
    bound the two-colour texture is a candidate; the shipped variance
    bound of 20 drops it. *)
Example candidate_filter_tightened :
  textureId <$> (textureInfo_of <$>
     prepared (with_bounds CONFIG_still None None)
       (default ∅ (face_index Sample.index !! "front"%string)) Sample.palette)
    = [0; 1; 2; 4] /\
  textureId <$> (textureInfo_of <$>
     prepared CONFIG_still
       (default ∅ (face_index Sample.index !! "front"%string)) Sample.palette)
    = [0; 1; 4].
Proof. split; vm_compute; reflexivity. Qed.

End FilterSpec.

(* ================================================================== *)
(** * Part XVII: perceived colour and variance *)
(* ================================================================== *)

Module ColorFacts.

Lemma perceived_fold (texture : textureInfo) (idxs : list nat) :
  forall t : totals,
    fold_left (perceived_step texture) idxs t
      = Totals
          (sum_from (totalR t)
             ((fun e => r (fst e) * snd e)%float <$> entries_at texture idxs))
          (sum_from (totalG t)
             ((fun e => g (fst e) * snd e)%float <$> entries_at texture idxs))
          (sum_from (totalB t)
             ((fun e => b (fst e) * snd e)%float <$> entries_at texture idxs))
          (sum_from (totalPixels t) (snd <$> entries_at texture idxs)).
Proof.
  induction idxs as [|i idxs IH]; intros t.
  - destruct t; reflexivity.
  - simpl fold_left. rewrite IH. unfold perceived_step, entries_at. simpl.
    destruct (hexToRgb (hex_at texture i)) as [color|]; reflexivity.
Qed.

Lemma variance_fold (texture : textureInfo) (meanColor : rgb)
  (idxs : list nat) :
  forall acc : float * float,
    fold_left (variance_step texture meanColor) idxs acc
      = (sum_from (fst acc)
           ((fun e => colorDistance (fst e) meanColor * snd e)%float
              <$> entries_at texture idxs),
         sum_from (snd acc) (snd <$> entries_at texture idxs)).
Proof.
  induction idxs as [|i idxs IH]; intros acc.
  - destruct acc; reflexivity.
  - simpl fold_left. rewrite IH. unfold variance_step, entries_at. simpl.
    destruct (hexToRgb (hex_at texture i)) as [color|]; reflexivity.
Qed.

End ColorFacts.

Module UniformFacts.

(** ** A histogram of one entry *)

Lemma perceived_single (texture : textureInfo) (hex : string) (count : Z)
  (depth : option nat) :
  colorHexes texture = [hex] -> colorPixelCounts texture = [count] ->
  match depth with Some d => (1 <= d)%nat | None => True end ->
  calculatePerceivedColor texture depth
    = match hexToRgb hex with
      | Some color =>
          let n := (0 + of_Z count)%float in
          if strict_eq n 0 then None
          else Some (Rgb (Math_round ((0 + r color * of_Z count) / n))
                         (Math_round ((0 + g color * of_Z count) / n))
                         (Math_round ((0 + b color * of_Z count) / n)))
      | None => None
      end.
Proof.
  intros Hhexes Hcounts Hdepth. unfold calculatePerceivedColor.
  rewrite Hhexes.
  replace (depth_limit depth (length [hex])) with 1%nat
    by (destruct depth as [d|]; simpl; [lia | reflexivity]).
  simpl fold_left. unfold perceived_step, hex_at, count_at.
  rewrite Hhexes, Hcounts. simpl nth. simpl lookup.
  destruct (hexToRgb hex) as [color|]; reflexivity.
Qed.

Lemma is_hex_digit_enumerated (c : ascii) :
  is_hex_digit c = existsb (Ascii.eqb c) hex_digits.
Proof. destruct c as [[] [] [] [] [] [] [] []]; reflexivity. Qed.

Lemma hex_digit_In (c : ascii) : is_hex_digit c = true -> In c hex_digits.
Proof.
  rewrite is_hex_digit_enumerated. intros H.
  apply existsb_exists in H as (c' & Hin & Heq).
  apply Ascii.eqb_eq in Heq. subst c'. exact Hin.
Qed.

Lemma pixel_count_In (count : Z) :
  1 <= count <= TEXTURE_SIZE * TEXTURE_SIZE -> In count pixel_counts.
Proof.
  intros Hcount. unfold pixel_counts. apply list_elem_of_In, list_elem_of_fmap.
  exists (Z.to_nat count). split; [lia|].
  apply elem_of_seq. unfold TEXTURE_SIZE in *. lia.
Qed.

(** Every pair of hex digits with every pixel count, and every pixel
    count, evaluated. *)
Lemma channels_evaluated :
  forallb (fun c1 =>
    forallb (fun c2 => forallb (channel_exact c1 c2) pixel_counts) hex_digits)
    hex_digits
  && forallb zero_average pixel_counts = true.
Proof. vm_compute. reflexivity. Qed.

Lemma channel_exact_true (c1 c2 : ascii) (count : Z) :
  is_hex_digit c1 = true -> is_hex_digit c2 = true ->
  1 <= count <= TEXTURE_SIZE * TEXTURE_SIZE ->
  channel_exact c1 c2 count = true.
Proof.
  intros H1 H2 Hcount.
  pose proof channels_evaluated as Hall.
  apply andb_true_iff in Hall as [Hall _].
  rewrite forallb_forall in Hall.
  specialize (Hall c1 (hex_digit_In c1 H1)).
  rewrite forallb_forall in Hall.
  specialize (Hall c2 (hex_digit_In c2 H2)).
  rewrite forallb_forall in Hall.
  exact (Hall count (pixel_count_In count Hcount)).
Qed.

Lemma zero_average_true (count : Z) :
  1 <= count <= TEXTURE_SIZE * TEXTURE_SIZE -> zero_average count = true.
Proof.
  intros Hcount. pose proof channels_evaluated as Hall.
  apply andb_true_iff in Hall as [_ Hall].
  rewrite forallb_forall in Hall.
  exact (Hall count (pixel_count_In count Hcount)).
Qed.

Lemma channel_mean (c1 c2 : ascii) (count : Z) :
  is_hex_digit c1 = true -> is_hex_digit c2 = true ->
  1 <= count <= TEXTURE_SIZE * TEXTURE_SIZE ->
  Math_round ((0 + channel_of c1 c2 * of_Z count) / (0 + of_Z count))
    = channel_of c1 c2 /\
  strict_eq (0 + of_Z count) 0 = false /\
  (channel_of c1 c2 - channel_of c1 c2)%float = 0%float.
Proof.
  intros H1 H2 Hcount.
  pose proof (channel_exact_true c1 c2 count H1 H2 Hcount) as H.
  unfold channel_exact in H.
  apply andb_true_iff in H as [H Hself].
  apply andb_true_iff in H as [Hround Hpixels].
  apply FloatAxioms.Leibniz.eqb_spec in Hround, Hself.
  apply negb_true_iff in Hpixels. auto.
Qed.

(** A hex colour is not the transparent key, and its channels are read
    from its three pairs of digits. *)
Lemma hex_color_inv (hex : string) :
  is_hex_color hex = true ->
  exists c1 c2 c3 c4 c5 c6,
    hex = String "#" (String c1 (String c2 (String c3 (String c4
            (String c5 (String c6 EmptyString)))))) /\
    hexToRgb hex
      = Some (Rgb (channel_of c1 c2) (channel_of c3 c4) (channel_of c5 c6)) /\
    Forall (fun c => is_hex_digit c = true) [c1; c2; c3; c4; c5; c6].
Proof.
  unfold is_hex_color.
  destruct hex as [|c0 [|c1 [|c2 [|c3 [|c4 [|c5 [|c6 [|c7 rest]]]]]]]];
    try discriminate.
  intros H. apply andb_true_iff in H as [H0 H].
  apply Ascii.eqb_eq in H0. subst c0.
  exists c1, c2, c3, c4, c5, c6. split; [reflexivity|]. split.
  - unfold hexToRgb.
    replace (String.eqb _ "#transparent") with false; [reflexivity|].
    symmetry. apply String.eqb_neq. intros Heq.
    apply (f_equal String.length) in Heq. discriminate.
  - simpl in H. rewrite !andb_true_iff in H.
    destruct H as (? & ? & ? & ? & ? & ? & _). repeat constructor; assumption.
Qed.

End UniformFacts.

Module HistogramFacts.
Import ColorFacts UniformFacts.

(** ** The colour a key denotes, and the colour the code reads *)

Lemma hex_digit_number_digit (c : ascii) (d : Z) :
  hex_digit_number c = Some d -> is_hex_digit c = true.
Proof.
  destruct c as [[] [] [] [] [] [] [] []]; intros H;
    first [reflexivity | vm_compute in H; discriminate H].
Qed.

Lemma channels_read :
  forallb (fun c1 => forallb (channel_read c1) hex_digits) hex_digits = true.
Proof. vm_compute. reflexivity. Qed.

Lemma channel_number_read (c1 c2 : ascii) (n : Z) :
  channel_number c1 c2 = Some n ->
  channel_of c1 c2 = of_Z n /\ 0 <= n <= 255 /\
  is_hex_digit c1 = true /\ is_hex_digit c2 = true.
Proof.
  intros Hn.
  assert (H1 : is_hex_digit c1 = true).
  { unfold channel_number in Hn.
    destruct (hex_digit_number c1) as [d1|] eqn:Hd1; [|discriminate].
    apply (hex_digit_number_digit c1 d1 Hd1). }
  assert (H2 : is_hex_digit c2 = true).
  { unfold channel_number in Hn.
    destruct (hex_digit_number c1) as [d1|]; [|discriminate].
    destruct (hex_digit_number c2) as [d2|] eqn:Hd2; [|discriminate].
    apply (hex_digit_number_digit c2 d2 Hd2). }
  pose proof channels_read as Hall.
  rewrite forallb_forall in Hall.
  specialize (Hall c1 (hex_digit_In c1 H1)).
  rewrite forallb_forall in Hall.
  specialize (Hall c2 (hex_digit_In c2 H2)).
  unfold channel_read in Hall. rewrite Hn in Hall.
  apply andb_true_iff in Hall as [Hall Hhi].
  apply andb_true_iff in Hall as [Heq Hlo].
  apply FloatAxioms.Leibniz.eqb_spec in Heq.
  apply Z.leb_le in Hlo, Hhi. auto.
Qed.

(** A key that denotes a colour: its six digits and its channels. *)
Lemma denoted_color_inv (hex : string) (color : rgb8) :
  denoted_color hex = Some color ->
  exists c1 c2 c3 c4 c5 c6,
    hex = String "#" (String c1 (String c2 (String c3 (String c4
            (String c5 (String c6 EmptyString)))))) /\
    channel_number c1 c2 = Some (r8 color) /\
    channel_number c3 c4 = Some (g8 color) /\
    channel_number c5 c6 = Some (b8 color).
Proof.
  unfold denoted_color.
  destruct hex as [|c0 [|c1 [|c2 [|c3 [|c4 [|c5 [|c6 [|c7 rest]]]]]]]];
    try discriminate;
    try (destruct c0 as [[] [] [] [] [] [] [] []]; discriminate).
  destruct (Ascii.eqb_spec c0 "#") as [->|Hne].
  2:{ destruct c0 as [[] [] [] [] [] [] [] []]; try discriminate.
      congruence. }
  destruct (channel_number c1 c2) as [cr|] eqn:Hr; [|discriminate].
  destruct (channel_number c3 c4) as [cg|] eqn:Hg; [|discriminate].
  destruct (channel_number c5 c6) as [cb|] eqn:Hb; [|discriminate].
  intros [= <-]. exists c1, c2, c3, c4, c5, c6. cbn [r8 g8 b8]. auto.
Qed.

(** [hexToRgb] reads the colour a key denotes, and its channels are
    bytes. *)
Lemma hexToRgb_denoted (hex : string) (color : rgb8) :
  denoted_color hex = Some color ->
  hexToRgb hex = Some (to_rgb color) /\ in_range color /\
  is_hex_color hex = true.
Proof.
  intros Hcolor.
  destruct (denoted_color_inv hex color Hcolor)
    as (c1 & c2 & c3 & c4 & c5 & c6 & -> & Hr & Hg & Hb).
  destruct (channel_number_read c1 c2 _ Hr) as (Hcr & Hrr & H1 & H2).
  destruct (channel_number_read c3 c4 _ Hg) as (Hcg & Hgr & H3 & H4).
  destruct (channel_number_read c5 c6 _ Hb) as (Hcb & Hbr & H5 & H6).
  assert (Hhex : is_hex_color
            (String "#" (String c1 (String c2 (String c3 (String c4
               (String c5 (String c6 EmptyString))))))) = true).
  { cbn [is_hex_color forallb]. rewrite H1, H2, H3, H4, H5, H6.
    reflexivity. }
  destruct (hex_color_inv _ Hhex)
    as (d1 & d2 & d3 & d4 & d5 & d6 & Heq & Hrgb & _).
  injection Heq as <- <- <- <- <- <-.
  rewrite Hrgb, Hcr, Hcg, Hcb. unfold in_range, to_rgb. auto.
Qed.

Lemma hexToRgb_transparent : hexToRgb "#transparent" = None.
Proof. reflexivity. Qed.

Lemma denoted_color_transparent : denoted_color "#transparent" = None.
Proof. reflexivity. Qed.

(** ** The histogram as the loops read it *)

(** What the loops read at the indices of the entries [hexes], which
    follow the entries [before] in the histogram. *)
Lemma entries_at_coloured (texture : textureInfo) (hexes : list string) :
  forall (counts : list Z) (before : list string) (before' : list Z),
    length counts = length hexes ->
    length before' = length before ->
    colorHexes texture = before ++ hexes ->
    colorPixelCounts texture = before' ++ counts ->
    Forall (fun hex => hex = "#transparent"%string \/
                       is_Some (denoted_color hex)) hexes ->
    entries_at texture (seq (length before) (length hexes))
      = (fun e : rgb8 * Z => (to_rgb (fst e), of_Z (snd e)))
          <$> omap (fun e : string * Z =>
                      (fun color => (color, snd e)) <$> denoted_color (fst e))
                (zip hexes counts).
Proof.
  induction hexes as [|hex hexes IH];
    intros counts before before' Hlen Hbefore Hhexes Hcounts Hall;
    [reflexivity|].
  destruct counts as [|count counts]; [discriminate|].
  injection Hlen as Hlen.
  apply Forall_cons in Hall as [Hhex Hall].
  cbn [length seq zip zip_with]. unfold entries_at.
  cbn [omap list_omap].
  fold (entries_at texture (seq (S (length before)) (length hexes))).
  assert (Hat : hex_at texture (length before) = hex).
  { unfold hex_at. rewrite Hhexes, app_nth2, Nat.sub_diag by lia.
    reflexivity. }
  assert (Hcount : count_at texture (length before) = of_Z count).
  { unfold count_at. rewrite Hcounts, lookup_app_r by lia.
    rewrite Hbefore, Nat.sub_diag. reflexivity. }
  assert (Hrest :
    entries_at texture (seq (S (length before)) (length hexes))
      = (fun e : rgb8 * Z => (to_rgb (fst e), of_Z (snd e)))
          <$> omap (fun e : string * Z =>
                      (fun color => (color, snd e)) <$> denoted_color (fst e))
                (zip hexes counts)).
  { replace (S (length before)) with (length (before ++ [hex]))
      by (rewrite length_app; simpl; lia).
    apply (IH counts (before ++ [hex]) (before' ++ [count])).
    - exact Hlen.
    - rewrite !length_app. simpl. lia.
    - rewrite <- app_assoc. exact Hhexes.
    - rewrite <- app_assoc. exact Hcounts.
    - exact Hall. }
  rewrite Hat, Hcount, Hrest. cbn [fst snd].
  destruct Hhex as [->|[color Hcolor]].
  - rewrite hexToRgb_transparent, denoted_color_transparent. reflexivity.
  - destruct (hexToRgb_denoted hex color Hcolor) as (-> & _ & _).
    rewrite Hcolor. reflexivity.
Qed.

Lemma opaque_entries_coloured (texture : textureInfo) :
  well_formed_histogram texture ->
  opaque_entries texture
    = (fun e : rgb8 * Z => (to_rgb (fst e), of_Z (snd e)))
        <$> coloured_entries texture.
Proof.
  intros [Hlen Hall]. unfold opaque_entries, coloured_entries.
  apply (entries_at_coloured texture (colorHexes texture)
           (colorPixelCounts texture) [] []);
    [exact Hlen | reflexivity | reflexivity | reflexivity | exact Hall].
Qed.

Lemma opaque_pixels_coloured (texture : textureInfo) :
  well_formed_histogram texture ->
  opaque_pixels texture = coloured_pixels texture.
Proof.
  intros Hwf. unfold opaque_pixels, coloured_pixels.
  rewrite (opaque_entries_coloured texture Hwf), <- list_fmap_compose.
  reflexivity.
Qed.

(** The code's distance is the Euclidean distance. *)
Lemma colorDistance_euclidean (c1 c2 : rgb) :
  colorDistance c1 c2 = euclidean_distance c1 c2.
Proof. reflexivity. Qed.

(** At unbounded depth [calculatePerceivedColor] returns the weighted
    mean colour with its channels rounded. *)
Lemma calculatePerceivedColor_rounded_mean (texture : textureInfo) :
  well_formed_histogram texture ->
  calculatePerceivedColor texture None = rounded <$> weighted_mean texture.
Proof.
  intros Hwf. unfold calculatePerceivedColor, weighted_mean. cbn [depth_limit].
  rewrite perceived_fold. cbn [totalR totalG totalB totalPixels].
  fold (opaque_entries texture). fold (opaque_pixels texture).
  rewrite (opaque_pixels_coloured texture Hwf).
  rewrite (opaque_entries_coloured texture Hwf), <- !list_fmap_compose.
  destruct (strict_eq (coloured_pixels texture) 0); reflexivity.
Qed.

(** The loop of [calculateColorVariance], from the mean it was given. *)
Lemma variance_loop (texture : textureInfo) (meanColor : rgb) :
  well_formed_histogram texture ->
  fold_left (variance_step texture meanColor)
    (seq 0 (length (colorHexes texture))) (0%float, 0%float)
  = (sum_from 0 ((fun e : rgb8 * Z =>
                    euclidean_distance (to_rgb (fst e)) meanColor
                    * of_Z (snd e))%float <$> coloured_entries texture),
     coloured_pixels texture).
Proof.
  intros Hwf. rewrite variance_fold. cbn [fst snd].
  fold (opaque_entries texture). fold (opaque_pixels texture).
  rewrite (opaque_pixels_coloured texture Hwf).
  rewrite (opaque_entries_coloured texture Hwf), <- !list_fmap_compose.
  reflexivity.
Qed.

End HistogramFacts.

Module ColorSpec.
Import ColorFacts UniformFacts HistogramFacts.

(** C8.  A texture whose histogram is one colour key, with a pixel count
    between 1 and the texture area: [calculatePerceivedColor] returns
    the colour the key denotes, channel by channel the number its two
    hex digits stand for, for every depth of 1 or more and for the
    unbounded depth. *)
Theorem perceived_color_of_uniform_texture (texture : textureInfo)
  (hex : string) (count : Z) (depth : option nat) (color : rgb8) :
  colorHexes texture = [hex] -> colorPixelCounts texture = [count] ->
  denoted_color hex = Some color ->
  1 <= count <= TEXTURE_SIZE * TEXTURE_SIZE ->
  match depth with Some d => (1 <= d)%nat | None => True end ->
  calculatePerceivedColor texture depth
    = Some (Rgb (of_Z (r8 color)) (of_Z (g8 color)) (of_Z (b8 color))) /\
  in_range color.
Proof.
  intros Hhexes Hcounts Hcolor Hcount Hdepth.
  destruct (denoted_color_inv hex color Hcolor)
    as (c1 & c2 & c3 & c4 & c5 & c6 & Hhex & Hr & Hg & Hb).
  destruct (channel_number_read c1 c2 _ Hr) as (Hcr & _ & H1 & H2).
  destruct (channel_number_read c3 c4 _ Hg) as (Hcg & _ & H3 & H4).
  destruct (channel_number_read c5 c6 _ Hb) as (Hcb & _ & H5 & H6).
  destruct (hexToRgb_denoted hex color Hcolor) as (Hrgb & Hrange & _).
  split; [|exact Hrange].
  rewrite (perceived_single texture hex count depth Hhexes Hcounts Hdepth).
  rewrite Hrgb. cbv zeta. unfold to_rgb. cbn [r g b].
  rewrite <- Hcr, <- Hcg, <- Hcb.
  destruct (channel_mean c1 c2 count H1 H2 Hcount) as (-> & -> & _).
  destruct (channel_mean c3 c4 count H3 H4 Hcount) as (-> & _ & _).
  destruct (channel_mean c5 c6 count H5 H6 Hcount) as (-> & _ & _).
  reflexivity.
Qed.

Lemma perceived_color_of_uniform_texture_witness :
  calculatePerceivedColor Sample.crimson (Some 3%nat)
    = Some (Rgb 240 0 0) /\
  in_range (Rgb8 240 0 0).
Proof.
  apply (perceived_color_of_uniform_texture Sample.crimson "#f00000" 64
           (Some 3%nat) (Rgb8 240 0 0)).
  - reflexivity.
  - reflexivity.
  - reflexivity.
  - unfold TEXTURE_SIZE. lia.
  - lia.
Defined.

Example perceived_color_depths :
  calculatePerceivedColor Sample.crimson (Some 1%nat)
    = Some (Rgb 240 0 0) /\
  calculatePerceivedColor Sample.crimson None = Some (Rgb 240 0 0) /\
  calculatePerceivedColor Sample.dusk (Some 1%nat) = Some (Rgb 16 32 48) /\
  calculatePerceivedColor Sample.dusk None = Some (Rgb 34 50 66).
Proof. repeat split; vm_compute; reflexivity. Qed.

(** C7, as it is stated, fails.  For 48 black and 16 white pixels the
    weighted mean colour is (63.75, 63.75, 63.75); the count-weighted
    average Euclidean distance of the two colours from it is below 165.75
    (about 165.63), and [calculateColorVariance] returns more than 165.75
    (about 165.84): it measures from (64, 64, 64). *)
Lemma variance_is_not_measured_from_the_mean :
  colorCount chequered = 2 /\
  weighted_mean chequered = Some (Rgb 63.75 63.75 63.75) /\
  lt (weighted_average_distance chequered (Rgb 63.75 63.75 63.75)) 165.75
    = true /\
  lt 165.75 (calculateColorVariance chequered) = true /\
  strict_eq (calculateColorVariance chequered)
    (weighted_average_distance chequered (Rgb 63.75 63.75 63.75)) = false.
Proof. repeat split; vm_compute; reflexivity. Qed.

(** C7, amended.  [calculateColorVariance] is exactly 0 when [colorCount]
    is at most 1.  When [colorCount] exceeds 1, on a histogram as the
    indexer writes it, the variance is the count-weighted average
    Euclidean distance of the colours of the histogram, the transparent
    entry left out, from the weighted mean colour with its channels
    rounded to integers; it is 0 when no pixel has a colour.  On a
    texture of one colour that average is 0 as well. *)
Theorem calculateColorVariance_spec (texture : textureInfo) :
  (colorCount texture <= 1 -> calculateColorVariance texture = 0%float) /\
  (well_formed_histogram texture -> 1 < colorCount texture ->
   match weighted_mean texture with
   | Some mean =>
       calculateColorVariance texture
         = weighted_average_distance texture (rounded mean)
   | None => calculateColorVariance texture = 0%float
   end) /\
  (forall hex count color,
     colorHexes texture = [hex] -> colorPixelCounts texture = [count] ->
     denoted_color hex = Some color ->
     1 <= count <= TEXTURE_SIZE * TEXTURE_SIZE ->
     exists mean,
       weighted_mean texture = Some mean /\
       rounded mean = to_rgb color /\
       weighted_average_distance texture (rounded mean) = 0%float).
Proof.
  split; [|split].
  - intros Hcount. unfold calculateColorVariance.
    destruct (Z.leb_spec (colorCount texture) 1); [reflexivity | lia].
  - intros Hwf Hcount. unfold calculateColorVariance.
    destruct (Z.leb_spec (colorCount texture) 1); [lia|].
    rewrite (calculatePerceivedColor_rounded_mean texture Hwf).
    destruct (weighted_mean texture) as [mean|] eqn:Hmean;
      cbn [fmap option_fmap option_map]; [|reflexivity].
    rewrite (variance_loop texture (rounded mean) Hwf).
    unfold weighted_mean in Hmean. unfold weighted_average_distance.
    destruct (strict_eq (coloured_pixels texture) 0); [discriminate|].
    reflexivity.
  - intros hex count color Hhexes Hcounts Hcolor Hcount.
    destruct (denoted_color_inv hex color Hcolor)
      as (c1 & c2 & c3 & c4 & c5 & c6 & Hhex & Hr & Hg & Hb).
    destruct (channel_number_read c1 c2 _ Hr) as (Hcr & _ & H1 & H2).
    destruct (channel_number_read c3 c4 _ Hg) as (Hcg & _ & H3 & H4).
    destruct (channel_number_read c5 c6 _ Hb) as (Hcb & _ & H5 & H6).
    destruct (channel_mean c1 c2 count H1 H2 Hcount) as (Hmr & Hn & Hrr).
    destruct (channel_mean c3 c4 count H3 H4 Hcount) as (Hmg & _ & Hgg).
    destruct (channel_mean c5 c6 count H5 H6 Hcount) as (Hmb & _ & Hbb).
    rewrite Hcr in Hmr, Hrr. rewrite Hcg in Hmg, Hgg.
    rewrite Hcb in Hmb, Hbb.
    unfold weighted_mean, weighted_average_distance, coloured_pixels,
      coloured_entries.
    rewrite Hhexes, Hcounts. cbn [zip zip_with omap list_omap fst snd].
    rewrite Hcolor.
    cbn [fmap option_fmap option_map list_fmap fst snd sum_from fold_left].
    rewrite Hn. eexists. split; [reflexivity|].
    unfold rounded. cbn [r g b]. rewrite Hmr, Hmg, Hmb.
    split; [reflexivity|].
    unfold euclidean_distance, to_rgb. cbn [r g b]. rewrite Hrr, Hgg, Hbb.
    pose proof (zero_average_true count Hcount) as Hzero.
    apply FloatAxioms.Leibniz.eqb_spec in Hzero. exact Hzero.
Qed.

(** The texture of 48 black and 16 white pixels, around (64, 64, 64). *)
Lemma calculateColorVariance_spec_witness :
  weighted_mean chequered = Some (Rgb 63.75 63.75 63.75) /\
  calculateColorVariance chequered
    = weighted_average_distance chequered (Rgb 64 64 64).
Proof.
  split; [vm_compute; reflexivity|].
  assert (Hwf : well_formed_histogram chequered).
  { split; [reflexivity|].
    repeat (apply List.Forall_cons;
            [right; eexists; vm_compute; reflexivity|]).
    apply List.Forall_nil. }
  assert (Hcount : 1 < colorCount chequered) by (cbn; lia).
  pose proof (proj1 (proj2 (calculateColorVariance_spec chequered))
                Hwf Hcount) as Hspec.
  replace (weighted_mean chequered) with (Some (Rgb 63.75 63.75 63.75))
    in Hspec by (vm_compute; reflexivity).
  replace (rounded (Rgb 63.75 63.75 63.75)) with (Rgb 64 64 64)
    in Hspec by (vm_compute; reflexivity).
  exact Hspec.
Defined.

(** The two-colour sample texture: 40 pixels of #102030 and 24 of
    #405060 around the mean (34, 50, 66), which needs no rounding. *)
Example calculateColorVariance_dusk :
  weighted_mean Sample.dusk = Some (Rgb 34 50 66) /\
  calculateColorVariance Sample.dusk
    = weighted_average_distance Sample.dusk (Rgb 34 50 66).
Proof. split; vm_compute; reflexivity. Qed.

End ColorSpec.

(* ================================================================== *)
(** * Part XVIII: the exclusion of blocks *)
(* ================================================================== *)

Module IndexerFacts.
Import Indexer.

Section Analyzer.

Variable analyzeTexture : textureRef -> result analysis.

(** An excluded block leaves every variable of the indexer as it was:
    nothing is pushed, analysed or recorded for it. *)
Lemma block_step_excluded (st : state) (entry : string * blockData) :
  excluded entry = true ->
  block_step analyzeTexture st entry = Returns st.
Proof.
  destruct entry as [blockId blockData]. unfold excluded, block_step. simpl.
  destruct (includes (block_name blockData) "Slab"); [reflexivity|].
  simpl. intros ->. reflexivity.
Qed.

Lemma for_of_excluded (blockEntries : list (string * blockData)) :
  forall st,
    for_of (block_step analyzeTexture) blockEntries st
      = for_of (block_step analyzeTexture)
          (List.filter (fun e => negb (excluded e)) blockEntries) st.
Proof.
  induction blockEntries as [|entry rest IH]; intros st; simpl;
    [reflexivity|].
  destruct (excluded entry) eqn:Hexcluded; simpl.
  - rewrite (block_step_excluded st entry Hexcluded). simpl. apply IH.
  - destruct (block_step analyzeTexture st entry) as [st'|e]; simpl;
      [apply IH | reflexivity].
Qed.

(** The loop over the faces of a block pushes no block id. *)
Lemma face_step_includedBlockIds (parsedBlockId : option Z)
  (blockData : blockData) (st st' : state) (entry : string * Z) :
  face_step analyzeTexture parsedBlockId blockData st entry = Returns st' ->
  includedBlockIds st' = includedBlockIds st.
Proof.
  destruct entry as [complexFaceName paletteIndex]. unfold face_step.
  destruct (array_get (block_texturePalette blockData) paletteIndex)
    as [textureInfo|]; [|intros [= <-]; reflexivity].
  destruct (textureCache st !! cacheKey textureInfo) as [textureId|].
  - simpl. destruct (String.eqb _ _); [intros [= <-]; reflexivity|].
    destruct (array_get _ _); [intros [= <-]; reflexivity | discriminate].
  - destruct (analyzeTexture textureInfo) as [found|e]; simpl;
      [|discriminate].
    destruct (String.eqb _ _); [intros [= <-]; reflexivity|].
    destruct (array_get _ _); [intros [= <-]; reflexivity | discriminate].
Qed.

Lemma faces_includedBlockIds (parsedBlockId : option Z)
  (blockData : blockData) (faceMap : list (string * Z)) :
  forall st st',
    for_of (face_step analyzeTexture parsedBlockId blockData) faceMap st
      = Returns st' ->
    includedBlockIds st' = includedBlockIds st.
Proof.
  induction faceMap as [|entry rest IH]; intros st st'; simpl.
  - intros [= <-]. reflexivity.
  - destruct (face_step analyzeTexture parsedBlockId blockData st entry)
      as [st1|e] eqn:Hstep; simpl; [|discriminate].
    intros Hrest. rewrite (IH _ _ Hrest).
    apply (face_step_includedBlockIds _ _ _ _ _ Hstep).
Qed.

(** The ids pushed are those of the blocks that are not excluded, in the
    order of the entries. *)
Lemma blocks_includedBlockIds (blockEntries : list (string * blockData)) :
  forall st st',
    for_of (block_step analyzeTexture) blockEntries st = Returns st' ->
    includedBlockIds st'
      = includedBlockIds st ++
        ((fun e => parseInt_Z (fst e) 10)
           <$> List.filter (fun e => negb (excluded e)) blockEntries).
Proof.
  induction blockEntries as [|entry rest IH]; intros st st'; simpl.
  - intros [= <-]. rewrite app_nil_r. reflexivity.
  - destruct (excluded entry) eqn:Hexcluded; simpl.
    + rewrite (block_step_excluded st entry Hexcluded). simpl. apply IH.
    + destruct (block_step analyzeTexture st entry) as [st1|e] eqn:Hstep;
        simpl; [|discriminate].
      intros Hrest. rewrite (IH _ _ Hrest).
      assert (Hst1 : includedBlockIds st1
                     = includedBlockIds st ++ [parseInt_Z (fst entry) 10]).
      { destruct entry as [blockId blockData]. unfold block_step in Hstep.
        unfold excluded in Hexcluded. simpl in Hexcluded.
        apply orb_false_iff in Hexcluded as [Hslab Hskip].
        rewrite Hslab, Hskip in Hstep.
        apply faces_includedBlockIds in Hstep. exact Hstep. }
      rewrite Hst1, <- app_assoc. reflexivity.
Qed.

(** As long as [analyzeTexture] returns, so does the indexer: the
    palette entry a face is recorded under always exists. *)
Hypothesis analyzeTexture_returns :
  forall textureInfo, exists found, analyzeTexture textureInfo = Returns found.

Lemma array_get_in_range {A : Type} (a : list A) (i : Z) :
  0 <= i < Z.of_nat (length a) -> exists x, array_get a i = Some x.
Proof.
  intros Hi. unfold array_get. destruct (Z.ltb_spec i 0); [lia|].
  apply lookup_lt_is_Some. lia.
Qed.

Lemma face_step_returns (parsedBlockId : option Z) (blockData : blockData)
  (st : state) (entry : string * Z) :
  cache_in_range st ->
  exists st',
    face_step analyzeTexture parsedBlockId blockData st entry = Returns st' /\
    cache_in_range st'.
Proof.
  intros Hcache. destruct entry as [complexFaceName paletteIndex].
  unfold face_step.
  destruct (array_get (block_texturePalette blockData) paletteIndex)
    as [textureInfo|]; [|eauto].
  destruct (textureCache st !! cacheKey textureInfo) as [textureId|] eqn:Hhit.
  - simpl. destruct (String.eqb _ _); [eauto|].
    destruct (array_get_in_range (texturePalette st) textureId
                (Hcache _ _ Hhit)) as [analysisResult ->].
    eauto.
  - destruct (analyzeTexture_returns textureInfo) as [found ->]. simpl.
    assert (Hcache' : forall key id,
      <[cacheKey textureInfo := Z.of_nat (length (texturePalette st))]>
        (textureCache st) !! key = Some id ->
      0 <= id < Z.of_nat (length (texturePalette st ++
        [IndexedTexture (Z.of_nat (length (texturePalette st))) textureInfo
           found None]))).
    { intros key id. rewrite length_app. simpl.
      destruct (decide (cacheKey textureInfo = key)) as [->|Hne].
      - rewrite lookup_insert_eq. intros [= <-]. lia.
      - rewrite lookup_insert_ne by exact Hne. intros Hold.
        apply Hcache in Hold. lia. }
    destruct (String.eqb _ _); [eexists; split; [reflexivity | exact Hcache']|].
    destruct (array_get_in_range
                (texturePalette st ++
                   [IndexedTexture (Z.of_nat (length (texturePalette st)))
                      textureInfo found None])
                (Z.of_nat (length (texturePalette st))))
      as [analysisResult ->].
    + rewrite length_app. simpl. lia.
    + eexists. split; [reflexivity | exact Hcache'].
Qed.

Lemma faces_return (parsedBlockId : option Z) (blockData : blockData)
  (faceMap : list (string * Z)) :
  forall st,
    cache_in_range st ->
    exists st',
      for_of (face_step analyzeTexture parsedBlockId blockData) faceMap st
        = Returns st' /\
      cache_in_range st'.
Proof.
  induction faceMap as [|entry rest IH]; intros st Hcache; simpl; [eauto|].
  destruct (face_step_returns parsedBlockId blockData st entry Hcache)
    as (st1 & -> & Hcache1).
  simpl. apply IH, Hcache1.
Qed.

Lemma blocks_return (blockEntries : list (string * blockData)) :
  forall st,
    cache_in_range st ->
    exists st',
      for_of (block_step analyzeTexture) blockEntries st = Returns st' /\
      cache_in_range st'.
Proof.
  induction blockEntries as [|[blockId blockData] rest IH]; intros st Hcache;
    simpl; [eauto|].
  destruct (includes (block_name blockData) "Slab"); simpl;
    [apply IH, Hcache|].
  destruct (bool_decide (blockId ∈ idsToSkip)); simpl; [apply IH, Hcache|].
  destruct (faces_return (parseInt_Z blockId 10) blockData
              (block_faceMap blockData)
              (State (texturePalette st)
                 (<[blockId := block_name blockData]> (blockMap st))
                 (faceIndex st)
                 (includedBlockIds st ++ [parseInt_Z blockId 10])
                 (textureCache st) (textureIdToBlockIds st)) Hcache)
    as (st1 & -> & Hcache1).
  simpl. apply IH, Hcache1.
Qed.

Lemma main_returns (blockEntries : list (string * blockData)) :
  exists out, main analyzeTexture blockEntries = Returns out.
Proof.
  unfold main.
  destruct (blocks_return blockEntries initial) as (st & -> & _).
  - intros key id. unfold initial. simpl. rewrite lookup_empty. discriminate.
  - simpl. eauto.
Qed.

End Analyzer.

(** The block ids the indexer writes are in the order of the comparator,
    each no greater than the next. *)
#[local] Instance num_le_total : Total num_le.
Proof.
  intros [x|] [y|]; simpl; try (left; exact I).
  destruct (Z.le_ge_cases x y); [left | right]; assumption.
Qed.

Lemma sort_numeric_sorted (ids : list (option Z)) :
  Sorted num_le (sort_numeric ids).
Proof. apply Sorted_merge_sort, _. Qed.

Lemma attach_blockIds_sorted (owners : gmap Z (gset (option Z)))
  (texture : indexedTexture) :
  exists ids,
    it_blockIds (attach_blockIds owners texture) = Some ids /\
    Sorted num_le ids.
Proof.
  unfold attach_blockIds. simpl. eexists. split; [reflexivity|].
  destruct (owners !! it_textureId texture);
    [apply sort_numeric_sorted | constructor].
Qed.

Lemma sort_numeric_elem (ids : list (option Z)) (id : option Z) :
  id ∈ sort_numeric ids <-> id ∈ ids.
Proof.
  unfold sort_numeric. rewrite (merge_sort_Permutation num_le ids).
  reflexivity.
Qed.

End IndexerFacts.

Module ExclusionSpec.
Import Indexer IndexerFacts.

(** X12.  The indexer's side of the exclusion: [main] on a block mapping is
    [main] on the mapping without its excluded blocks, whose palette,
    block map, face index and block id list it therefore yields; and the
    ids it lists are those of the blocks that are not excluded. *)
Theorem excluded_blocks_leave_no_trace
  (analyzeTexture : textureRef -> result analysis)
  (blockEntries : list (string * blockData)) :
  main analyzeTexture blockEntries
    = main analyzeTexture
        (List.filter (fun e => negb (excluded e)) blockEntries) /\
  forall out,
    main analyzeTexture blockEntries = Returns out ->
    forall id,
      id ∈ out_includedBlockIds out <->
      exists entry,
        entry ∈ blockEntries /\ excluded entry = false /\
        parseInt_Z (fst entry) 10 = id.
Proof.
  split.
  - unfold main. rewrite for_of_excluded. reflexivity.
  - unfold main. intros out Hout id.
    destruct (for_of (block_step analyzeTexture) blockEntries initial)
      as [st|e] eqn:Hloop; simpl in Hout; [|discriminate].
    injection Hout as <-. simpl.
    rewrite sort_numeric_elem.
    rewrite (blocks_includedBlockIds analyzeTexture _ _ _ Hloop). simpl.
    rewrite list_elem_of_fmap. split.
    + intros (entry & -> & Hentry). exists entry.
      apply list_elem_of_In, filter_In in Hentry as [Hin Hexcluded].
      apply negb_true_iff in Hexcluded.
      split; [apply list_elem_of_In; exact Hin | split; [exact Hexcluded|]].
      reflexivity.
    + intros (entry & Hin & Hexcluded & <-). exists entry.
      split; [reflexivity|].
      apply list_elem_of_In, filter_In.
      split; [apply list_elem_of_In; exact Hin|].
      rewrite Hexcluded. reflexivity.
Qed.

(** C2.  On the sample mapping block 1 is in the exclusion set and is
    not a slab.  The indexer leaves it out of [includedBlockIds] and of
    the palette; the block id generator, which tests the name only, lists
    it among the blocks "included in the final texture index". *)
Theorem generator_lists_skipped_block :
  excluded ("1"%string, BlockData "Air" [("Top"%string, 0)] [TextureRef 0 0])
    = true /\
  (exists out,
     main Sample.plain_red Sample.blocks = Returns out /\
     out_includedBlockIds out = [Some 2; Some 12] /\
     it_ref <$> out_texture_palette out = [TextureRef 0 1; TextureRef 0 2]) /\
  IncludedBlockIds.main Sample.blocks = [Some 1; Some 2; Some 12].
Proof.
  split; [vm_compute; reflexivity|]. split.
  - destruct (main Sample.plain_red Sample.blocks) as [out|e] eqn:Hmain;
      [|vm_compute in Hmain; discriminate].
    exists out. split; [reflexivity|].
    vm_compute in Hmain. injection Hmain as <-. split; reflexivity.
  - vm_compute. reflexivity.
Qed.

End ExclusionSpec.

(* ================================================================== *)
(** * Part XIX: matching byte colours *)
(* ================================================================== *)

Module ByteFacts.
Import JsFacts MatcherFacts.

(** ** What [colorDistance] computes on bytes, by evaluation *)

Lemma squares_evaluated :
  forallb (fun a => forallb (square_exact a) bytes) bytes = true.
Proof. vm_compute. reflexivity. Qed.

Lemma sums_evaluated :
  forallb (fun x => forallb (fun y => forallb (sum_exact x y) words) words)
    words = true.
Proof. vm_compute. reflexivity. Qed.

Lemma roots_evaluated : forallb root_grows squared_distances = true.
Proof. vm_compute. reflexivity. Qed.

Lemma Z_range_In (n : nat) :
  forall from k, from <= k < from + Z.of_nat n -> In k (Z_range from n).
Proof.
  induction n as [|n IH]; intros from k Hk; [lia|]. simpl.
  destruct (Z.eq_dec from k) as [Heq|Hne]; [left; exact Heq|].
  right. apply IH. lia.
Qed.

Lemma byte_In (a : Z) : 0 <= a <= 255 -> In a bytes.
Proof.
  intros Ha. change bytes with (Z_range 0 256). apply Z_range_In. lia.
Qed.

Lemma word_In (a : Z) : 0 <= a <= 255 -> In (Uint63.of_Z a) words.
Proof.
  intros Ha. change words with (map Uint63.of_Z bytes).
  apply in_map, byte_In, Ha.
Qed.

Lemma squared_distance_In (k : Z) :
  0 <= k < 195075 -> In k squared_distances.
Proof. intros Hk. apply Z_range_In. lia. Qed.

Lemma of_Z_word (n : Z) : 0 <= n -> of_Z n = of_uint63 (Uint63.of_Z n).
Proof.
  intros Hn. unfold of_Z. destruct (Z.ltb_spec n 0); [lia | reflexivity].
Qed.

Lemma to_Z_of_Z_small (n : Z) :
  0 <= n < 9223372036854775808 -> Uint63.to_Z (Uint63.of_Z n) = n.
Proof.
  intros Hn. rewrite Uint63.of_Z_spec. apply Z.mod_small. exact Hn.
Qed.

Lemma sum_of_squares_word (x y z : Z) :
  0 <= x <= 255 -> 0 <= y <= 255 -> 0 <= z <= 255 ->
  Uint63.add
    (Uint63.add (Uint63.mul (Uint63.of_Z x) (Uint63.of_Z x))
       (Uint63.mul (Uint63.of_Z y) (Uint63.of_Z y)))
    (Uint63.mul (Uint63.of_Z z) (Uint63.of_Z z))
  = Uint63.of_Z (x * x + y * y + z * z).
Proof.
  intros Hx Hy Hz. apply Uint63.to_Z_inj.
  rewrite !Uint63.add_spec, !Uint63.mul_spec, !to_Z_of_Z_small by nia.
  change Uint63.wB with 9223372036854775808.
  rewrite (Z.mod_small (x * x)) by nia.
  rewrite (Z.mod_small (y * y)) by nia.
  rewrite (Z.mod_small (z * z)) by nia.
  rewrite (Z.mod_small (x * x + y * y)) by nia.
  apply Z.mod_small. nia.
Qed.

Lemma square_of_difference (a b : Z) :
  0 <= a <= 255 -> 0 <= b <= 255 ->
  ((of_Z a - of_Z b) * (of_Z a - of_Z b))%float
    = (of_Z (Z.abs (a - b)) * of_Z (Z.abs (a - b)))%float.
Proof.
  intros Ha Hb. pose proof squares_evaluated as Hall.
  rewrite forallb_forall in Hall. specialize (Hall a (byte_In a Ha)).
  rewrite forallb_forall in Hall. specialize (Hall b (byte_In b Hb)).
  unfold square_exact in Hall.
  apply FloatAxioms.Leibniz.eqb_spec in Hall.
  rewrite (of_Z_word (Z.abs (a - b))) by lia. exact Hall.
Qed.

Lemma sum_of_squares (x y z : Z) :
  0 <= x <= 255 -> 0 <= y <= 255 -> 0 <= z <= 255 ->
  (of_Z x * of_Z x + of_Z y * of_Z y + of_Z z * of_Z z)%float
    = of_Z (x * x + y * y + z * z).
Proof.
  intros Hx Hy Hz. pose proof sums_evaluated as Hall.
  rewrite forallb_forall in Hall. specialize (Hall _ (word_In x Hx)).
  rewrite forallb_forall in Hall. specialize (Hall _ (word_In y Hy)).
  rewrite forallb_forall in Hall. specialize (Hall _ (word_In z Hz)).
  unfold sum_exact in Hall. apply FloatAxioms.Leibniz.eqb_spec in Hall.
  rewrite sum_of_squares_word in Hall by assumption.
  rewrite !of_Z_word by nia. exact Hall.
Qed.

(** Between byte colours [colorDistance] is the square root of the
    exact squared distance. *)
Lemma colorDistance_bytes (c1 c2 : rgb8) :
  in_range c1 -> in_range c2 ->
  colorDistance (to_rgb c1) (to_rgb c2)
    = PrimFloat.sqrt (of_Z (squared_distance c1 c2)).
Proof.
  intros (Hr1 & Hg1 & Hb1) (Hr2 & Hg2 & Hb2).
  unfold colorDistance, to_rgb, squared_distance. cbn [r g b].
  rewrite !square_of_difference by assumption.
  rewrite sum_of_squares by lia.
  rewrite !Z.abs_square. reflexivity.
Qed.

Lemma square_bound (d : Z) : -255 <= d <= 255 -> 0 <= d * d <= 65025.
Proof. intros Hd. nia. Qed.

Lemma squared_distance_bound (c1 c2 : rgb8) :
  in_range c1 -> in_range c2 -> 0 <= squared_distance c1 c2 <= 195075.
Proof.
  intros (Hr1 & Hg1 & Hb1) (Hr2 & Hg2 & Hb2). unfold squared_distance.
  pose proof (square_bound (r8 c1 - r8 c2)).
  pose proof (square_bound (g8 c1 - g8 c2)).
  pose proof (square_bound (b8 c1 - b8 c2)). lia.
Qed.

(** ** The order of the distances is the order of the squared distances *)

Lemma root_step (k : Z) :
  0 <= k < 195075 ->
  lt (PrimFloat.sqrt (of_Z k)) (PrimFloat.sqrt (of_Z (k + 1))) = true /\
  lt (PrimFloat.sqrt (of_Z (k + 1))) Infinity = true.
Proof.
  intros Hk. pose proof roots_evaluated as Hall.
  rewrite forallb_forall in Hall.
  specialize (Hall k (squared_distance_In k Hk)).
  apply andb_true_iff in Hall. exact Hall.
Qed.

Lemma root_lt_steps (m : Z) (k : nat) :
  0 <= m -> m + 1 + Z.of_nat k <= 195075 ->
  lt (PrimFloat.sqrt (of_Z m)) (PrimFloat.sqrt (of_Z (m + 1 + Z.of_nat k)))
    = true.
Proof.
  intros Hm. induction k as [|k IH]; intros Hk.
  - replace (m + 1 + Z.of_nat 0) with (m + 1) by lia.
    apply root_step. lia.
  - replace (m + 1 + Z.of_nat (S k)) with (m + 1 + Z.of_nat k + 1) by lia.
    eapply lt_le_trans; [apply IH; lia|].
    apply lt_le, root_step. lia.
Qed.

Lemma root_lt (m n : Z) :
  0 <= m < n -> n <= 195075 ->
  lt (PrimFloat.sqrt (of_Z m)) (PrimFloat.sqrt (of_Z n)) = true.
Proof.
  intros [Hm Hmn] Hn.
  replace n with (m + 1 + Z.of_nat (Z.to_nat (n - m - 1))) by lia.
  apply root_lt_steps; lia.
Qed.

Lemma root_finite (n : Z) :
  0 <= n <= 195075 -> lt (PrimFloat.sqrt (of_Z n)) Infinity = true.
Proof.
  intros Hn. destruct (Z.eq_dec n 0) as [-> | Hne].
  - destruct (root_step 0) as [H0 H1]; [lia|].
    eapply lt_le_trans; [exact H0 | apply lt_le, H1].
  - destruct (root_step (n - 1)) as [_ H]; [lia|].
    replace (n - 1 + 1) with n in H by lia. exact H.
Qed.

Lemma measurable_bytes (pixel : rgb8) (c : textureInfo * rgb8) :
  in_range pixel -> in_range (snd c) ->
  measurable (to_rgb pixel) (candidate8 c).
Proof.
  intros Hpixel Hc. unfold measurable, distance_to, candidate8. simpl.
  rewrite colorDistance_bytes by assumption.
  apply root_finite, squared_distance_bound; assumption.
Qed.

Lemma lt_distance_iff (pixel : rgb8) (c1 c2 : textureInfo * rgb8) :
  in_range pixel -> in_range (snd c1) -> in_range (snd c2) ->
  lt (distance_to (to_rgb pixel) (candidate8 c1))
     (distance_to (to_rgb pixel) (candidate8 c2)) = true <->
  squared_distance pixel (snd c1) < squared_distance pixel (snd c2).
Proof.
  intros Hpixel H1 H2. unfold distance_to, candidate8. simpl.
  rewrite !colorDistance_bytes by assumption.
  pose proof (squared_distance_bound pixel (snd c1) Hpixel H1) as Hb1.
  pose proof (squared_distance_bound pixel (snd c2) Hpixel H2) as Hb2.
  split.
  - intros Hlt.
    destruct (Z.lt_trichotomy (squared_distance pixel (snd c1))
                (squared_distance pixel (snd c2))) as [Hcmp|[Hcmp|Hcmp]].
    + exact Hcmp.
    + rewrite Hcmp, lt_irrefl in Hlt. discriminate.
    + rewrite (lt_asym _ _ (root_lt _ _ (conj (proj1 Hb2) Hcmp) (proj2 Hb1)))
        in Hlt. discriminate.
  - intros Hcmp. apply root_lt; lia.
Qed.

Lemma le_distance_iff (pixel : rgb8) (c1 c2 : textureInfo * rgb8) :
  in_range pixel -> in_range (snd c1) -> in_range (snd c2) ->
  le (distance_to (to_rgb pixel) (candidate8 c1))
     (distance_to (to_rgb pixel) (candidate8 c2)) = true <->
  squared_distance pixel (snd c1) <= squared_distance pixel (snd c2).
Proof.
  intros Hpixel H1 H2. split.
  - intros Hle.
    destruct (Z.le_gt_cases (squared_distance pixel (snd c1))
                (squared_distance pixel (snd c2))) as [Hcmp|Hcmp];
      [exact Hcmp|].
    apply (lt_distance_iff pixel c2 c1 Hpixel H2 H1) in Hcmp.
    rewrite (le_not_lt _ _ Hle) in Hcmp. discriminate.
  - intros Hcmp. apply Z.le_lteq in Hcmp as [Hcmp|Hcmp].
    + apply lt_le, lt_distance_iff; assumption.
    + unfold distance_to, candidate8. simpl.
      rewrite !colorDistance_bytes, Hcmp by assumption.
      apply le_refl, root_finite, squared_distance_bound; assumption.
Qed.

End ByteFacts.

Module ByteSpec.
Import JsFacts MatcherFacts ByteFacts.

(** Byte colours are always at a measurable distance: the matching
    theorems apply to every pixel of an image and every candidate whose
    perceived colour has byte channels. *)
Lemma candidates8_measurable (pixel : rgb8)
  (cs : list (textureInfo * rgb8)) :
  in_range pixel -> Forall (fun c => in_range (snd c)) cs ->
  Forall (measurable (to_rgb pixel)) (candidate8 <$> cs).
Proof.
  intros Hpixel Hcs. apply Forall_fmap.
  eapply Forall_impl; [exact Hcs|]. intros c Hc.
  apply measurable_bytes; assumption.
Qed.

(** C6.  Static matching.  For a pixel and a non-empty list of candidates
    whose colours have byte channels, the still-image [findBestMatch]
    returns the texture of a candidate at the minimum Euclidean distance
    from the pixel, measured by the exact squared distance; among the
    candidates at that distance it is the first of the list. *)
Theorem findBestMatch_static_euclidean (pixel : rgb8)
  (cs : list (textureInfo * rgb8)) :
  cs <> [] -> in_range pixel -> Forall (fun c => in_range (snd c)) cs ->
  exists before best after,
    cs = before ++ best :: after /\
    Still.findBestMatch (to_rgb pixel) (candidate8 <$> cs)
      = Some (fst best) /\
    (forall c, c ∈ cs ->
       squared_distance pixel (snd best) <= squared_distance pixel (snd c)) /\
    (forall c, c ∈ before ->
       squared_distance pixel (snd best) < squared_distance pixel (snd c)).
Proof.
  intros Hne Hpixel Hcs.
  assert (Hne' : candidate8 <$> cs <> []).
  { destruct cs; [congruence | discriminate]. }
  destruct (nearest_spec (to_rgb pixel) (candidate8 <$> cs) Hne'
              (candidates8_measurable pixel cs Hpixel Hcs))
    as (before' & best' & after' & Hsplit & Hscan & Hmin & Hfirst).
  apply fmap_app_inv in Hsplit as (before & rest & -> & Hrest & ->).
  symmetry in Hrest.
  apply fmap_cons_inv in Hrest as (best & after & -> & -> & ->).
  rewrite Forall_forall in Hcs.
  assert (Hbest : in_range (snd best)).
  { apply Hcs, elem_of_app. right. apply elem_of_cons. left. reflexivity. }
  exists before, best, after. split; [reflexivity|]. split.
  - unfold Still.findBestMatch. rewrite Hscan. reflexivity.
  - split.
    + intros c Hc. apply (le_distance_iff pixel best c); auto.
      apply Hmin. apply list_elem_of_fmap. exists c. split; [reflexivity|].
      exact Hc.
    + intros c Hc. apply (lt_distance_iff pixel best c); auto.
      * apply Hcs, elem_of_app. left. exact Hc.
      * apply Hfirst. apply list_elem_of_fmap. exists c.
        split; [reflexivity | exact Hc].
Qed.

Lemma findBestMatch_static_euclidean_example :
  exists before best after,
    [(Sample.crimson, Rgb8 240 0 0); (Sample.red, Rgb8 255 0 0);
     (Sample.blue, Rgb8 0 0 255)] = before ++ best :: after /\
    Still.findBestMatch (to_rgb (Rgb8 250 0 0))
      (candidate8 <$> [(Sample.crimson, Rgb8 240 0 0);
                       (Sample.red, Rgb8 255 0 0);
                       (Sample.blue, Rgb8 0 0 255)])
      = Some (fst best) /\
    (forall c, c ∈ [(Sample.crimson, Rgb8 240 0 0);
                    (Sample.red, Rgb8 255 0 0);
                    (Sample.blue, Rgb8 0 0 255)] ->
       squared_distance (Rgb8 250 0 0) (snd best)
         <= squared_distance (Rgb8 250 0 0) (snd c)) /\
    (forall c, c ∈ before ->
       squared_distance (Rgb8 250 0 0) (snd best)
         < squared_distance (Rgb8 250 0 0) (snd c)).
Proof.
  apply findBestMatch_static_euclidean.
  - discriminate.
  - unfold in_range. simpl. lia.
  - repeat (apply List.Forall_cons; [unfold in_range; simpl; lia|]).
    apply List.Forall_nil.
Defined.

(** The first candidate of a list that carries a texture id. *)
Lemma find_candidate8 (P : Z) (before : list (textureInfo * rgb8))
  (Pc : textureInfo * rgb8) (after : list (textureInfo * rgb8)) :
  textureId (fst Pc) = P ->
  (forall c, c ∈ before -> textureId (fst c) <> P) ->
  find (fun c => textureId (textureInfo_of c) =? P)
    (candidate8 <$> before ++ Pc :: after)
  = Some (candidate8 Pc).
Proof.
  intros HPc Hbefore. rewrite fmap_app, fmap_cons.
  apply find_first; [apply Z.eqb_eq; exact HPc|].
  intros c Hc. apply list_elem_of_fmap in Hc as (c' & -> & Hc').
  apply Z.eqb_neq, Hbefore, Hc'.
Qed.

(** C1.  Sequence matching with hysteresis.  For a pixel and a non-empty
    list of candidates whose colours have byte channels, let [B] be the
    global nearest candidate: the first of the list at the least exact
    squared distance from the pixel.  [findBestMatch] of the GIF script
    returns [B]'s texture when the previous choice is [null] (or was
    never written), when it is [B]'s own id, and when no candidate
    carries it.  When the previous id [P] is not [B]'s and [Pc] is the
    first candidate carrying [P], the function returns [B]'s texture
    exactly when the Euclidean distance from the pixel to [Pc] less the
    one to [B] exceeds [textureSwitchThreshold], and [Pc]'s texture
    otherwise. *)
Theorem findBestMatch_hysteresis_euclidean (CONFIG : config) (pixel : rgb8)
  (cs : list (textureInfo * rgb8)) (previousTextureId : choice) :
  cs <> [] -> in_range pixel -> Forall (fun c => in_range (snd c)) cs ->
  exists before B after,
    cs = before ++ B :: after /\
    (forall c, c ∈ cs ->
       squared_distance pixel (snd B) <= squared_distance pixel (snd c)) /\
    (forall c, c ∈ before ->
       squared_distance pixel (snd B) < squared_distance pixel (snd c)) /\
    (previousTextureId = Null \/ previousTextureId = Undefined ->
       Gif.findBestMatch CONFIG (to_rgb pixel) (candidate8 <$> cs)
         previousTextureId = Some (fst B)) /\
    (forall P, previousTextureId = TexId P -> textureId (fst B) = P ->
       Gif.findBestMatch CONFIG (to_rgb pixel) (candidate8 <$> cs)
         previousTextureId = Some (fst B)) /\
    (forall P, previousTextureId = TexId P ->
       (forall c, c ∈ cs -> textureId (fst c) <> P) ->
       Gif.findBestMatch CONFIG (to_rgb pixel) (candidate8 <$> cs)
         previousTextureId = Some (fst B)) /\
    (forall P before' Pc after',
       previousTextureId = TexId P -> textureId (fst B) <> P ->
       cs = before' ++ Pc :: after' -> textureId (fst Pc) = P ->
       (forall c, c ∈ before' -> textureId (fst c) <> P) ->
       let improvement :=
         (euclidean8 pixel (snd Pc) - euclidean8 pixel (snd B))%float in
       (Gif.findBestMatch CONFIG (to_rgb pixel) (candidate8 <$> cs)
          previousTextureId = Some (fst B)
        <-> gt improvement (textureSwitchThreshold CONFIG) = true) /\
       (gt improvement (textureSwitchThreshold CONFIG) = false ->
        Gif.findBestMatch CONFIG (to_rgb pixel) (candidate8 <$> cs)
          previousTextureId = Some (fst Pc))).
Proof.
  intros Hne Hpixel Hcs.
  assert (Hne' : candidate8 <$> cs <> []).
  { destruct cs; [congruence | discriminate]. }
  destruct (nearest_spec (to_rgb pixel) (candidate8 <$> cs) Hne'
              (candidates8_measurable pixel cs Hpixel Hcs))
    as (before' & best' & after' & Hsplit & Hscan & Hmin & Hfirst).
  apply fmap_app_inv in Hsplit as (before & rest & Hbefore & Hrest & Hcands).
  symmetry in Hrest.
  apply fmap_cons_inv in Hrest as (B & after & HB & Hafter & Hrest).
  subst before' best' after' rest.
  pose proof Hcs as Hranges. rewrite Forall_forall in Hranges.
  assert (HBin : B ∈ cs).
  { rewrite Hcands. apply elem_of_app. right. apply elem_of_cons. left.
    reflexivity. }
  exists before, B, after. split; [exact Hcands|].
  split.
  { intros c Hc. apply (le_distance_iff pixel B c); auto.
    apply Hmin. apply list_elem_of_fmap. exists c. auto. }
  split.
  { intros c Hc.
    assert (Hcin : c ∈ cs)
      by (rewrite Hcands; apply elem_of_app; left; exact Hc).
    apply (lt_distance_iff pixel B c); auto.
    apply Hfirst. apply list_elem_of_fmap. exists c. auto. }
  unfold Gif.findBestMatch. rewrite Hscan.
  cbn [candidate8 textureInfo_of].
  split; [|split; [|split]].
  - intros [->| ->]; [reflexivity|]. cbn [Gif.same_id].
    rewrite find_absent; [reflexivity|]. intros; reflexivity.
  - intros P -> HP. cbn [Gif.same_id]. rewrite HP, Z.eqb_refl. reflexivity.
  - intros P -> Habsent. cbn [Gif.same_id].
    destruct (textureId (fst B) =? P); [reflexivity|].
    rewrite find_absent; [reflexivity|].
    intros c Hc. apply list_elem_of_fmap in Hc as (c' & -> & Hc').
    apply Z.eqb_neq, Habsent, Hc'.
  - intros P before1 Pc after1 -> HBP Hcs1 HPc Hbefore1.
    cbn [Gif.same_id].
    destruct (Z.eqb_spec (textureId (fst B)) P) as [|_]; [contradiction|].
    assert (HPcin : Pc ∈ cs).
    { rewrite Hcs1. apply elem_of_app. right. apply elem_of_cons. left.
      reflexivity. }
    assert (Hfind :
      find (fun c => textureId (textureInfo_of c) =? P) (candidate8 <$> cs)
        = Some (candidate8 Pc)).
    { rewrite Hcs1. apply find_candidate8; assumption. }
    rewrite Hfind.
    cbn [candidate8 perceivedColor textureInfo_of].
    unfold distance_to. cbn [candidate8 perceivedColor].
    rewrite !colorDistance_bytes by auto.
    fold (euclidean8 pixel (snd Pc)). fold (euclidean8 pixel (snd B)).
    destruct (gt _ (textureSwitchThreshold CONFIG)).
    + split; [split; reflexivity | discriminate].
    + split; [|reflexivity]. split; [|discriminate].
      intros Heq. exfalso. apply HBP.
      injection Heq as Heq. rewrite <- Heq. exact HPc.
Qed.

(** The two cases the specification works out, with the threshold 15 of
    the shipped configuration: from a distance of 20 to a distance of 3
    the texture changes, from 10 to 8 it stays. *)
Lemma findBestMatch_hysteresis_euclidean_witness :
  Gif.findBestMatch CONFIG_gif (to_rgb (Rgb8 0 0 0))
    (candidate8 <$> [(Sample.red, Rgb8 20 0 0); (Sample.blue, Rgb8 3 0 0)])
    (TexId 0) = Some Sample.blue /\
  Gif.findBestMatch CONFIG_gif (to_rgb (Rgb8 0 0 0))
    (candidate8 <$> [(Sample.red, Rgb8 10 0 0); (Sample.blue, Rgb8 8 0 0)])
    (TexId 0) = Some Sample.red.
Proof.
  split.
  - destruct (findBestMatch_hysteresis_euclidean CONFIG_gif (Rgb8 0 0 0)
                [(Sample.red, Rgb8 20 0 0); (Sample.blue, Rgb8 3 0 0)]
                (TexId 0))
      as (before & B & after & Hsplit & Hmin & _ & _ & _ & _ & Hswitch).
    + discriminate.
    + unfold in_range. simpl. lia.
    + repeat (apply List.Forall_cons; [unfold in_range; simpl; lia|]).
      apply List.Forall_nil.
    + assert (HB : B = (Sample.blue, Rgb8 3 0 0)).
      { destruct before as [|c0 [|c1 before]].
        - injection Hsplit as <- _.
          specialize (Hmin (Sample.blue, Rgb8 3 0 0)).
          vm_compute in Hmin. exfalso. apply Hmin; [|reflexivity].
          apply list_elem_of_further, list_elem_of_here.
        - injection Hsplit as _ <- _. reflexivity.
        - destruct before; discriminate Hsplit. }
      subst B.
      destruct (Hswitch 0 [] (Sample.red, Rgb8 20 0 0)
                  [(Sample.blue, Rgb8 3 0 0)]) as [Hiff _].
      * reflexivity.
      * discriminate.
      * reflexivity.
      * reflexivity.
      * intros c Hc. apply elem_of_nil in Hc. destruct Hc.
      * apply Hiff. vm_compute. reflexivity.
  - destruct (findBestMatch_hysteresis_euclidean CONFIG_gif (Rgb8 0 0 0)
                [(Sample.red, Rgb8 10 0 0); (Sample.blue, Rgb8 8 0 0)]
                (TexId 0))
      as (before & B & after & Hsplit & Hmin & _ & _ & _ & _ & Hswitch).
    + discriminate.
    + unfold in_range. simpl. lia.
    + repeat (apply List.Forall_cons; [unfold in_range; simpl; lia|]).
      apply List.Forall_nil.
    + assert (HB : B = (Sample.blue, Rgb8 8 0 0)).
      { destruct before as [|c0 [|c1 before]].
        - injection Hsplit as <- _.
          specialize (Hmin (Sample.blue, Rgb8 8 0 0)).
          vm_compute in Hmin. exfalso. apply Hmin; [|reflexivity].
          apply list_elem_of_further, list_elem_of_here.
        - injection Hsplit as _ <- _. reflexivity.
        - destruct before; discriminate Hsplit. }
      subst B.
      destruct (Hswitch 0 [] (Sample.red, Rgb8 10 0 0)
                  [(Sample.blue, Rgb8 8 0 0)]) as [_ Hkeep].
      * reflexivity.
      * discriminate.
      * reflexivity.
      * reflexivity.
      * intros c Hc. apply elem_of_nil in Hc. destruct Hc.
      * apply Hkeep. vm_compute. reflexivity.
Defined.

End ByteSpec.

(* ================================================================== *)
(** * Part XX: a job from the index to the blueprint *)
(* ================================================================== *)

Module Scenario.

(** The scenario of the specification: a 2 x 1 image, pure red then pure
    blue, over an index with a plain red and a plain blue texture.  The
    choices are the two textures in turn, and the blueprint decodes to the
    smallest block id of each (7 for red, 3 for blue). *)
Example red_then_blue :
  let CONFIG := CONFIG_still in
  let index := TextureData [Sample.red; Sample.blue]
                 (face_index Sample.index) in
  exists candidates,
    loadAndPrepareCandidates CONFIG index = Returns candidates /\
    Gif.processImageFrame CONFIG [[Rgb 255 0 0; Rgb 0 0 255]] candidates None
      = Returns [[TexId 0; TexId 1]] /\
    generateBlueprintFiles [[TexId 0; TexId 1]] (texture_palette index)
      = Returns (Some (Blueprint [0xE000 + 7; 0xE000 + 3] 2 1)).
Proof.
  eexists. split; [vm_compute; reflexivity|].
  split; vm_compute; reflexivity.
Qed.

End Scenario.

(* ================================================================== *)
(** * Part XXI: the histogram of a texture *)
(* ================================================================== *)

Module AnalyzerFacts.
Import Indexer Analyzer UniformFacts.

(** ** The stable sort by decreasing count *)

Lemma sort_insert_Permutation {A : Type} (cmp : A -> A -> Z) (x : A)
  (l : list A) : sort_insert cmp x l ≡ₚ x :: l.
Proof.
  induction l as [|y l IH]; simpl; [reflexivity|].
  destruct (0 <? cmp x y); [|reflexivity].
  rewrite IH. apply Permutation_swap.
Qed.

Lemma sort_by_Permutation {A : Type} (cmp : A -> A -> Z) (l : list A) :
  sort_by cmp l ≡ₚ l.
Proof.
  unfold sort_by. induction l as [|x l IH]; simpl; [reflexivity|].
  rewrite sort_insert_Permutation, IH. reflexivity.
Qed.

Lemma sort_insert_descending (x : string * Z) (l : list (string * Z)) :
  Sorted (fun a b => snd b <= snd a) l ->
  Sorted (fun a b => snd b <= snd a) (sort_insert by_count x l).
Proof.
  induction l as [|y l IH]; simpl; intros Hl.
  - repeat constructor.
  - unfold by_count at 1. destruct (Z.ltb_spec 0 (snd y - snd x)).
    + apply Sorted_inv in Hl as [Hl Hhd]. constructor; [apply IH, Hl|].
      destruct l as [|z l]; simpl.
      * constructor. lia.
      * unfold by_count at 1. destruct (Z.ltb_spec 0 (snd z - snd x)).
        -- constructor. apply HdRel_inv in Hhd. exact Hhd.
        -- constructor. lia.
    + constructor; [exact Hl|]. constructor. lia.
Qed.

Lemma sort_by_descending (l : list (string * Z)) :
  Sorted (fun a b => snd b <= snd a) (sort_by by_count l).
Proof.
  unfold sort_by. induction l as [|x l IH]; simpl; [constructor|].
  apply sort_insert_descending, IH.
Qed.

(** ** Counting a colour *)

Lemma count_color_keys (key : string) (cc : list (string * Z)) :
  fst <$> count_color key cc
    = if bool_decide (key ∈ fst <$> cc) then fst <$> cc
      else (fst <$> cc) ++ [key].
Proof.
  induction cc as [|[k n] cc IH].
  - case_bool_decide as Hin; [|reflexivity].
    apply elem_of_nil in Hin. destruct Hin.
  - cbn [count_color]. destruct (String.eqb_spec k key) as [->|Hne].
    + rewrite bool_decide_eq_true_2; [reflexivity|].
      rewrite fmap_cons. apply elem_of_cons. auto.
    + rewrite !fmap_cons, IH. cbn [fst].
      case_bool_decide as Hin.
      * rewrite bool_decide_eq_true_2; [reflexivity|].
        apply elem_of_cons. auto.
      * rewrite bool_decide_eq_false_2; [reflexivity|].
        rewrite elem_of_cons. intros [Heq|Hin']; [congruence | auto].
Qed.

Lemma count_color_NoDup (key : string) (cc : list (string * Z)) :
  NoDup (fst <$> cc) -> NoDup (fst <$> count_color key cc).
Proof.
  intros Hnd. rewrite count_color_keys.
  destruct (bool_decide (key ∈ fst <$> cc)) eqn:Hin; [exact Hnd|].
  apply bool_decide_eq_false_1 in Hin.
  apply NoDup_app. split; [exact Hnd|]. split.
  - intros k Hk Hk'. apply list_elem_of_singleton in Hk'. subst. auto.
  - apply NoDup_singleton.
Qed.

Lemma count_color_tally (key key' : string) (cc : list (string * Z)) :
  tally key' (count_color key cc)
    = tally key' cc + (if String.eqb key key' then 1 else 0).
Proof.
  unfold tally. induction cc as [|[k n] cc IH]; simpl.
  - destruct (String.eqb key key'); reflexivity.
  - destruct (String.eqb_spec k key) as [->|Hne]; simpl.
    + destruct (String.eqb key key'); simpl; lia.
    + destruct (String.eqb_spec k key') as [->|Hne'].
      * destruct (String.eqb_spec key key'); [congruence | lia].
      * exact IH.
Qed.

Lemma count_color_positive (key : string) (cc : list (string * Z)) :
  Forall (fun e => 1 <= snd e) cc ->
  Forall (fun e => 1 <= snd e) (count_color key cc).
Proof.
  induction cc as [|[k n] cc IH]; simpl; intros Hcc.
  - constructor; [simpl; lia | constructor].
  - apply Forall_cons in Hcc as [Hn Hcc]. simpl in Hn.
    destruct (String.eqb k key); constructor; simpl; auto; lia.
Qed.

Lemma count_color_total (key : string) (cc : list (string * Z)) :
  foldr Z.add 0 (snd <$> count_color key cc)
    = foldr Z.add 0 (snd <$> cc) + 1.
Proof.
  induction cc as [|[k n] cc IH]; cbn [count_color]; [reflexivity|].
  destruct (String.eqb k key); rewrite !fmap_cons; cbn [foldr snd];
    [lia | rewrite IH; lia].
Qed.

(** ** The keys *)

Lemma channel_round_trip_all (c : Byte.byte) : channel_round_trip c = true.
Proof. destruct c; vm_compute; reflexivity. Qed.

Lemma channel_hex_digits (c : Byte.byte) :
  exists d1 d2,
    channel_hex c = String d1 (String d2 EmptyString) /\
    is_hex_digit d1 = true /\ is_hex_digit d2 = true /\
    channel_of d1 d2 = of_Z (byte_value c).
Proof.
  pose proof (channel_round_trip_all c) as Hc. unfold channel_round_trip in Hc.
  destruct (channel_hex c) as [|d1 [|d2 [|]]]; try discriminate.
  apply andb_true_iff in Hc as [Hd Hv]. apply andb_true_iff in Hd as [Hd1 Hd2].
  apply FloatAxioms.Leibniz.eqb_spec in Hv. eauto 6.
Qed.

Lemma hex_key_digits (r g b : Byte.byte) :
  exists r1 r2 g1 g2 b1 b2,
    hex_key r g b
      = String "#" (String r1 (String r2 (String g1 (String g2
          (String b1 (String b2 EmptyString)))))) /\
    forallb is_hex_digit [r1; r2; g1; g2; b1; b2] = true /\
    channel_of r1 r2 = of_Z (byte_value r) /\
    channel_of g1 g2 = of_Z (byte_value g) /\
    channel_of b1 b2 = of_Z (byte_value b).
Proof.
  destruct (channel_hex_digits r) as (r1 & r2 & Hr & Hr1 & Hr2 & Hrv).
  destruct (channel_hex_digits g) as (g1 & g2 & Hg & Hg1 & Hg2 & Hgv).
  destruct (channel_hex_digits b) as (b1 & b2 & Hb & Hb1 & Hb2 & Hbv).
  exists r1, r2, g1, g2, b1, b2. unfold hex_key. rewrite Hr, Hg, Hb.
  split; [reflexivity|]. split; [|auto].
  cbn [forallb]. rewrite Hr1, Hr2, Hg1, Hg2, Hb1, Hb2. reflexivity.
Qed.

Lemma hex_key_is_hex_color (r g b : Byte.byte) :
  is_hex_color (hex_key r g b) = true.
Proof.
  destruct (hex_key_digits r g b)
    as (r1 & r2 & g1 & g2 & b1 & b2 & -> & Hd & _).
  unfold is_hex_color. rewrite Hd. reflexivity.
Qed.

(** The key the analyzer writes for a colour denotes that colour. *)
Lemma channel_hex_number (c : Byte.byte) :
  exists d1 d2,
    channel_hex c = String d1 (String d2 EmptyString) /\
    channel_number d1 d2 = Some (byte_value c).
Proof.
  assert (Hc : channel_written c = true)
    by (destruct c; vm_compute; reflexivity).
  unfold channel_written in Hc.
  destruct (channel_hex c) as [|d1 [|d2 [|]]]; try discriminate.
  destruct (channel_number d1 d2) as [n|] eqn:Hn; [|discriminate].
  apply Z.eqb_eq in Hc. subst n. exists d1, d2. auto.
Qed.

Lemma hex_key_denoted (r g b : Byte.byte) :
  denoted_color (hex_key r g b)
    = Some (Rgb8 (byte_value r) (byte_value g) (byte_value b)).
Proof.
  destruct (channel_hex_number r) as (r1 & r2 & Hr & Hrv).
  destruct (channel_hex_number g) as (g1 & g2 & Hg & Hgv).
  destruct (channel_hex_number b) as (b1 & b2 & Hb & Hbv).
  unfold hex_key. rewrite Hr, Hg, Hb.
  change (denoted_color
            (String "#" (String r1 (String r2 (String g1 (String g2
               (String b1 (String b2 EmptyString)))))))
          = Some (Rgb8 (byte_value r) (byte_value g) (byte_value b))).
  unfold denoted_color. rewrite Hrv, Hgv, Hbv. reflexivity.
Qed.

Lemma hexToRgb_hex_key (r g b : Byte.byte) :
  hexToRgb (hex_key r g b)
    = Some (to_rgb (Rgb8 (byte_value r) (byte_value g) (byte_value b))).
Proof.
  destruct (hex_key_digits r g b)
    as (r1 & r2 & g1 & g2 & b1 & b2 & Hkey & Hd & Hr & Hg & Hb).
  destruct (hex_color_inv (hex_key r g b) (hex_key_is_hex_color r g b))
    as (c1 & c2 & c3 & c4 & c5 & c6 & Hkey' & Hrgb & _).
  rewrite Hkey in Hkey'. injection Hkey' as <- <- <- <- <- <-.
  rewrite Hrgb, Hr, Hg, Hb. reflexivity.
Qed.

Lemma byte_value_range (c : Byte.byte) : 0 <= byte_value c <= 255.
Proof.
  unfold byte_value. pose proof (Byte.to_N_bounded c). lia.
Qed.

Lemma all_bytes_In (c : Byte.byte) : In c all_bytes.
Proof.
  assert (H : existsb (Byte.eqb c) all_bytes = true)
    by (destruct c; vm_compute; reflexivity).
  apply existsb_exists in H as (c' & Hin & Heq).
  apply Byte.byte_dec_bl in Heq. subst c'. exact Hin.
Qed.

Lemma channel_hex_evaluated :
  forallb (fun c => forallb (channel_hex_distinct c) all_bytes) all_bytes
    = true.
Proof. vm_compute. reflexivity. Qed.

Lemma channel_hex_inj (c c' : Byte.byte) :
  channel_hex c = channel_hex c' -> c = c'.
Proof.
  intros Heq. pose proof channel_hex_evaluated as Hall.
  rewrite forallb_forall in Hall. specialize (Hall c (all_bytes_In c)).
  rewrite forallb_forall in Hall. specialize (Hall c' (all_bytes_In c')).
  unfold channel_hex_distinct in Hall. rewrite Heq, String.eqb_refl in Hall.
  simpl in Hall. apply Byte.byte_dec_bl in Hall. exact Hall.
Qed.

Lemma hex_key_inj (r g b r' g' b' : Byte.byte) :
  hex_key r g b = hex_key r' g' b' -> r = r' /\ g = g' /\ b = b'.
Proof.
  unfold hex_key. intros Heq.
  destruct (channel_hex_digits r) as (r1 & r2 & Hr & _).
  destruct (channel_hex_digits g) as (g1 & g2 & Hg & _).
  destruct (channel_hex_digits b) as (b1 & b2 & Hb & _).
  destruct (channel_hex_digits r') as (r1' & r2' & Hr' & _).
  destruct (channel_hex_digits g') as (g1' & g2' & Hg' & _).
  destruct (channel_hex_digits b') as (b1' & b2' & Hb' & _).
  rewrite Hr, Hg, Hb, Hr', Hg', Hb' in Heq. simpl in Heq.
  injection Heq as <- <- <- <- <- <-.
  rewrite <- Hr' in Hr. rewrite <- Hg' in Hg. rewrite <- Hb' in Hb.
  auto using channel_hex_inj.
Qed.

Lemma pixel_key_cases (img : image) (idx : nat) (key : string) :
  pixel_key img idx = Returns key ->
  key = "#transparent"%string \/ exists r g b, key = hex_key r g b.
Proof.
  unfold pixel_key.
  assert (Hopaque :
    match bitmap_data img !! idx, bitmap_data img !! (idx + 1)%nat,
          bitmap_data img !! (idx + 2)%nat with
    | Some r, Some g, Some b => Returns (hex_key r g b)
    | _, _, _ => Throws TypeError
    end = Returns key ->
    key = "#transparent"%string \/ exists r g b, key = hex_key r g b).
  { destruct (bitmap_data img !! idx) as [r|]; [|discriminate].
    destruct (bitmap_data img !! (idx + 1)%nat) as [g|]; [|discriminate].
    destruct (bitmap_data img !! (idx + 2)%nat) as [b|]; [|discriminate].
    intros [= <-]. right. eauto. }
  destruct (bitmap_data img !! (idx + 3)%nat) as [a|]; [|exact Hopaque].
  destruct (Byte.to_N a <? 255)%N; [|exact Hopaque].
  intros [= <-]. left. reflexivity.
Qed.

Lemma hex_color_opaque (hex : string) :
  is_hex_color hex = true -> String.eqb hex "#transparent" = false.
Proof.
  intros Hhex. destruct (String.eqb_spec hex "#transparent") as [->|];
    [discriminate | reflexivity].
Qed.

(** ** The scan *)

Lemma scan_callback_key (img : image) (st st' : scanned_colors) (idx : nat) :
  scan_callback img st idx = Returns st' ->
  exists key,
    pixel_key img idx = Returns key /\
    colorCounts st' = count_color key (colorCounts st) /\
    seenTransparency st'
      = seenTransparency st || String.eqb key "#transparent".
Proof.
  unfold scan_callback, pixel_key.
  assert (Hopaque :
    match bitmap_data img !! idx, bitmap_data img !! (idx + 1)%nat,
          bitmap_data img !! (idx + 2)%nat with
    | Some r, Some g, Some b =>
        Returns (ScannedColors (count_color (hex_key r g b) (colorCounts st))
                   (seenTransparency st))
    | _, _, _ => Throws TypeError
    end = Returns st' ->
    exists key,
      match bitmap_data img !! idx, bitmap_data img !! (idx + 1)%nat,
            bitmap_data img !! (idx + 2)%nat with
      | Some r, Some g, Some b => Returns (hex_key r g b)
      | _, _, _ => Throws TypeError
      end = Returns key /\
      colorCounts st' = count_color key (colorCounts st) /\
      seenTransparency st'
        = seenTransparency st || String.eqb key "#transparent").
  { destruct (bitmap_data img !! idx) as [r|]; [|discriminate].
    destruct (bitmap_data img !! (idx + 1)%nat) as [g|]; [|discriminate].
    destruct (bitmap_data img !! (idx + 2)%nat) as [b|]; [|discriminate].
    intros [= <-]. exists (hex_key r g b). split; [reflexivity|].
    split; [reflexivity|]. cbn [seenTransparency].
    rewrite (hex_color_opaque _ (hex_key_is_hex_color r g b)), orb_false_r.
    reflexivity. }
  destruct (bitmap_data img !! (idx + 3)%nat) as [a|]; [|exact Hopaque].
  destruct (Byte.to_N a <? 255)%N; [|exact Hopaque].
  intros [= <-]. exists "#transparent"%string. split; [reflexivity|].
  split; [reflexivity|]. simpl. rewrite orb_true_r. reflexivity.
Qed.

(** What the scan leaves in [colorCounts] and [hasTransparency]: the keys
    of the pixels, counted one after the other. *)
Lemma scan_keys (img : image) (idxs : list nat) :
  forall st st',
    for_of (scan_callback img) idxs st = Returns st' ->
    exists keys,
      Forall2 (fun idx key => pixel_key img idx = Returns key) idxs keys /\
      colorCounts st'
        = fold_left (fun cc key => count_color key cc) keys (colorCounts st) /\
      seenTransparency st'
        = seenTransparency st
          || existsb (fun key => String.eqb key "#transparent") keys.
Proof.
  induction idxs as [|idx idxs IH]; intros st st'; simpl.
  - intros [= <-]. exists []. split; [constructor|].
    split; [reflexivity|]. simpl. rewrite orb_false_r. reflexivity.
  - destruct (scan_callback img st idx) as [st1|e] eqn:Hstep; simpl;
      [|discriminate].
    intros Hrest. apply IH in Hrest as (keys & Hkeys & Hcc & Htr).
    apply scan_callback_key in Hstep as (key & Hkey & Hcc1 & Htr1).
    exists (key :: keys). split; [constructor; assumption|].
    split.
    + simpl. rewrite <- Hcc1. exact Hcc.
    + simpl. rewrite Htr, Htr1, orb_assoc. reflexivity.
Qed.

Lemma tally_fold (key : string) (keys : list string) :
  forall cc,
    tally key (fold_left (fun cc key => count_color key cc) keys cc)
      = tally key cc
        + Z.of_nat (length (List.filter (fun k => String.eqb k key) keys)).
Proof.
  induction keys as [|k keys IH]; intros cc; simpl; [lia|].
  rewrite IH, count_color_tally.
  destruct (String.eqb k key); simpl length; lia.
Qed.

Lemma keys_fold_NoDup (keys : list string) :
  forall cc,
    NoDup (fst <$> cc) ->
    NoDup (fst <$> fold_left (fun cc key => count_color key cc) keys cc).
Proof.
  induction keys as [|k keys IH]; intros cc Hcc; simpl; [exact Hcc|].
  apply IH, count_color_NoDup, Hcc.
Qed.

Lemma keys_fold_positive (keys : list string) :
  forall cc,
    Forall (fun e => 1 <= snd e) cc ->
    Forall (fun e => 1 <= snd e)
      (fold_left (fun cc key => count_color key cc) keys cc).
Proof.
  induction keys as [|k keys IH]; intros cc Hcc; simpl; [exact Hcc|].
  apply IH, count_color_positive, Hcc.
Qed.

Lemma keys_fold_total (keys : list string) :
  forall cc,
    foldr Z.add 0 (snd <$> fold_left (fun cc key => count_color key cc) keys cc)
      = foldr Z.add 0 (snd <$> cc) + Z.of_nat (length keys).
Proof.
  induction keys as [|k keys IH]; intros cc; simpl length; simpl fold_left;
    [lia|].
  rewrite IH, count_color_total. lia.
Qed.

Lemma keys_fold_elem (keys : list string) :
  forall cc key,
    key ∈ fst <$> fold_left (fun cc key => count_color key cc) keys cc <->
    key ∈ (fst <$> cc) \/ key ∈ keys.
Proof.
  induction keys as [|k keys IH]; intros cc key; simpl.
  - rewrite elem_of_nil. tauto.
  - rewrite IH, count_color_keys, elem_of_cons.
    case_bool_decide as Hin.
    + split; [tauto|]. intros [H|[->|H]]; auto.
    + rewrite elem_of_app, list_elem_of_singleton. tauto.
Qed.

(** The keys counted are those of the pixels. *)
Lemma pixels_with_keys (img : image) (idxs : list nat) (keys : list string)
  (key : string) :
  Forall2 (fun idx k => pixel_key img idx = Returns k) idxs keys ->
  length (List.filter
    (fun idx => match pixel_key img idx with
                | Returns k => String.eqb k key
                | Throws _ => false
                end) idxs)
    = length (List.filter (fun k => String.eqb k key) keys).
Proof.
  induction 1 as [|idx k idxs keys Hk _ IH]; simpl; [reflexivity|].
  rewrite Hk. destruct (String.eqb k key); simpl; rewrite IH; reflexivity.
Qed.

Lemma filter_length_positive (keys : list string) (key : string) :
  key ∈ keys <->
  (0 < length (List.filter (fun k => String.eqb k key) keys))%nat.
Proof.
  induction keys as [|k keys IH]; simpl.
  - rewrite elem_of_nil. lia.
  - rewrite elem_of_cons. destruct (String.eqb_spec k key) as [->|Hne]; simpl.
    + split; [lia | auto].
    + rewrite <- IH. split; [intros [Heq|H]; [congruence | exact H] | auto].
Qed.

(** The tally of a histogram with distinct keys does not depend on the
    order of its entries. *)
Lemma tally_elem (key : string) (cc : list (string * Z)) (n : Z) :
  NoDup (fst <$> cc) -> (key, n) ∈ cc -> tally key cc = n.
Proof.
  unfold tally. induction cc as [|[k m] cc IH]; intros Hnd Hin.
  - apply elem_of_nil in Hin. destruct Hin.
  - rewrite fmap_cons in Hnd. apply NoDup_cons in Hnd as [Hk Hnd].
    apply elem_of_cons in Hin as [[= <- <-]|Hin]; simpl.
    + rewrite String.eqb_refl. reflexivity.
    + destruct (String.eqb_spec k key) as [->|Hne]; simpl.
      * exfalso. apply Hk. apply list_elem_of_fmap. exists (key, n).
        split; [reflexivity | exact Hin].
      * apply IH; assumption.
Qed.

Lemma tally_absent (key : string) (cc : list (string * Z)) :
  key ∉ fst <$> cc -> tally key cc = 0.
Proof.
  unfold tally. induction cc as [|[k m] cc IH]; intros Hout; simpl;
    [reflexivity|].
  rewrite fmap_cons, not_elem_of_cons in Hout. destruct Hout as [Hne Hout].
  simpl in Hne. destruct (String.eqb_spec k key); [congruence|].
  apply IH, Hout.
Qed.

Lemma tally_Permutation (key : string) (cc cc' : list (string * Z)) :
  NoDup (fst <$> cc) -> cc ≡ₚ cc' -> tally key cc = tally key cc'.
Proof.
  intros Hnd Hperm.
  assert (Hnd' : NoDup (fst <$> cc')) by (rewrite <- Hperm; exact Hnd).
  destruct (decide (key ∈ fst <$> cc)) as [Hin|Hout].
  - apply list_elem_of_fmap in Hin as ([k n] & -> & Hin). simpl.
    rewrite (tally_elem k cc n Hnd Hin).
    symmetry. apply tally_elem; [exact Hnd'|]. rewrite <- Hperm. exact Hin.
  - rewrite (tally_absent key cc Hout). symmetry. apply tally_absent.
    rewrite <- Hperm. exact Hout.
Qed.

Lemma total_Permutation (cc cc' : list (string * Z)) :
  cc ≡ₚ cc' ->
  foldr Z.add 0 (snd <$> cc) = foldr Z.add 0 (snd <$> cc').
Proof.
  induction 1 as [|e l l' _ IH|e1 e2 l|l1 l2 l3 _ IH1 _ IH2];
    rewrite ?fmap_cons; cbn [foldr]; [reflexivity | lia | lia | congruence].
Qed.

(** ** What [analyzeImage] returns *)

Lemma analyzeImage_inv (img : image) (a : analysis) :
  analyzeImage img = Returns a ->
  exists keys sorted,
    Forall2 (fun idx key => pixel_key img idx = Returns key)
      (scan_offsets img) keys /\
    sorted ≡ₚ fold_left (fun cc key => count_color key cc) keys [] /\
    Sorted (fun e1 e2 => snd e2 <= snd e1) sorted /\
    a = Analysis (existsb (fun key => String.eqb key "#transparent") keys)
          (Z.of_nat (length (fst <$> sorted)))
          (fst <$> sorted) (snd <$> sorted).
Proof.
  unfold analyzeImage.
  destruct (for_of (scan_callback img) (scan_offsets img)
              (ScannedColors [] false)) as [st|e] eqn:Hscan; simpl;
    [|discriminate].
  intros [= <-].
  apply scan_keys in Hscan as (keys & Hkeys & Hcc & Htr). simpl in Hcc, Htr.
  exists keys, (sort_by by_count (colorCounts st)).
  split; [exact Hkeys|]. split; [rewrite <- Hcc; apply sort_by_Permutation|].
  split; [apply sort_by_descending|]. rewrite Htr. reflexivity.
Qed.

Lemma scan_returns (img : image) (idxs : list nat) :
  Forall (fun idx => (idx + 2 < length (bitmap_data img))%nat) idxs ->
  forall st, exists st', for_of (scan_callback img) idxs st = Returns st'.
Proof.
  induction 1 as [|idx idxs Hidx _ IH]; intros st; simpl; [eauto|].
  assert (Hstep : exists st1, scan_callback img st idx = Returns st1).
  { unfold scan_callback.
    destruct (lookup_lt_is_Some_2 (bitmap_data img) idx) as [r ->]; [lia|].
    destruct (lookup_lt_is_Some_2 (bitmap_data img) (idx + 1)) as [g ->];
      [lia|].
    destruct (lookup_lt_is_Some_2 (bitmap_data img) (idx + 2)) as [b ->];
      [lia|].
    destruct (bitmap_data img !! (idx + 3)%nat) as [a|]; [|eauto].
    destruct (Byte.to_N a <? 255)%N; eauto. }
  destruct Hstep as [st1 ->]. simpl. apply IH.
Qed.

Lemma scan_offsets_length (img : image) :
  length (scan_offsets img) = 64%nat.
Proof. reflexivity. Qed.

Lemma scan_offsets_bound (img : image) :
  bitmap_width img = 8%nat ->
  Forall (fun idx => (idx + 2 < 255)%nat) (scan_offsets img).
Proof.
  intros Hw. unfold scan_offsets. rewrite Hw.
  apply Forall_forall. intros idx Hidx. vm_compute in Hidx.
  repeat (apply elem_of_cons in Hidx as [->|Hidx]; [lia|]).
  apply elem_of_nil in Hidx. destruct Hidx.
Qed.

(** ** A texture of one colour *)

Lemma count_color_repeat (key : string) (n : nat) :
  forall count,
    fold_left (fun cc key => count_color key cc) (repeat key n)
      [(key, count)] = [(key, count + Z.of_nat n)].
Proof.
  induction n as [|n IH]; intros count; simpl repeat; simpl fold_left.
  - rewrite Z.add_0_r. reflexivity.
  - cbn [count_color]. rewrite String.eqb_refl, IH. f_equal. f_equal. lia.
Qed.

Lemma plain_image_keys (r g b : Byte.byte) :
  Forall (fun idx => pixel_key (plain_image r g b) idx
                     = Returns (hex_key r g b))
    (scan_offsets (plain_image r g b)).
Proof.
  let offsets := eval vm_compute in (scan_offsets (plain_image r g b)) in
  change (scan_offsets (plain_image r g b)) with offsets.
  repeat (apply List.Forall_cons; [reflexivity|]). apply List.Forall_nil.
Qed.

Lemma Forall2_constant {A B : Type} (P : A -> B -> Prop) (b : B)
  (xs : list A) (ys : list B) :
  Forall2 P xs ys -> (forall x y, x ∈ xs -> P x y -> y = b) ->
  ys = repeat b (length xs).
Proof.
  induction 1 as [|x y xs ys Hxy _ IH]; intros Hb; simpl; [reflexivity|].
  rewrite (Hb x y); [|apply elem_of_cons; auto | exact Hxy].
  rewrite IH; [reflexivity|].
  intros x' y' Hx'. apply Hb. apply elem_of_cons. auto.
Qed.

Lemma analyzeImage_plain (r g b : Byte.byte) :
  analyzeImage (plain_image r g b)
    = Returns (Analysis false 1 [hex_key r g b]
                 [TEXTURE_SIZE * TEXTURE_SIZE]).
Proof.
  destruct (scan_returns (plain_image r g b)
              (scan_offsets (plain_image r g b)))
    with (st := ScannedColors [] false) as [st Hst].
  { eapply Forall_impl; [apply scan_offsets_bound; reflexivity|].
    simpl. intros idx Hidx.
    change (length _) with 256%nat. lia. }
  assert (Ha : exists a, analyzeImage (plain_image r g b) = Returns a).
  { unfold analyzeImage. rewrite Hst. simpl. eauto. }
  destruct Ha as [a Ha]. rewrite Ha. f_equal.
  apply analyzeImage_inv in Ha as (keys & sorted & Hkeys & Hperm & _ & ->).
  assert (Hrepeat : keys = repeat (hex_key r g b) 64).
  { rewrite (Forall2_constant _ (hex_key r g b) _ _ Hkeys);
      [rewrite scan_offsets_length; reflexivity|].
    intros idx key Hidx Hkey.
    pose proof (plain_image_keys r g b) as Hall.
    rewrite Forall_forall in Hall. rewrite (Hall idx Hidx) in Hkey.
    congruence. }
  rewrite Hrepeat in Hperm |- *.
  change (repeat (hex_key r g b) 64)
    with (hex_key r g b :: repeat (hex_key r g b) 63) in Hperm.
  cbn [fold_left count_color] in Hperm.
  rewrite count_color_repeat in Hperm.
  apply Permutation_singleton_r in Hperm. subst sorted.
  assert (Hopaque :
    existsb (fun key => String.eqb key "#transparent")
      (repeat (hex_key r g b) 64) = false).
  { apply not_true_is_false. intros H.
    apply existsb_exists in H as (key & Hin & Hkey).
    apply repeat_spec in Hin. subst key.
    rewrite (hex_color_opaque _ (hex_key_is_hex_color r g b)) in Hkey.
    discriminate. }
  rewrite Hopaque. reflexivity.
Qed.

End AnalyzerFacts.

Module AnalyzerSpec.
Import Indexer Analyzer AnalyzerFacts UniformFacts.

(** X1.  On a texture image that holds its 64 pixels [analyzeTexture] does not
    fail, and its histogram accounts for every pixel: the counts are
    positive, they add up to [TEXTURE_SIZE * TEXTURE_SIZE], they come in
    decreasing order, and there is one count per hex, [colorCount] of
    them. *)
Theorem analyzeImage_counts_every_pixel (textureImage : image) :
  bitmap_width textureImage = Z.to_nat TEXTURE_SIZE ->
  (256 <= length (bitmap_data textureImage))%nat ->
  exists a,
    analyzeImage textureImage = Returns a /\
    foldr Z.add 0 (an_colorPixelCounts a) = TEXTURE_SIZE * TEXTURE_SIZE /\
    Forall (fun count => 1 <= count) (an_colorPixelCounts a) /\
    Sorted (fun count next => next <= count) (an_colorPixelCounts a) /\
    length (an_colorPixelCounts a) = length (an_colorHexes a) /\
    an_colorCount a = Z.of_nat (length (an_colorHexes a)).
Proof.
  intros Hwidth Hdata.
  assert (Hret : exists a, analyzeImage textureImage = Returns a).
  { unfold analyzeImage.
    destruct (scan_returns textureImage (scan_offsets textureImage))
      with (st := ScannedColors [] false) as [st ->]; [|simpl; eauto].
    eapply Forall_impl; [apply scan_offsets_bound, Hwidth|].
    simpl. intros idx Hidx. lia. }
  destruct Hret as [a Ha]. exists a. split; [exact Ha|].
  apply analyzeImage_inv in Ha as (keys & sorted & Hkeys & Hperm & Hsorted & ->).
  cbn [an_colorPixelCounts an_colorHexes an_colorCount].
  split; [|split; [|split; [|split]]].
  - rewrite (total_Permutation _ _ Hperm), keys_fold_total. simpl.
    rewrite <- (Forall2_length _ _ _ Hkeys), scan_offsets_length.
    reflexivity.
  - apply Forall_fmap. rewrite Hperm.
    apply (keys_fold_positive keys []). constructor.
  - clear Hperm. induction Hsorted as [|e l Hl IH Hhd]; [constructor|].
    rewrite fmap_cons. constructor; [exact IH|].
    destruct Hhd; constructor. assumption.
  - rewrite !length_fmap. reflexivity.
  - reflexivity.
Qed.

Lemma analyzeImage_counts_every_pixel_witness :
  exists a,
    analyzeImage Swatch.two_tone = Returns a /\
    foldr Z.add 0 (an_colorPixelCounts a) = TEXTURE_SIZE * TEXTURE_SIZE /\
    Forall (fun count => 1 <= count) (an_colorPixelCounts a) /\
    Sorted (fun count next => next <= count) (an_colorPixelCounts a) /\
    length (an_colorPixelCounts a) = length (an_colorHexes a) /\
    an_colorCount a = Z.of_nat (length (an_colorHexes a)).
Proof.
  apply (analyzeImage_counts_every_pixel Swatch.two_tone).
  - reflexivity.
  - vm_compute. lia.
Defined.

Example analyzeImage_two_tone :
  analyzeImage Swatch.two_tone
    = Returns (Analysis true 3 ["#102030"; "#405060"; "#transparent"]%string
                 [32; 24; 8]).
Proof. vm_compute. reflexivity. Qed.

(** X2.  The histogram [analyzeTexture] returns lists every colour once, and
    holds for each key the number of scanned pixels that have it: a key
    is listed exactly when some pixel has it. *)
Theorem analyzeImage_histogram (textureImage : image) (a : analysis) :
  analyzeImage textureImage = Returns a ->
  NoDup (an_colorHexes a) /\
  forall key,
    tally key (histogram a) = pixels_with textureImage key /\
    (key ∈ an_colorHexes a <-> 0 < pixels_with textureImage key).
Proof.
  intros Ha.
  apply analyzeImage_inv in Ha as (keys & sorted & Hkeys & Hperm & _ & ->).
  unfold histogram. cbn [an_colorPixelCounts an_colorHexes].
  rewrite zip_fst_snd.
  assert (Hnd : NoDup (fst <$> sorted)).
  { rewrite Hperm. apply (keys_fold_NoDup keys []). constructor. }
  split; [exact Hnd|]. intros key. unfold pixels_with.
  rewrite (pixels_with_keys _ _ keys key Hkeys). split.
  - rewrite (tally_Permutation key _ _ Hnd Hperm), tally_fold.
    reflexivity.
  - rewrite Hperm, keys_fold_elem, (filter_length_positive keys).
    split; [intros [Hnil|H]; [|lia] | intros H; right; lia].
    apply elem_of_nil in Hnil. destruct Hnil.
Qed.

Lemma analyzeImage_histogram_witness :
  NoDup ["#102030"; "#405060"; "#transparent"]%string /\
  forall key,
    tally key [("#102030", 32); ("#405060", 24); ("#transparent", 8)]%string
      = pixels_with Swatch.two_tone key /\
    (key ∈ ["#102030"; "#405060"; "#transparent"]%string <->
     0 < pixels_with Swatch.two_tone key).
Proof.
  apply (analyzeImage_histogram Swatch.two_tone
           (Analysis true 3 ["#102030"; "#405060"; "#transparent"]%string
              [32; 24; 8])).
  vm_compute. reflexivity.
Defined.

(** X3.  [hasTransparency] tells whether the transparent key is listed; every
    other key of the histogram is [#] and six hex digits, which
    [hexToRgb] of the bloxelizers reads as a colour with byte channels. *)
Theorem analyzeImage_keys (textureImage : image) (a : analysis) :
  analyzeImage textureImage = Returns a ->
  (an_hasTransparency a = true <->
   "#transparent"%string ∈ an_colorHexes a) /\
  forall hex,
    hex ∈ an_colorHexes a -> hex <> "#transparent"%string ->
    is_hex_color hex = true /\
    exists color, in_range color /\ hexToRgb hex = Some (to_rgb color).
Proof.
  intros Ha.
  apply analyzeImage_inv in Ha as (keys & sorted & Hkeys & Hperm & _ & ->).
  cbn [an_hasTransparency an_colorHexes].
  assert (Hin : forall key, key ∈ fst <$> sorted <-> key ∈ keys).
  { intros key. rewrite Hperm, keys_fold_elem. split; [|auto].
    intros [Hnil|H]; [|exact H]. apply elem_of_nil in Hnil. destruct Hnil. }
  split.
  - rewrite Hin, existsb_exists. split.
    + intros (key & Hkey & Heq). apply String.eqb_eq in Heq. subst key.
      apply list_elem_of_In. exact Hkey.
    + intros Hkey. exists "#transparent"%string.
      split; [apply list_elem_of_In; exact Hkey | reflexivity].
  - intros hex Hhex Hopaque. apply Hin in Hhex.
    apply list_elem_of_lookup in Hhex as [i Hi].
    destruct (Forall2_lookup_r _ _ _ _ _ Hkeys Hi) as (idx & _ & Hkey).
    apply pixel_key_cases in Hkey as [->|(r & g & b & ->)]; [congruence|].
    split; [apply hex_key_is_hex_color|].
    exists (Rgb8 (byte_value r) (byte_value g) (byte_value b)).
    split; [|apply hexToRgb_hex_key].
    unfold in_range. cbn [r8 g8 b8].
    auto using byte_value_range.
Qed.

Lemma analyzeImage_keys_witness :
  (true = true <->
   "#transparent"%string ∈ ["#102030"; "#405060"; "#transparent"]%string) /\
  forall hex,
    hex ∈ ["#102030"; "#405060"; "#transparent"]%string ->
    hex <> "#transparent"%string ->
    is_hex_color hex = true /\
    exists color, in_range color /\ hexToRgb hex = Some (to_rgb color).
Proof.
  apply (analyzeImage_keys Swatch.two_tone
           (Analysis true 3 ["#102030"; "#405060"; "#transparent"]%string
              [32; 24; 8])).
  vm_compute. reflexivity.
Defined.

(** X4.  The key the analyzer writes for an opaque pixel is read back by
    [hexToRgb] as the pixel's channels, and pixels of different colours
    get different keys. *)
Theorem hex_key_round_trip (r g b : Byte.byte) :
  hexToRgb (hex_key r g b)
    = Some (Rgb (of_Z (byte_value r)) (of_Z (byte_value g))
                (of_Z (byte_value b))) /\
  forall r' g' b',
    hex_key r g b = hex_key r' g' b' <-> (r = r' /\ g = g' /\ b = b').
Proof.
  split; [apply hexToRgb_hex_key|].
  intros r' g' b'. split; [apply hex_key_inj|].
  intros (-> & -> & ->). reflexivity.
Qed.

(** X5.  A texture of a single opaque colour, from the indexer to the
    bloxelizer: the analysis is that one colour for all 64 pixels, without
    transparency, and a palette entry that carries this histogram has the
    colour of the texture as its perceived colour at every depth from 1
    on. *)
Theorem plain_texture_keeps_its_colour (cr cg cb : Byte.byte)
  (texture : textureInfo) (depth : option nat) :
  match depth with Some d => (1 <= d)%nat | None => True end ->
  exists a,
    analyzeImage (plain_image cr cg cb) = Returns a /\
    an_hasTransparency a = false /\ an_colorCount a = 1 /\
    (colorHexes texture = an_colorHexes a ->
     colorPixelCounts texture = an_colorPixelCounts a ->
     calculatePerceivedColor texture depth
       = Some (to_rgb (Rgb8 (byte_value cr) (byte_value cg) (byte_value cb)))).
Proof.
  intros Hdepth. eexists. split; [apply analyzeImage_plain|].
  cbn [an_hasTransparency an_colorCount an_colorHexes an_colorPixelCounts].
  split; [reflexivity|]. split; [reflexivity|].
  intros Hhexes Hcounts.
  rewrite (perceived_single texture _ _ depth Hhexes Hcounts Hdepth).
  destruct (hex_key_digits cr cg cb)
    as (r1 & r2 & g1 & g2 & b1 & b2 & Hkey & Hd & Hr & Hg & Hb).
  rewrite hexToRgb_hex_key. unfold to_rgb. cbv zeta. cbn [r g b r8 g8 b8].
  cbn [forallb] in Hd. rewrite !andb_true_iff in Hd.
  destruct Hd as (H1 & H2 & H3 & H4 & H5 & H6 & _).
  assert (Hcount : 1 <= TEXTURE_SIZE * TEXTURE_SIZE
                   <= TEXTURE_SIZE * TEXTURE_SIZE) by (unfold TEXTURE_SIZE; lia).
  destruct (channel_mean r1 r2 _ H1 H2 Hcount) as (Hmr & -> & _).
  destruct (channel_mean g1 g2 _ H3 H4 Hcount) as (Hmg & _ & _).
  destruct (channel_mean b1 b2 _ H5 H6 Hcount) as (Hmb & _ & _).
  rewrite Hr in Hmr. rewrite Hg in Hmg. rewrite Hb in Hmb.
  rewrite Hmr, Hmg, Hmb. reflexivity.
Qed.

Lemma plain_texture_keeps_its_colour_witness :
  exists a,
    analyzeImage (plain_image Byte.xff Byte.x00 Byte.x00) = Returns a /\
    an_hasTransparency a = false /\ an_colorCount a = 1 /\
    (colorHexes Sample.red = an_colorHexes a ->
     colorPixelCounts Sample.red = an_colorPixelCounts a ->
     calculatePerceivedColor Sample.red (Some 1%nat)
       = Some (to_rgb (Rgb8 (byte_value Byte.xff) (byte_value Byte.x00)
                         (byte_value Byte.x00)))).
Proof.
  apply (plain_texture_keeps_its_colour Byte.xff Byte.x00 Byte.x00
           Sample.red (Some 1%nat)).
  lia.
Defined.

End AnalyzerSpec.

(* ================================================================== *)
(** * Part XXII: the index the indexer writes *)
(* ================================================================== *)

Module IndexFacts.
Import Indexer.

(** ** The lists of the face index *)

Lemma existsb_eqb_elem (id : Z) (ids : list Z) :
  existsb (Z.eqb id) ids = true <-> id ∈ ids.
Proof.
  rewrite existsb_exists. split.
  - intros (x & Hin & Heq). apply Z.eqb_eq in Heq. subst x.
    apply list_elem_of_In. exact Hin.
  - intros Hin. exists id. split; [apply list_elem_of_In; exact Hin|].
    apply Z.eqb_refl.
Qed.

Lemma with_id_elem (id : Z) (ids : list Z) (x : Z) :
  x ∈ with_id id ids <-> x ∈ ids \/ x = id.
Proof.
  unfold with_id. destruct (existsb (Z.eqb id) ids) eqn:Hin.
  - apply existsb_eqb_elem in Hin. split; [auto|].
    intros [H| ->]; assumption.
  - rewrite elem_of_app, list_elem_of_singleton. reflexivity.
Qed.

Lemma with_id_NoDup (id : Z) (ids : list Z) :
  NoDup ids -> NoDup (with_id id ids).
Proof.
  intros Hnd. unfold with_id. destruct (existsb (Z.eqb id) ids) eqn:Hin;
    [exact Hnd|].
  apply NoDup_app. split; [exact Hnd|]. split; [|apply NoDup_singleton].
  intros x Hx Hx'. apply list_elem_of_singleton in Hx'. subst x.
  apply existsb_eqb_elem in Hx. congruence.
Qed.

Lemma with_id_idem (id : Z) (ids : list Z) :
  with_id id (with_id id ids) = with_id id ids.
Proof.
  unfold with_id at 1.
  replace (existsb (Z.eqb id) (with_id id ids)) with true; [reflexivity|].
  symmetry. apply existsb_eqb_elem, with_id_elem. auto.
Qed.

Lemma color_step_face (id : Z) (face : string)
  (fi : gmap string (gmap string (list Z))) (hex : string)
  (byColor : gmap string (list Z)) :
  fi !! face = Some byColor ->
  color_step id face fi hex
    = <[face := <[hex := with_id id (default [] (byColor !! hex))]> byColor]>
        fi.
Proof. intros Hface. unfold color_step. rewrite Hface. reflexivity. Qed.

(** What the loop over the colours of a texture leaves in the face index. *)
Lemma color_fold (id : Z) (face : string) (hexes : list string) :
  forall fi byColor,
    fi !! face = Some byColor ->
    exists byColor',
      fold_left (color_step id face) hexes fi !! face = Some byColor' /\
      (forall face', face' <> face ->
         fold_left (color_step id face) hexes fi !! face' = fi !! face') /\
      (forall hex,
         byColor' !! hex
           = if bool_decide (hex ∈ hexes)
             then Some (with_id id (default [] (byColor !! hex)))
             else byColor !! hex).
Proof.
  induction hexes as [|hex0 hexes IH]; intros fi byColor Hface;
    cbn [fold_left].
  - exists byColor. split; [exact Hface|]. split; [reflexivity|].
    intros hex. case_bool_decide as Hin; [|reflexivity].
    apply elem_of_nil in Hin. destruct Hin.
  - rewrite (color_step_face id face fi hex0 byColor Hface).
    destruct (IH (<[face := <[hex0 := with_id id (default [] (byColor !! hex0))]>
                              byColor]> fi)
                 (<[hex0 := with_id id (default [] (byColor !! hex0))]> byColor))
      as (byColor' & Hface' & Hother & Hhex).
    { apply lookup_insert_eq. }
    exists byColor'. split; [exact Hface'|]. split.
    + intros face' Hne. rewrite Hother by exact Hne.
      apply lookup_insert_ne. congruence.
    + intros hex. rewrite Hhex.
      destruct (decide (hex = hex0)) as [->|Hne].
      * rewrite lookup_insert_eq. simpl.
        rewrite (bool_decide_eq_true_2 (hex0 ∈ hex0 :: hexes))
          by (apply elem_of_cons; auto).
        case_bool_decide; [rewrite with_id_idem|]; reflexivity.
      * rewrite lookup_insert_ne by congruence.
        case_bool_decide as Hin.
        -- rewrite bool_decide_eq_true_2; [reflexivity|].
           apply elem_of_cons. auto.
        -- rewrite bool_decide_eq_false_2; [reflexivity|].
           rewrite elem_of_cons. intros [?|?]; [congruence | auto].
Qed.

Lemma getSimpleFaceName_faces (complexFaceName : string) :
  getSimpleFaceName complexFaceName <> "unknown"%string ->
  getSimpleFaceName complexFaceName ∈ faces.
Proof.
  unfold getSimpleFaceName, faces.
  destruct (includes complexFaceName "Top"); [intros _; set_solver|].
  destruct (includes complexFaceName "Bottom"); [intros _; set_solver|].
  destruct (includes complexFaceName "Front"); [intros _; set_solver|].
  destruct (includes complexFaceName "Back"); [intros _; set_solver|].
  destruct (includes complexFaceName "Right"); [intros _; set_solver|].
  destruct (includes complexFaceName "Left"); [intros _; set_solver|].
  congruence.
Qed.

Lemma array_get_lookup {A : Type} (a : list A) (i : Z) (x : A) :
  array_get a i = Some x <-> 0 <= i /\ a !! Z.to_nat i = Some x.
Proof.
  unfold array_get. destruct (Z.ltb_spec i 0); split.
  - discriminate.
  - intros [Hi _]. lia.
  - intros Hx. split; [lia | exact Hx].
  - intros [_ Hx]. exact Hx.
Qed.

Lemma array_get_prefix {A : Type} (a a' : list A) (i : Z) (x : A) :
  a `prefix_of` a' -> array_get a i = Some x -> array_get a' i = Some x.
Proof.
  intros Hpre. rewrite !array_get_lookup. intros [Hi Hx].
  split; [exact Hi|]. eapply prefix_lookup_Some; eassumption.
Qed.

(** The face index after a texture was listed on a face. *)
Lemma face_index_update (palette1 : list indexedTexture)
  (fi : gmap string (gmap string (list Z))) (id : Z) (face : string)
  (t : indexedTexture) :
  (forall face, is_Some (fi !! face) <-> face ∈ faces) ->
  (forall face byColor hex ids,
     fi !! face = Some byColor -> byColor !! hex = Some ids ->
     NoDup ids /\
     forall x, x ∈ ids ->
       exists t, array_get palette1 x = Some t /\
                 hex ∈ an_colorHexes (it_analysis t)) ->
  face ∈ faces -> array_get palette1 id = Some t ->
  let fi' := fold_left (color_step id face) (an_colorHexes (it_analysis t))
               fi in
  (forall face, is_Some (fi' !! face) <-> face ∈ faces) /\
  (forall face byColor hex ids,
     fi' !! face = Some byColor -> byColor !! hex = Some ids ->
     NoDup ids /\
     forall x, x ∈ ids ->
       exists t, array_get palette1 x = Some t /\
                 hex ∈ an_colorHexes (it_analysis t)) /\
  (forall face byColor hex ids,
     fi !! face = Some byColor -> byColor !! hex = Some ids ->
     exists byColor' ids',
       fi' !! face = Some byColor' /\ byColor' !! hex = Some ids' /\
       ids ⊆ ids') /\
  (forall hex, hex ∈ an_colorHexes (it_analysis t) ->
     exists byColor ids,
       fi' !! face = Some byColor /\ byColor !! hex = Some ids /\ id ∈ ids).
Proof.
  intros Hfaces Hids Hface Ht fi'.
  destruct (proj2 (Hfaces face) Hface) as [byColor0 Hface0].
  destruct (color_fold id face (an_colorHexes (it_analysis t)) fi byColor0
              Hface0) as (byColor1 & Hface1 & Hother & Hhex).
  fold fi' in Hface1, Hother.
  assert (Hlookup : forall face' byColor hex ids,
    fi' !! face' = Some byColor -> byColor !! hex = Some ids ->
    (face' = face /\ hex ∈ an_colorHexes (it_analysis t) /\
     ids = with_id id (default [] (byColor0 !! hex))) \/
    (exists byColor', fi !! face' = Some byColor' /\
                      byColor' !! hex = Some ids)).
  { intros face' byColor hex ids Hf Hh.
    destruct (decide (face' = face)) as [->|Hne].
    - rewrite Hface1 in Hf. injection Hf as <-. rewrite Hhex in Hh.
      case_bool_decide as Hin.
      + injection Hh as <-. left. auto.
      + right. eauto.
    - rewrite (Hother face' Hne) in Hf. right. eauto. }
  split; [|split; [|split]].
  - intros face'. destruct (decide (face' = face)) as [->|Hne].
    + rewrite Hface1. split; [intros _; exact Hface | eauto].
    + rewrite (Hother face' Hne). apply Hfaces.
  - intros face' byColor hex ids Hf Hh.
    destruct (Hlookup _ _ _ _ Hf Hh)
      as [(-> & Hin & ->)|(byColor' & Hf' & Hh')].
    + destruct (byColor0 !! hex) as [ids0|] eqn:Hold; simpl.
      * destruct (Hids _ _ _ _ Hface0 Hold) as [Hnd Hall].
        split; [apply with_id_NoDup, Hnd|].
        intros x Hx. apply with_id_elem in Hx as [Hx| ->]; eauto.
      * split; [apply with_id_NoDup; constructor|].
        intros x Hx. apply with_id_elem in Hx as [Hx| ->]; eauto.
        apply elem_of_nil in Hx. destruct Hx.
    + apply (Hids _ _ _ _ Hf' Hh').
  - intros face' byColor hex ids Hf Hh.
    destruct (decide (face' = face)) as [->|Hne].
    + rewrite Hface0 in Hf. injection Hf as <-.
      exists byColor1. specialize (Hhex hex). rewrite Hh in Hhex.
      simpl in Hhex. case_bool_decide.
      * eexists. split; [exact Hface1|]. split; [exact Hhex|].
        intros x Hx. apply with_id_elem. auto.
      * exists ids. split; [exact Hface1|]. split; [exact Hhex|].
        reflexivity.
    + exists byColor, ids. rewrite (Hother face' Hne). auto.
  - intros hex Hin. exists byColor1. specialize (Hhex hex).
    rewrite bool_decide_eq_true_2 in Hhex by exact Hin.
    eexists. split; [exact Hface1|]. split; [exact Hhex|].
    apply with_id_elem. auto.
Qed.

Section Analyzer.

Variable analyzeTexture : textureRef -> result analysis.

(** The invariant after the owners of texture [id] gained a block, the
    palette and the cache having grown to [palette1] and [cache1] and the
    face index to [fi']. *)
Lemma index_settle (st : state) (palette1 : list indexedTexture)
  (cache1 : gmap (Z * Z) Z) (id : Z) (blockId : option Z)
  (fi' : gmap string (gmap string (list Z))) :
  index_invariant analyzeTexture st ->
  blockId ∈ includedBlockIds st ->
  texturePalette st `prefix_of` palette1 ->
  (forall i t, palette1 !! i = Some t -> it_textureId t = Z.of_nat i) ->
  (forall key id',
     cache1 !! key = Some id' <->
     exists t, t ∈ palette1 /\ cacheKey (it_ref t) = key /\
               it_textureId t = id') ->
  textureCache st ⊆ cache1 ->
  (forall t, t ∈ palette1 ->
     analyzeTexture (it_ref t) = Returns (it_analysis t) /\
     it_blockIds t = None) ->
  (forall t, t ∈ palette1 ->
     it_textureId t = id \/
     is_Some (textureIdToBlockIds st !! it_textureId t)) ->
  0 <= id < Z.of_nat (length palette1) ->
  (forall face, is_Some (fi' !! face) <-> face ∈ faces) ->
  (forall face byColor hex ids,
     fi' !! face = Some byColor -> byColor !! hex = Some ids ->
     NoDup ids /\
     forall x, x ∈ ids ->
       exists t, array_get palette1 x = Some t /\
                 hex ∈ an_colorHexes (it_analysis t)) ->
  (forall face byColor hex ids,
     faceIndex st !! face = Some byColor -> byColor !! hex = Some ids ->
     exists byColor' ids',
       fi' !! face = Some byColor' /\ byColor' !! hex = Some ids' /\
       ids ⊆ ids') ->
  let st' :=
    State palette1 (blockMap st) fi' (includedBlockIds st) cache1
      (<[id := {[blockId]} ∪ default ∅ (textureIdToBlockIds st !! id)]>
         (textureIdToBlockIds st)) in
  index_invariant analyzeTexture st' /\ index_grows st st'.
Proof.
  intros Hinv Hblock Hprefix Hpos Hcache Hsub Han Howned Hid Hfaces Hfids
    Hfgrow st'.
  split.
  - constructor; cbn [texturePalette textureCache textureIdToBlockIds
                        includedBlockIds faceIndex st']; auto.
    + intros id' owners Hlook.
      destruct (decide (id = id')) as [<-|Hne].
      * rewrite lookup_insert_eq in Hlook. injection Hlook as <-.
        split; [|split; [exact Hid|]].
        { apply (non_empty_inhabited_L blockId), elem_of_union. left.
          apply elem_of_singleton. reflexivity. }
        intros x Hx. apply elem_of_union in Hx as [Hx|Hx].
        -- apply elem_of_singleton in Hx. subst x. exact Hblock.
        -- destruct (textureIdToBlockIds st !! id) as [old|] eqn:Hold;
             simpl in Hx; [|set_solver].
           apply (inv_owners _ _ Hinv id old Hold). exact Hx.
      * rewrite lookup_insert_ne in Hlook by exact Hne.
        destruct (inv_owners _ _ Hinv id' owners Hlook) as (Hn & Hr & Hall).
        split; [exact Hn|]. split; [|exact Hall].
        apply prefix_length in Hprefix. lia.
    + intros t Ht. destruct (decide (id = it_textureId t)) as [<-|Hne].
      * rewrite lookup_insert_eq. eauto.
      * rewrite lookup_insert_ne by exact Hne.
        destruct (Howned t Ht) as [Heq|Hsome]; [congruence | exact Hsome].
  - constructor; cbn [texturePalette textureCache textureIdToBlockIds
                        includedBlockIds faceIndex st']; auto.
    intros id' owners Hlook. destruct (decide (id = id')) as [<-|Hne].
    + rewrite lookup_insert_eq. eexists. split; [reflexivity|].
      rewrite Hlook. simpl. apply union_subseteq_r.
    + rewrite lookup_insert_ne by exact Hne. exists owners.
      split; [exact Hlook | reflexivity].
Qed.

(** The texture a face refers to gets its id: the cached one, or the
    next position of the palette after the analysis of the texture. *)
Lemma texture_resolved (st : state) (textureInfo : textureRef)
  (textureId : Z) (st1 : state) :
  index_invariant analyzeTexture st ->
  match textureCache st !! cacheKey textureInfo with
  | None =>
      analysis ← analyzeTexture textureInfo;
      let textureId := Z.of_nat (length (texturePalette st)) in
      Returns (textureId,
        State
          (texturePalette st ++
             [IndexedTexture textureId textureInfo analysis None])
          (blockMap st) (faceIndex st) (includedBlockIds st)
          (<[cacheKey textureInfo := textureId]> (textureCache st))
          (textureIdToBlockIds st))
  | Some textureId => Returns (textureId, st)
  end = Returns (textureId, st1) ->
  exists palette1 cache1,
    st1 = State palette1 (blockMap st) (faceIndex st) (includedBlockIds st)
            cache1 (textureIdToBlockIds st) /\
    texturePalette st `prefix_of` palette1 /\
    (forall i t, palette1 !! i = Some t -> it_textureId t = Z.of_nat i) /\
    (forall key id',
       cache1 !! key = Some id' <->
       exists t, t ∈ palette1 /\ cacheKey (it_ref t) = key /\
                 it_textureId t = id') /\
    textureCache st ⊆ cache1 /\
    (forall t, t ∈ palette1 ->
       analyzeTexture (it_ref t) = Returns (it_analysis t) /\
       it_blockIds t = None) /\
    (forall t, t ∈ palette1 ->
       it_textureId t = textureId \/
       is_Some (textureIdToBlockIds st !! it_textureId t)) /\
    0 <= textureId < Z.of_nat (length palette1) /\
    cache1 !! cacheKey textureInfo = Some textureId.
Proof.
  intros Hinv.
  destruct (textureCache st !! cacheKey textureInfo) as [cached|] eqn:Hhit.
  - intros [= <- <-]. exists (texturePalette st), (textureCache st).
    split; [destruct st; reflexivity|].
    split; [reflexivity|]. split; [apply (inv_ids _ _ Hinv)|].
    split; [apply (inv_cache _ _ Hinv)|]. split; [reflexivity|].
    split; [apply (inv_analysis _ _ Hinv)|].
    split; [intros t Ht; right; apply (inv_owned _ _ Hinv t Ht)|].
    split; [|exact Hhit].
    apply (inv_cache _ _ Hinv) in Hhit as (t & Ht & _ & Hid).
    apply list_elem_of_lookup in Ht as [i Hi].
    rewrite <- Hid, (inv_ids _ _ Hinv i t Hi).
    apply lookup_lt_Some in Hi. lia.
  - destruct (analyzeTexture textureInfo) as [found|e] eqn:Hfound; simpl;
      [|discriminate].
    intros [= <- <-].
    set (textureId := Z.of_nat (length (texturePalette st))).
    set (new := IndexedTexture textureId textureInfo found None).
    exists (texturePalette st ++ [new]),
           (<[cacheKey textureInfo := textureId]> (textureCache st)).
    split; [reflexivity|].
    split; [apply prefix_app_r; reflexivity|].
    split.
    { intros i t Hi. apply lookup_app_Some in Hi as [Hi|[Hlen Hi]].
      - apply (inv_ids _ _ Hinv i t Hi).
      - apply list_lookup_singleton_Some in Hi as [Hi <-]. simpl.
        unfold textureId. lia. }
    split.
    { intros key id'. split.
      - intros Hlook. destruct (decide (cacheKey textureInfo = key)) as [<-|Hne].
        + rewrite lookup_insert_eq in Hlook. injection Hlook as <-.
          exists new. split; [|auto]. apply elem_of_app. right.
          apply list_elem_of_singleton. reflexivity.
        + rewrite lookup_insert_ne in Hlook by exact Hne.
          apply (inv_cache _ _ Hinv) in Hlook as (t & Ht & Hk & Hid).
          exists t. split; [apply elem_of_app; auto | auto].
      - intros (t & Ht & Hk & Hid). apply elem_of_app in Ht as [Ht|Ht].
        + assert (Hold : textureCache st !! key = Some id')
            by (apply (inv_cache _ _ Hinv); eauto).
          rewrite lookup_insert_ne; [exact Hold|]. congruence.
        + apply list_elem_of_singleton in Ht. subst t. simpl in Hk, Hid.
          subst key id'. apply lookup_insert_eq. }
    split; [apply insert_subseteq, Hhit|].
    split.
    { intros t Ht. apply elem_of_app in Ht as [Ht|Ht].
      - apply (inv_analysis _ _ Hinv t Ht).
      - apply list_elem_of_singleton in Ht. subst t. simpl. auto. }
    split.
    { intros t Ht. apply elem_of_app in Ht as [Ht|Ht].
      - right. apply (inv_owned _ _ Hinv t Ht).
      - apply list_elem_of_singleton in Ht. subst t. left. reflexivity. }
    split; [|apply lookup_insert_eq].
    rewrite length_app. simpl. unfold textureId. lia.
Qed.

(** One face of a block: the invariant is kept, the variables grow, and
    the texture of the face is indexed for the block and, under a known
    face name, listed on that face. *)
Lemma face_step_spec (parsedBlockId : option Z) (blockData : blockData)
  (st st' : state) (entry : string * Z) :
  index_invariant analyzeTexture st ->
  parsedBlockId ∈ includedBlockIds st ->
  face_step analyzeTexture parsedBlockId blockData st entry = Returns st' ->
  index_invariant analyzeTexture st' /\ index_grows st st' /\
  includedBlockIds st' = includedBlockIds st /\
  blockMap st' = blockMap st /\
  forall textureInfo,
    array_get (block_texturePalette blockData) (snd entry)
      = Some textureInfo ->
    indexed_for st' textureInfo parsedBlockId /\
    (getSimpleFaceName (fst entry) <> "unknown"%string ->
     listed_on st' textureInfo (getSimpleFaceName (fst entry))).
Proof.
  intros Hinv Hblock. destruct entry as [complexFaceName paletteIndex].
  unfold face_step. cbn [fst snd].
  destruct (array_get (block_texturePalette blockData) paletteIndex)
    as [textureInfo|].
  2:{ intros [= <-]. split; [exact Hinv|]. split.
      - constructor; eauto.
      - split; [reflexivity|]. split; [reflexivity|]. discriminate. }
  match goal with
  | |- context [mbind _ ?m] => destruct m as [[textureId st1]|e] eqn:Hres
  end; [|discriminate].
  apply (texture_resolved _ _ _ _ Hinv) in Hres
    as (palette1 & cache1 & -> & Hprefix & Hpos & Hcache & Hsub & Han
        & Howned & Hid & Hkey).
  cbn [mbind result_bind texturePalette blockMap faceIndex includedBlockIds
         textureCache textureIdToBlockIds].
  assert (Hfids : forall face byColor hex ids,
     faceIndex st !! face = Some byColor -> byColor !! hex = Some ids ->
     NoDup ids /\
     forall x, x ∈ ids ->
       exists t, array_get palette1 x = Some t /\
                 hex ∈ an_colorHexes (it_analysis t)).
  { intros face byColor hex ids Hf Hh.
    destruct (inv_face_ids _ _ Hinv _ _ _ _ Hf Hh) as [Hnd Hall].
    split; [exact Hnd|]. intros x Hx.
    destruct (Hall x Hx) as (t & Ht & Hhex). exists t.
    split; [eapply array_get_prefix; eassumption | exact Hhex]. }
  assert (Hindexed : forall fi',
    indexed_for
      (State palette1 (blockMap st) fi' (includedBlockIds st) cache1
         (<[textureId := {[parsedBlockId]}
                         ∪ default ∅ (textureIdToBlockIds st !! textureId)]>
            (textureIdToBlockIds st)))
      textureInfo parsedBlockId).
  { intros fi'. exists textureId. eexists.
    cbn [textureCache textureIdToBlockIds].
    split; [exact Hkey|]. split; [apply lookup_insert_eq|].
    apply elem_of_union. left. apply elem_of_singleton. reflexivity. }
  destruct (String.eqb_spec (getSimpleFaceName complexFaceName) "unknown")
    as [Hunknown|Hknown].
  - intros [= <-].
    destruct (index_settle st palette1 cache1 textureId parsedBlockId
                (faceIndex st) Hinv Hblock Hprefix Hpos Hcache Hsub Han
                Howned Hid (inv_faces _ _ Hinv) Hfids) as [Hinv' Hgrows].
    { intros face byColor hex ids Hf Hh. exists byColor, ids.
      split; [exact Hf|]. split; [exact Hh | reflexivity]. }
    split; [exact Hinv'|]. split; [exact Hgrows|].
    split; [reflexivity|]. split; [reflexivity|].
    intros ref [= <-]. split; [apply Hindexed | congruence].
  - destruct (array_get palette1 textureId) as [analysisResult|] eqn:Ht;
      [|discriminate].
    intros [= <-].
    destruct (face_index_update palette1 (faceIndex st) textureId
                (getSimpleFaceName complexFaceName) analysisResult
                (inv_faces _ _ Hinv) Hfids
                (getSimpleFaceName_faces _ Hknown) Ht)
      as (Hfaces' & Hfids' & Hfgrow & Hlisted).
    destruct (index_settle st palette1 cache1 textureId parsedBlockId
                _ Hinv Hblock Hprefix Hpos Hcache Hsub Han
                Howned Hid Hfaces' Hfids' Hfgrow) as [Hinv' Hgrows].
    split; [exact Hinv'|]. split; [exact Hgrows|].
    split; [reflexivity|]. split; [reflexivity|].
    intros ref [= <-]. split; [apply Hindexed|].
    intros _. exists textureId, analysisResult.
    cbn [textureCache texturePalette faceIndex].
    split; [exact Hkey|]. split; [exact Ht | exact Hlisted].
Qed.

(** ** The loops *)

Lemma index_grows_refl (st : state) : index_grows st st.
Proof. constructor; eauto. Qed.

Lemma index_grows_trans (st1 st2 st3 : state) :
  index_grows st1 st2 -> index_grows st2 st3 -> index_grows st1 st3.
Proof.
  intros H12 H23. constructor.
  - etransitivity; [apply (grows_palette _ _ H12) | apply (grows_palette _ _ H23)].
  - etransitivity; [apply (grows_cache _ _ H12) | apply (grows_cache _ _ H23)].
  - intros id owners Hlook.
    destruct (grows_owners _ _ H12 id owners Hlook) as (owners2 & H2 & Hsub2).
    destruct (grows_owners _ _ H23 id owners2 H2) as (owners3 & H3 & Hsub3).
    exists owners3. split; [exact H3|]. etransitivity; eassumption.
  - intros face byColor hex ids Hf Hh.
    destruct (grows_faces _ _ H12 _ _ _ _ Hf Hh)
      as (byColor2 & ids2 & Hf2 & Hh2 & Hsub2).
    destruct (grows_faces _ _ H23 _ _ _ _ Hf2 Hh2)
      as (byColor3 & ids3 & Hf3 & Hh3 & Hsub3).
    exists byColor3, ids3. split; [exact Hf3|]. split; [exact Hh3|].
    etransitivity; eassumption.
Qed.

Lemma indexed_for_grows (st st' : state) (ref : textureRef)
  (blockId : option Z) :
  index_grows st st' -> indexed_for st ref blockId ->
  indexed_for st' ref blockId.
Proof.
  intros Hgrows (id & owners & Hkey & Howners & Hin).
  destruct (grows_owners _ _ Hgrows id owners Howners)
    as (owners' & Howners' & Hsub).
  exists id, owners'.
  split; [eapply lookup_weaken; [exact Hkey | apply (grows_cache _ _ Hgrows)]|].
  split; [exact Howners' | apply Hsub, Hin].
Qed.

Lemma listed_on_grows (st st' : state) (ref : textureRef) (face : string) :
  index_grows st st' -> listed_on st ref face -> listed_on st' ref face.
Proof.
  intros Hgrows (id & t & Hkey & Ht & Hall). exists id, t.
  split; [eapply lookup_weaken; [exact Hkey | apply (grows_cache _ _ Hgrows)]|].
  split; [eapply array_get_prefix; [apply (grows_palette _ _ Hgrows) | exact Ht]|].
  intros hex Hhex. destruct (Hall hex Hhex) as (byColor & ids & Hf & Hh & Hin).
  destruct (grows_faces _ _ Hgrows _ _ _ _ Hf Hh)
    as (byColor' & ids' & Hf' & Hh' & Hsub).
  exists byColor', ids'. split; [exact Hf'|]. split; [exact Hh'|].
  apply Hsub, Hin.
Qed.

Lemma faces_spec (parsedBlockId : option Z) (blockData : blockData)
  (faceMap : list (string * Z)) :
  forall st st',
    index_invariant analyzeTexture st ->
    parsedBlockId ∈ includedBlockIds st ->
    for_of (face_step analyzeTexture parsedBlockId blockData) faceMap st
      = Returns st' ->
    index_invariant analyzeTexture st' /\ index_grows st st' /\
    includedBlockIds st' = includedBlockIds st /\
    blockMap st' = blockMap st /\
    faces_indexed st' parsedBlockId blockData faceMap.
Proof.
  induction faceMap as [|entry rest IH]; intros st st' Hinv Hblock; simpl.
  - intros [= <-]. split; [exact Hinv|]. split; [apply index_grows_refl|].
    split; [reflexivity|]. split; [reflexivity|].
    intros name pi ref Hin. apply elem_of_nil in Hin. destruct Hin.
  - destruct (face_step analyzeTexture parsedBlockId blockData st entry)
      as [st1|e] eqn:Hstep; simpl; [|discriminate].
    intros Hrest.
    destruct (face_step_spec _ _ _ _ _ Hinv Hblock Hstep)
      as (Hinv1 & Hgrows1 & Hincl1 & Hmap1 & Hentry).
    destruct (IH st1 st' Hinv1) as (Hinv' & Hgrows' & Hincl' & Hmap' & Hrest');
      [rewrite Hincl1; exact Hblock | exact Hrest |].
    split; [exact Hinv'|].
    split; [eapply index_grows_trans; eassumption|].
    split; [congruence|]. split; [congruence|].
    intros name pi ref Hin Href. apply elem_of_cons in Hin as [<-|Hin].
    + destruct (Hentry ref Href) as [Hindexed Hlisted]. cbn [fst] in Hlisted.
      split; [eapply indexed_for_grows; eassumption|].
      intros Hknown. eapply listed_on_grows; [exact Hgrows' | auto].
    + apply (Hrest' name pi ref Hin Href).
Qed.

Lemma invariant_listed (st : state) (blockId : string) (name : string)
  (parsedBlockId : option Z) :
  index_invariant analyzeTexture st ->
  index_invariant analyzeTexture
    (State (texturePalette st) (<[blockId := name]> (blockMap st))
       (faceIndex st) (includedBlockIds st ++ [parsedBlockId])
       (textureCache st) (textureIdToBlockIds st)).
Proof.
  intros Hinv. constructor;
    cbn [texturePalette textureCache textureIdToBlockIds includedBlockIds
           faceIndex]; try apply Hinv.
  intros id owners Hlook.
  destruct (inv_owners _ _ Hinv id owners Hlook) as (Hne & Hr & Hall).
  split; [exact Hne|]. split; [exact Hr|]. intros b Hb.
  apply elem_of_app. left. apply Hall, Hb.
Qed.

Lemma blocks_spec (blockEntries : list (string * blockData)) :
  forall st st',
    index_invariant analyzeTexture st ->
    for_of (block_step analyzeTexture) blockEntries st = Returns st' ->
    index_invariant analyzeTexture st' /\ index_grows st st' /\
    blocks_indexed st' blockEntries.
Proof.
  induction blockEntries as [|[blockId blockData] rest IH];
    intros st st' Hinv; simpl.
  - intros [= <-]. split; [exact Hinv|]. split; [apply index_grows_refl|].
    intros entry Hin. apply elem_of_nil in Hin. destruct Hin.
  - destruct (includes (block_name blockData) "Slab") eqn:Hslab.
    { simpl. intros Hrest.
      destruct (IH st st' Hinv Hrest) as (Hinv' & Hgrows' & Hblocks').
      split; [exact Hinv'|]. split; [exact Hgrows'|].
      intros entry Hin Hex. apply elem_of_cons in Hin as [->|Hin];
        [|apply Hblocks'; assumption].
      unfold excluded in Hex. simpl in Hex. rewrite Hslab in Hex.
      discriminate. }
    destruct (bool_decide (blockId ∈ idsToSkip)) eqn:Hskip.
    { simpl. intros Hrest.
      destruct (IH st st' Hinv Hrest) as (Hinv' & Hgrows' & Hblocks').
      split; [exact Hinv'|]. split; [exact Hgrows'|].
      intros entry Hin Hex. apply elem_of_cons in Hin as [->|Hin];
        [|apply Hblocks'; assumption].
      unfold excluded in Hex. simpl in Hex. rewrite Hslab, Hskip in Hex.
      discriminate. }
    match goal with
    | |- context [mbind _ ?m] => destruct m as [st1|e] eqn:Hfaces
    end; simpl; [|discriminate].
    intros Hrest.
    apply faces_spec in Hfaces
      as (Hinv1 & Hgrows1 & _ & _ & Hfaces1);
      [|apply invariant_listed, Hinv
       |cbn [includedBlockIds]; apply elem_of_app; right;
        apply list_elem_of_singleton; reflexivity].
    destruct (IH st1 st' Hinv1 Hrest) as (Hinv' & Hgrows' & Hblocks').
    assert (Hgrows0 : index_grows st st1).
    { constructor.
      - apply (grows_palette _ _ Hgrows1).
      - apply (grows_cache _ _ Hgrows1).
      - apply (grows_owners _ _ Hgrows1).
      - apply (grows_faces _ _ Hgrows1). }
    split; [exact Hinv'|].
    split; [eapply index_grows_trans; eassumption|].
    intros entry Hin Hex. apply elem_of_cons in Hin as [->|Hin];
      [|apply Hblocks'; assumption].
    cbn [fst snd]. intros name pi ref Hface Href.
    destruct (Hfaces1 name pi ref Hface Href) as [Hindexed Hlisted].
    split; [eapply indexed_for_grows; eassumption|].
    intros Hknown. eapply listed_on_grows; [exact Hgrows' | auto].
Qed.

Lemma initial_invariant : index_invariant analyzeTexture initial.
Proof.
  constructor; unfold initial;
    cbn [texturePalette textureCache textureIdToBlockIds includedBlockIds
           faceIndex].
  - intros i t Hi. rewrite lookup_nil in Hi. discriminate.
  - intros key id. rewrite lookup_empty. split; [discriminate|].
    intros (t & Ht & _). apply elem_of_nil in Ht. destruct Ht.
  - intros t Ht. apply elem_of_nil in Ht. destruct Ht.
  - intros id owners Hlook. rewrite lookup_empty in Hlook. discriminate.
  - intros t Ht. apply elem_of_nil in Ht. destruct Ht.
  - intros face. rewrite <- elem_of_dom, dom_list_to_map_L.
    rewrite elem_of_list_to_set, <- list_fmap_compose.
    rewrite list_fmap_id. reflexivity.
  - intros face byColor hex ids Hf Hh.
    apply elem_of_list_to_map_2, list_elem_of_fmap in Hf as (f & [= -> ->] & _).
    rewrite lookup_empty in Hh. discriminate.
Qed.

(** ** Where an error comes from *)

Lemma face_step_throws (parsedBlockId : option Z) (blockData : blockData)
  (st : state) (entry : string * Z) (e : error) :
  index_invariant analyzeTexture st ->
  face_step analyzeTexture parsedBlockId blockData st entry = Throws e ->
  exists textureInfo, analyzeTexture textureInfo = Throws e.
Proof.
  intros Hinv. destruct entry as [complexFaceName paletteIndex].
  unfold face_step.
  destruct (array_get (block_texturePalette blockData) paletteIndex)
    as [textureInfo|]; [|discriminate].
  match goal with
  | |- context [mbind _ ?m] => destruct m as [[textureId st1]|e'] eqn:Hres
  end.
  - apply (texture_resolved _ _ _ _ Hinv) in Hres
      as (palette1 & cache1 & -> & _ & _ & _ & _ & _ & _ & Hid & _).
    cbn [mbind result_bind texturePalette].
    destruct (String.eqb _ _); [discriminate|].
    destruct (array_get palette1 textureId) as [analysisResult|] eqn:Ht;
      [discriminate|].
    exfalso. unfold array_get in Ht.
    destruct (Z.ltb_spec textureId 0); [lia|].
    apply lookup_ge_None in Ht. lia.
  - cbn [mbind result_bind]. intros [= <-]. exists textureInfo.
    destruct (textureCache st !! cacheKey textureInfo); [discriminate|].
    destruct (analyzeTexture textureInfo); [discriminate|].
    simpl in Hres. congruence.
Qed.

Lemma faces_throw (parsedBlockId : option Z) (blockData : blockData)
  (faceMap : list (string * Z)) (e : error) :
  forall st,
    index_invariant analyzeTexture st ->
    parsedBlockId ∈ includedBlockIds st ->
    for_of (face_step analyzeTexture parsedBlockId blockData) faceMap st
      = Throws e ->
    exists textureInfo, analyzeTexture textureInfo = Throws e.
Proof.
  induction faceMap as [|entry rest IH]; intros st Hinv Hblock; simpl;
    [discriminate|].
  destruct (face_step analyzeTexture parsedBlockId blockData st entry)
    as [st1|e1] eqn:Hstep; simpl.
  - destruct (face_step_spec _ _ _ _ _ Hinv Hblock Hstep)
      as (Hinv1 & _ & Hincl1 & _).
    apply IH; [exact Hinv1 | rewrite Hincl1; exact Hblock].
  - intros [= <-]. eapply face_step_throws; eassumption.
Qed.

Lemma blocks_throw (blockEntries : list (string * blockData))
  (e : error) :
  forall st,
    index_invariant analyzeTexture st ->
    for_of (block_step analyzeTexture) blockEntries st = Throws e ->
    exists textureInfo, analyzeTexture textureInfo = Throws e.
Proof.
  induction blockEntries as [|[blockId blockData] rest IH]; intros st Hinv;
    simpl; [discriminate|].
  destruct (includes (block_name blockData) "Slab"); [simpl; apply IH, Hinv|].
  destruct (bool_decide (blockId ∈ idsToSkip)); [simpl; apply IH, Hinv|].
  match goal with
  | |- context [mbind _ ?m] => destruct m as [st1|e1] eqn:Hfaces
  end; simpl.
  - apply faces_spec in Hfaces as (Hinv1 & _);
      [|apply invariant_listed, Hinv
       |cbn [includedBlockIds]; apply elem_of_app; right;
        apply list_elem_of_singleton; reflexivity].
    apply IH, Hinv1.
  - intros [= <-].
    apply faces_throw in Hfaces;
      [exact Hfaces
      |apply invariant_listed, Hinv
      |cbn [includedBlockIds]; apply elem_of_app; right;
       apply list_elem_of_singleton; reflexivity].
Qed.

Lemma blocks_blockMap (blockEntries : list (string * blockData)) :
  forall st st',
    index_invariant analyzeTexture st ->
    for_of (block_step analyzeTexture) blockEntries st = Returns st' ->
    blockMap st'
      = fold_left (fun m e => <[fst e := block_name (snd e)]> m)
          (List.filter (fun e => negb (excluded e)) blockEntries)
          (blockMap st).
Proof.
  induction blockEntries as [|[blockId blockData] rest IH];
    intros st st' Hinv; simpl.
  - intros [= <-]. reflexivity.
  - unfold excluded at 1. cbn [fst snd].
    destruct (includes (block_name blockData) "Slab") eqn:Hslab;
      [simpl; apply IH, Hinv|].
    destruct (bool_decide (blockId ∈ idsToSkip)) eqn:Hskip;
      [simpl; apply IH, Hinv|].
    match goal with
    | |- context [mbind _ ?m] => destruct m as [st1|e] eqn:Hfaces
    end; simpl; [|discriminate].
    intros Hrest.
    apply faces_spec in Hfaces as (Hinv1 & _ & _ & Hmap1 & _);
      [|apply invariant_listed, Hinv
       |cbn [includedBlockIds]; apply elem_of_app; right;
        apply list_elem_of_singleton; reflexivity].
    rewrite (IH st1 st' Hinv1 Hrest), Hmap1. reflexivity.
Qed.

(** What [main] returns, in terms of the variables its loop leaves. *)
Lemma main_inv (blockEntries : list (string * blockData))
  (out : output) :
  main analyzeTexture blockEntries = Returns out ->
  exists st,
    out = Output (attach_blockIds (textureIdToBlockIds st)
                    <$> texturePalette st)
            (blockMap st) (faceIndex st) (sort_numeric (includedBlockIds st)) /\
    index_invariant analyzeTexture st /\
    blocks_indexed st blockEntries /\
    blockMap st
      = fold_left (fun m e => <[fst e := block_name (snd e)]> m)
          (List.filter (fun e => negb (excluded e)) blockEntries) ∅.
Proof.
  unfold main.
  destruct (for_of (block_step analyzeTexture) blockEntries initial)
    as [st|e] eqn:Hloop; simpl; [|discriminate].
  intros [= <-]. exists st. split; [reflexivity|].
  destruct (blocks_spec blockEntries initial st initial_invariant Hloop)
    as (Hinv & _ & Hblocks).
  split; [exact Hinv|]. split; [exact Hblocks|].
  apply (blocks_blockMap blockEntries initial st initial_invariant Hloop).
Qed.

End Analyzer.

(** A texture of the palette [main] writes: its id is its position, and
    it has block ids, each of them listed. *)
Lemma written_texture (analyzeTexture : textureRef -> result analysis)
  (blockEntries : list (string * blockData)) (out : output) (i : nat)
  (t : indexedTexture) :
  main analyzeTexture blockEntries = Returns out ->
  out_texture_palette out !! i = Some t ->
  it_textureId t = Z.of_nat i /\
  exists ids,
    it_blockIds t = Some ids /\ ids <> [] /\
    forall blockId, blockId ∈ ids -> blockId ∈ out_includedBlockIds out.
Proof.
  intros Hmain Hi.
  apply main_inv in Hmain as (st & -> & Hinv & _ & _).
  cbn [out_texture_palette out_includedBlockIds] in *.
  apply list_lookup_fmap_Some in Hi as (t0 & -> & Ht0).
  split; [apply (inv_ids _ _ Hinv i t0 Ht0)|].
  assert (Hin : t0 ∈ texturePalette st)
    by (eapply list_elem_of_lookup_2, Ht0).
  destruct (inv_owned _ _ Hinv t0 Hin) as [owners Howners].
  destruct (inv_owners _ _ Hinv _ _ Howners) as (Hne & _ & Hall).
  unfold attach_blockIds. cbn [it_blockIds]. rewrite Howners.
  eexists. split; [reflexivity|].
  assert (Hperm : sort_numeric (elements owners) ≡ₚ elements owners)
    by apply merge_sort_Permutation.
  split.
  - intros Hnil. rewrite Hnil in Hperm. symmetry in Hperm.
    apply Permutation_nil_r in Hperm. apply elements_empty_inv in Hperm.
    apply Hne. apply leibniz_equiv. exact Hperm.
  - intros b Hb. apply IndexerFacts.sort_numeric_elem.
    apply Hall. rewrite Hperm in Hb. apply elem_of_elements in Hb. exact Hb.
Qed.

(** The map a sequence of distinct keys is inserted into. *)
Lemma fold_insert_lookup {A : Type} (name : A -> string)
  (l : list (string * A)) (k : string) (v : string) :
  NoDup (fst <$> l) ->
  forall m : gmap string string,
    fold_left (fun m e => <[fst e := name (snd e)]> m) l m !! k = Some v <->
    (exists a, (k, a) ∈ l /\ name a = v) \/
    ((k ∉ fst <$> l) /\ m !! k = Some v).
Proof.
  induction l as [|[k0 a0] l IH]; intros Hnd m; cbn [fold_left].
  - split; [intros H; right; split; [apply not_elem_of_nil | exact H]|].
    intros [(a & Hin & _)|[_ H]]; [|exact H].
    apply elem_of_nil in Hin. destruct Hin.
  - rewrite fmap_cons in Hnd. apply NoDup_cons in Hnd as [Hk0 Hnd].
    rewrite (IH Hnd). cbn [fst snd]. rewrite fmap_cons. cbn [fst].
    split.
    + intros [(a & Hin & Hv)|[Hout Hlook]].
      * left. exists a. split; [apply elem_of_cons; auto | exact Hv].
      * destruct (decide (k0 = k)) as [->|Hne].
        -- rewrite lookup_insert_eq in Hlook. injection Hlook as <-.
           left. exists a0. split; [apply elem_of_cons; auto | reflexivity].
        -- rewrite lookup_insert_ne in Hlook by exact Hne. right.
           split; [|exact Hlook]. rewrite not_elem_of_cons. auto.
    + intros [(a & Hin & Hv)|[Hout Hlook]].
      * apply elem_of_cons in Hin as [[= -> ->]|Hin].
        -- right. split; [exact Hk0|]. rewrite lookup_insert_eq.
           congruence.
        -- left. eauto.
      * rewrite not_elem_of_cons in Hout. destruct Hout as [Hne Hout].
        right. split; [exact Hout|].
        rewrite lookup_insert_ne by congruence. exact Hlook.
Qed.

End IndexFacts.

Module IndexSpec.
Import Indexer IndexFacts.

(** X6.  The indexer fails only where [analyzeTexture] does: an error [main]
    ends with is an error [analyzeTexture] threw for some texture (no
    lookup in the palette, the cache or the face index of the indexer
    goes wrong by itself), and when [analyzeTexture] returns for every
    texture, [main] returns. *)
Theorem indexer_fails_only_with_the_analyzer
  (analyzeTexture : textureRef -> result analysis)
  (blockEntries : list (string * blockData)) :
  (forall e,
     main analyzeTexture blockEntries = Throws e ->
     exists textureInfo, analyzeTexture textureInfo = Throws e) /\
  ((forall textureInfo,
      exists found, analyzeTexture textureInfo = Returns found) ->
   exists out, main analyzeTexture blockEntries = Returns out).
Proof.
  assert (Hthrows : forall e,
    main analyzeTexture blockEntries = Throws e ->
    exists textureInfo, analyzeTexture textureInfo = Throws e).
  { intros e. unfold main.
    destruct (for_of (block_step analyzeTexture) blockEntries initial)
      as [st|e1] eqn:Hloop; simpl; [discriminate|].
    intros [= <-].
    apply (blocks_throw analyzeTexture blockEntries e1 initial
             (initial_invariant analyzeTexture) Hloop). }
  split; [exact Hthrows|].
  intros Hreturns.
  destruct (main analyzeTexture blockEntries) as [out|e] eqn:Hmain; [eauto|].
  destruct (Hthrows e eq_refl) as [textureInfo Hthrown].
  destruct (Hreturns textureInfo) as [found Hfound]. congruence.
Qed.

Example indexer_passes_the_error_on :
  main (fun _ => Throws (Error "no atlas")) Sample.blocks
    = Throws (Error "no atlas").
Proof. vm_compute. reflexivity. Qed.

(** X7.  In the palette the indexer writes a texture id is the position of the
    texture, which is how the bloxelizers look a chosen texture up
    ([texturePalette[textureId]]); every entry carries the analysis of
    the atlas texture it refers to; and no atlas texture has two
    entries. *)
Theorem palette_ids_are_positions
  (analyzeTexture : textureRef -> result analysis)
  (blockEntries : list (string * blockData)) (out : output) :
  main analyzeTexture blockEntries = Returns out ->
  (forall i t,
     out_texture_palette out !! i = Some t ->
     it_textureId t = Z.of_nat i /\
     analyzeTexture (it_ref t) = Returns (it_analysis t)) /\
  NoDup ((fun t => cacheKey (it_ref t)) <$> out_texture_palette out).
Proof.
  intros Hmain.
  apply main_inv in Hmain as (st & -> & Hinv & _ & _).
  cbn [out_texture_palette]. split.
  - intros i t' Hi.
    apply list_lookup_fmap_Some in Hi as (t & -> & Ht). simpl.
    split; [apply (inv_ids _ _ Hinv i t Ht)|].
    apply (inv_analysis _ _ Hinv t). eapply list_elem_of_lookup_2, Ht.
  - rewrite <- list_fmap_compose. apply NoDup_alt. intros i j key Hi Hj.
    apply list_lookup_fmap_Some in Hi as (ti & -> & Hti).
    apply list_lookup_fmap_Some in Hj as (tj & Hkey & Htj).
    simpl in Hkey.
    assert (Hci : textureCache st !! cacheKey (it_ref ti)
                  = Some (it_textureId ti)).
    { apply (inv_cache _ _ Hinv). exists ti.
      split; [eapply list_elem_of_lookup_2, Hti | auto]. }
    assert (Hcj : textureCache st !! cacheKey (it_ref ti)
                  = Some (it_textureId tj)).
    { apply (inv_cache _ _ Hinv). exists tj.
      split; [eapply list_elem_of_lookup_2, Htj | auto]. }
    rewrite Hci in Hcj. injection Hcj as Heq.
    pose proof (inv_ids _ _ Hinv i ti Hti) as Hidi.
    pose proof (inv_ids _ _ Hinv j tj Htj) as Hidj. lia.
Qed.

Lemma palette_ids_are_positions_witness :
  exists out,
    main Sample.plain_red Sample.blocks = Returns out /\
    (forall i t,
       out_texture_palette out !! i = Some t ->
       it_textureId t = Z.of_nat i /\
       Sample.plain_red (it_ref t) = Returns (it_analysis t)) /\
    NoDup ((fun t => cacheKey (it_ref t)) <$> out_texture_palette out).
Proof.
  destruct (main Sample.plain_red Sample.blocks) as [out|e] eqn:Hmain.
  - exists out. split; [reflexivity|].
    apply (palette_ids_are_positions Sample.plain_red Sample.blocks out Hmain).
  - vm_compute in Hmain. discriminate.
Defined.

(** X8.  Every texture of the palette the indexer writes has block ids: the
    list is not empty, ascending, without repetition, and made of ids the
    indexer also writes to the list of available block ids. *)
Theorem palette_blockIds
  (analyzeTexture : textureRef -> result analysis)
  (blockEntries : list (string * blockData)) (out : output) :
  main analyzeTexture blockEntries = Returns out ->
  forall t,
    t ∈ out_texture_palette out ->
    exists ids,
      it_blockIds t = Some ids /\ ids <> [] /\
      Sorted num_le ids /\ NoDup ids /\
      forall blockId, blockId ∈ ids -> blockId ∈ out_includedBlockIds out.
Proof.
  intros Hmain t' Ht'.
  apply main_inv in Hmain as (st & -> & Hinv & _ & _).
  cbn [out_texture_palette out_includedBlockIds] in *.
  apply list_elem_of_fmap in Ht' as (t & -> & Ht).
  destruct (inv_owned _ _ Hinv t Ht) as [owners Howners].
  destruct (inv_owners _ _ Hinv _ _ Howners) as (Hne & _ & Hall).
  unfold attach_blockIds. cbn [it_blockIds]. rewrite Howners.
  eexists. split; [reflexivity|].
  assert (Hperm : sort_numeric (elements owners) ≡ₚ elements owners)
    by apply merge_sort_Permutation.
  split; [|split; [|split]].
  - intros Hnil. rewrite Hnil in Hperm. symmetry in Hperm.
    apply Permutation_nil_r in Hperm. apply elements_empty_inv in Hperm.
    apply Hne. apply leibniz_equiv. exact Hperm.
  - apply IndexerFacts.sort_numeric_sorted.
  - rewrite Hperm. apply NoDup_elements.
  - intros b Hb. apply IndexerFacts.sort_numeric_elem.
    apply Hall. rewrite Hperm in Hb. apply elem_of_elements in Hb. exact Hb.
Qed.

Lemma palette_blockIds_witness :
  exists out,
    main Sample.plain_red Sample.blocks = Returns out /\
    forall t,
      t ∈ out_texture_palette out ->
      exists ids,
        it_blockIds t = Some ids /\ ids <> [] /\
        Sorted num_le ids /\ NoDup ids /\
        forall blockId, blockId ∈ ids -> blockId ∈ out_includedBlockIds out.
Proof.
  destruct (main Sample.plain_red Sample.blocks) as [out|e] eqn:Hmain.
  - exists out. split; [reflexivity|].
    apply (palette_blockIds Sample.plain_red Sample.blocks out Hmain).
  - vm_compute in Hmain. discriminate.
Defined.

(** X9.  The face index the indexer writes has the six faces and no other; a
    list of texture ids in it holds no id twice, and each of its ids is
    the position of a palette texture that shows the colour the list is
    filed under. *)
Theorem face_index_well_formed
  (analyzeTexture : textureRef -> result analysis)
  (blockEntries : list (string * blockData)) (out : output) :
  main analyzeTexture blockEntries = Returns out ->
  (forall face, is_Some (out_face_index out !! face) <-> face ∈ faces) /\
  forall face byColor hex ids,
    out_face_index out !! face = Some byColor ->
    byColor !! hex = Some ids ->
    NoDup ids /\
    forall id, id ∈ ids ->
      exists t, array_get (out_texture_palette out) id = Some t /\
                it_textureId t = id /\
                hex ∈ an_colorHexes (it_analysis t).
Proof.
  intros Hmain.
  apply main_inv in Hmain as (st & -> & Hinv & _ & _).
  cbn [out_texture_palette out_face_index].
  split; [apply (inv_faces _ _ Hinv)|].
  intros face byColor hex ids Hf Hh.
  destruct (inv_face_ids _ _ Hinv _ _ _ _ Hf Hh) as [Hnd Hall].
  split; [exact Hnd|]. intros id Hid.
  destruct (Hall id Hid) as (t & Ht & Hhex).
  exists (attach_blockIds (textureIdToBlockIds st) t).
  apply array_get_lookup in Ht as [Hpos Ht].
  split; [|split].
  - apply array_get_lookup. split; [exact Hpos|].
    rewrite list_lookup_fmap, Ht. reflexivity.
  - simpl. rewrite (inv_ids _ _ Hinv _ _ Ht). lia.
  - exact Hhex.
Qed.

Lemma face_index_well_formed_witness :
  exists out,
    main Sample.plain_red Sample.blocks = Returns out /\
    (forall face, is_Some (out_face_index out !! face) <-> face ∈ faces) /\
    forall face byColor hex ids,
      out_face_index out !! face = Some byColor ->
      byColor !! hex = Some ids ->
      NoDup ids /\
      forall id, id ∈ ids ->
        exists t, array_get (out_texture_palette out) id = Some t /\
                  it_textureId t = id /\
                  hex ∈ an_colorHexes (it_analysis t).
Proof.
  destruct (main Sample.plain_red Sample.blocks) as [out|e] eqn:Hmain.
  - exists out. split; [reflexivity|].
    apply (face_index_well_formed Sample.plain_red Sample.blocks out Hmain).
  - vm_compute in Hmain. discriminate.
Defined.

(** X10.  Nothing a listed block shows is missing from the index: the texture
    of each of its faces has an entry in the palette, that entry counts
    the block among its block ids, and under a face name the indexer
    knows the texture is listed on that face under each of its
    colours. *)
Theorem block_textures_are_indexed
  (analyzeTexture : textureRef -> result analysis)
  (blockEntries : list (string * blockData)) (out : output)
  (blockId : string) (blockData : blockData) (complexFaceName : string)
  (paletteIndex : Z) (textureInfo : textureRef) :
  main analyzeTexture blockEntries = Returns out ->
  (blockId, blockData) ∈ blockEntries ->
  excluded (blockId, blockData) = false ->
  (complexFaceName, paletteIndex) ∈ block_faceMap blockData ->
  array_get (block_texturePalette blockData) paletteIndex = Some textureInfo ->
  exists t ids,
    t ∈ out_texture_palette out /\
    cacheKey (it_ref t) = cacheKey textureInfo /\
    it_blockIds t = Some ids /\ parseInt_Z blockId 10 ∈ ids /\
    (getSimpleFaceName complexFaceName <> "unknown"%string ->
     forall hex, hex ∈ an_colorHexes (it_analysis t) ->
       exists byColor listed,
         out_face_index out !! getSimpleFaceName complexFaceName
           = Some byColor /\
         byColor !! hex = Some listed /\ it_textureId t ∈ listed).
Proof.
  intros Hmain Hentry Hexcluded Hface Href.
  apply main_inv in Hmain as (st & -> & Hinv & Hblocks & _).
  cbn [out_texture_palette out_face_index].
  destruct (Hblocks _ Hentry Hexcluded complexFaceName paletteIndex
              textureInfo Hface Href) as [Hindexed Hlisted].
  cbn [fst snd] in Hindexed.
  destruct Hindexed as (id & owners & Hkey & Howners & Hin).
  pose proof Hkey as Hcached.
  apply (inv_cache _ _ Hinv) in Hcached as (t & Ht & Hkt & Hidt).
  exists (attach_blockIds (textureIdToBlockIds st) t),
         (sort_numeric (elements owners)).
  split; [apply list_elem_of_fmap; eauto|].
  split; [exact Hkt|].
  split.
  { unfold attach_blockIds. cbn [it_blockIds]. rewrite Hidt, Howners.
    reflexivity. }
  split.
  { apply IndexerFacts.sort_numeric_elem, elem_of_elements, Hin. }
  intros Hknown hex Hhex. simpl in Hhex.
  destruct (Hlisted Hknown) as (id' & t' & Hkey' & Ht' & Hall).
  rewrite Hkey in Hkey'. injection Hkey' as <-.
  apply list_elem_of_lookup in Ht as [i Hi].
  pose proof (inv_ids _ _ Hinv i t Hi) as Hpos.
  apply array_get_lookup in Ht' as [_ Ht'].
  replace (Z.to_nat id) with i in Ht' by lia.
  rewrite Hi in Ht'. injection Ht' as <-.
  simpl. rewrite Hidt. apply Hall, Hhex.
Qed.

Lemma block_textures_are_indexed_witness :
  exists out,
    main Sample.plain_red Sample.blocks = Returns out /\
    exists t ids,
      t ∈ out_texture_palette out /\
      cacheKey (it_ref t) = cacheKey (TextureRef 0 1) /\
      it_blockIds t = Some ids /\ parseInt_Z "12" 10 ∈ ids /\
      (getSimpleFaceName "Top" <> "unknown"%string ->
       forall hex, hex ∈ an_colorHexes (it_analysis t) ->
         exists byColor listed,
           out_face_index out !! getSimpleFaceName "Top" = Some byColor /\
           byColor !! hex = Some listed /\ it_textureId t ∈ listed).
Proof.
  destruct (main Sample.plain_red Sample.blocks) as [out|e] eqn:Hmain.
  - exists out. split; [reflexivity|].
    apply (block_textures_are_indexed Sample.plain_red Sample.blocks out
             "12" (BlockData "Dirt" [("Top"%string, 0)] [TextureRef 0 1])
             "Top" 0 (TextureRef 0 1) Hmain).
    + do 3 apply list_elem_of_further. apply list_elem_of_here.
    + vm_compute. reflexivity.
    + apply list_elem_of_here.
    + reflexivity.
  - vm_compute in Hmain. discriminate.
Defined.

(** X11.  The block map the indexer writes names the listed blocks, and only
    them: a key of the block mapping maps to the name of its block when
    the block is neither a slab nor in the fixed exclusion set, and is
    absent otherwise. *)
Theorem block_map_names_listed_blocks
  (analyzeTexture : textureRef -> result analysis)
  (blockEntries : list (string * blockData)) (out : output) :
  NoDup (fst <$> blockEntries) ->
  main analyzeTexture blockEntries = Returns out ->
  forall blockId name,
    out_block_map out !! blockId = Some name <->
    exists blockData,
      (blockId, blockData) ∈ blockEntries /\
      excluded (blockId, blockData) = false /\
      block_name blockData = name.
Proof.
  intros Hnd Hmain blockId name.
  apply main_inv in Hmain as (st & -> & _ & _ & Hmap).
  cbn [out_block_map]. rewrite Hmap.
  assert (Hnd' : NoDup (fst <$> List.filter (fun e => negb (excluded e))
                                  blockEntries)).
  { clear Hmap. induction blockEntries as [|e l IH];
      cbn [List.filter]; [constructor|].
    rewrite fmap_cons in Hnd. apply NoDup_cons in Hnd as [He Hl].
    destruct (excluded e); cbn [negb]; [apply IH, Hl|].
    rewrite fmap_cons. apply NoDup_cons. split; [|apply IH, Hl].
    intros Hin. apply He. apply list_elem_of_fmap in Hin as (e' & -> & Hin).
    apply list_elem_of_fmap. exists e'. split; [reflexivity|].
    apply list_elem_of_In, filter_In in Hin as [Hin _].
    apply list_elem_of_In. exact Hin. }
  rewrite (fold_insert_lookup block_name _ blockId name Hnd' ∅).
  rewrite lookup_empty. split.
  - intros [(bd & Hin & Hname)|[_ H]]; [|discriminate].
    apply list_elem_of_In, filter_In in Hin as [Hin Hex].
    exists bd. split; [apply list_elem_of_In; exact Hin|].
    split; [apply negb_true_iff; exact Hex | exact Hname].
  - intros (bd & Hin & Hex & Hname). left. exists bd.
    split; [|exact Hname]. apply list_elem_of_In, filter_In.
    split; [apply list_elem_of_In; exact Hin | rewrite Hex; reflexivity].
Qed.

Lemma block_map_names_listed_blocks_witness :
  exists out,
    main Sample.plain_red Sample.blocks = Returns out /\
    forall blockId name,
      out_block_map out !! blockId = Some name <->
      exists blockData,
        (blockId, blockData) ∈ Sample.blocks /\
        excluded (blockId, blockData) = false /\
        block_name blockData = name.
Proof.
  destruct (main Sample.plain_red Sample.blocks) as [out|e] eqn:Hmain.
  - exists out. split; [reflexivity|].
    apply (block_map_names_listed_blocks Sample.plain_red Sample.blocks out);
      [|exact Hmain].
    apply (bool_decide_unpack _). vm_compute. exact I.
  - vm_compute in Hmain. discriminate.
Defined.

End IndexSpec.

(* ================================================================== *)
(** * Part XXIII: the jobs of the two bloxelizers *)
(* ================================================================== *)

Module JobFacts.
Import StillJob.

Section Pixels.

Variable intToRGBA : Z -> rgb.

Lemma match_pixel_spec (candidates : list candidate)
  (cache : gmap Z (option textureInfo)) (pixelColorInt : Z) :
  cache_sound intToRGBA candidates cache ->
  fst (match_pixel intToRGBA candidates cache pixelColorInt)
    = Still.findBestMatch (intToRGBA pixelColorInt) candidates /\
  cache_sound intToRGBA candidates
    (snd (match_pixel intToRGBA candidates cache pixelColorInt)).
Proof.
  intros Hsound. unfold match_pixel.
  assert (Hmiss : cache_sound intToRGBA candidates
    (<[pixelColorInt := Still.findBestMatch (intToRGBA pixelColorInt)
                          candidates]> cache)).
  { intros px cached Hlook.
    destruct (decide (pixelColorInt = px)) as [<-|Hne].
    - rewrite lookup_insert_eq in Hlook. congruence.
    - rewrite lookup_insert_ne in Hlook by exact Hne.
      apply (Hsound px cached Hlook). }
  destruct (cache !! pixelColorInt) as [[cached|]|] eqn:Hlook; cbn [fst snd];
    try (split; [reflexivity | exact Hmiss]).
  split; [apply (Hsound _ _ Hlook) | exact Hsound].
Qed.

Lemma match_row_spec (candidates : list candidate) (pixels : list Z) :
  forall cache,
    cache_sound intToRGBA candidates cache ->
    fst (match_row intToRGBA candidates cache pixels)
      = (fun pixelColorInt =>
           cell_of (Still.findBestMatch (intToRGBA pixelColorInt) candidates))
          <$> pixels /\
    cache_sound intToRGBA candidates
      (snd (match_row intToRGBA candidates cache pixels)).
Proof.
  induction pixels as [|px pixels IH]; intros cache Hsound; cbn [match_row].
  - split; [reflexivity | exact Hsound].
  - destruct (match_pixel_spec candidates cache px Hsound) as [Hbest Hsound1].
    destruct (match_pixel intToRGBA candidates cache px) as [best cache1].
    cbn [fst snd] in Hbest, Hsound1.
    destruct (IH cache1 Hsound1) as [Hcells Hsound2].
    destruct (match_row intToRGBA candidates cache1 pixels) as [cells cache2].
    cbn [fst snd] in *. rewrite fmap_cons, Hbest, Hcells.
    split; [reflexivity | exact Hsound2].
Qed.

Lemma match_rows_spec (candidates : list candidate) (rows : list (list Z)) :
  forall cache,
    cache_sound intToRGBA candidates cache ->
    fst (match_rows intToRGBA candidates cache rows)
      = matched_grid intToRGBA candidates rows /\
    cache_sound intToRGBA candidates
      (snd (match_rows intToRGBA candidates cache rows)).
Proof.
  induction rows as [|pixels rows IH]; intros cache Hsound; cbn [match_rows].
  - split; [reflexivity | exact Hsound].
  - destruct (match_row_spec candidates pixels cache Hsound)
      as [Hrow Hsound1].
    destruct (match_row intToRGBA candidates cache pixels) as [row cache1].
    cbn [fst snd] in Hrow, Hsound1.
    destruct (IH cache1 Hsound1) as [Hgrid Hsound2].
    destruct (match_rows intToRGBA candidates cache1 rows) as [grid cache2].
    cbn [fst snd] in *. unfold matched_grid in *.
    rewrite fmap_cons, Hrow, Hgrid.
    split; [reflexivity | exact Hsound2].
Qed.

Lemma empty_cache_sound (candidates : list candidate) :
  cache_sound intToRGBA candidates ∅.
Proof. intros px cached Hlook. rewrite lookup_empty in Hlook. discriminate. Qed.

End Pixels.

(** Without a previous frame the GIF script matches every pixel as the
    still-image script does. *)
Lemma findBestMatch_first_frame (CONFIG : config) (pixelColor : rgb)
  (candidates : list candidate) :
  Gif.findBestMatch CONFIG pixelColor candidates Null
    = Still.findBestMatch pixelColor candidates.
Proof.
  unfold Gif.findBestMatch, Still.findBestMatch.
  destruct (nearest pixelColor candidates) as [[best|] minDistance];
    reflexivity.
Qed.

Lemma process_row_first (CONFIG : config) (candidates : list candidate)
  (y : nat) (pixels : list rgb) :
  forall x,
    Gif.process_row CONFIG candidates None y x pixels
      = Returns ((fun pixelRGBA =>
                    cell_of (Still.findBestMatch pixelRGBA candidates))
                   <$> pixels).
Proof.
  induction pixels as [|px pixels IH]; intros x; cbn [Gif.process_row];
    [reflexivity|].
  cbn [Gif.previous_choice mbind result_bind]. rewrite IH.
  cbn [mbind result_bind]. rewrite findBestMatch_first_frame.
  reflexivity.
Qed.

Lemma process_rows_first (CONFIG : config) (candidates : list candidate)
  (rows : list (list rgb)) :
  forall y,
    Gif.process_rows CONFIG candidates None y rows
      = Returns ((fun pixels : list rgb =>
                    (fun pixelRGBA =>
                       cell_of (Still.findBestMatch pixelRGBA candidates))
                      <$> pixels) <$> rows).
Proof.
  induction rows as [|pixels rows IH]; intros y; cbn [Gif.process_rows];
    [reflexivity|].
  rewrite process_row_first. cbn [mbind result_bind]. rewrite IH.
  reflexivity.
Qed.

End JobFacts.

Module StillJobSpec.
Import StillJob JobFacts.

(** X15.  The colour-match cache of the still-image script changes no choice:
    starting from the empty cache, the grid of choices is the grid of the
    matches computed pixel by pixel, whichever pixel values repeat. *)
Theorem colorMatchCache_changes_no_choice (intToRGBA : Z -> rgb)
  (candidates : list candidate) (resized : list (list Z)) :
  fst (match_rows intToRGBA candidates ∅ resized)
    = matched_grid intToRGBA candidates resized.
Proof.
  apply match_rows_spec, empty_cache_sound.
Qed.

(** X16.  On a single image the two scripts choose alike: for the same
    candidates, [processImageFrame] of the GIF script without a previous
    frame returns the grid of choices [main] of the still-image script
    builds, whatever the switch threshold. *)
Theorem still_and_gif_scripts_agree (CONFIG : config)
  (intToRGBA : Z -> rgb) (candidates : list candidate)
  (resized : list (list Z)) :
  Gif.processImageFrame CONFIG
    ((fun pixels : list Z => intToRGBA <$> pixels) <$> resized)
    candidates None
    = Returns (fst (match_rows intToRGBA candidates ∅ resized)).
Proof.
  unfold Gif.processImageFrame. rewrite process_rows_first.
  rewrite (proj1 (match_rows_spec intToRGBA candidates resized ∅
                    (empty_cache_sound intToRGBA candidates))).
  unfold matched_grid. f_equal. rewrite <- list_fmap_compose.
  apply list_fmap_ext. intros _ pixels _. simpl.
  rewrite <- list_fmap_compose. reflexivity.
Qed.

End StillJobSpec.

Module GifJobFacts.
Import StillJob JobFacts MatcherFacts.

(** ** A frame that repeats *)

(** Matching a pixel again, with the choice just made as the previous
    one, makes the same choice. *)
Lemma findBestMatch_settled (CONFIG : config) (pixelColor : rgb)
  (candidates : list candidate) (previousTextureId : choice) :
  Gif.findBestMatch CONFIG pixelColor candidates
    (cell_of (Gif.findBestMatch CONFIG pixelColor candidates
                previousTextureId))
  = Gif.findBestMatch CONFIG pixelColor candidates previousTextureId.
Proof.
  unfold Gif.findBestMatch.
  destruct (nearest pixelColor candidates) as [[best|] minDistance];
    [|reflexivity].
  assert (Hbest :
    match cell_of (Some (textureInfo_of best)) with
    | Null => Some (textureInfo_of best)
    | _ =>
        if Gif.same_id (textureId (textureInfo_of best))
             (cell_of (Some (textureInfo_of best)))
        then Some (textureInfo_of best)
        else
          match find (fun c => Gif.same_id (textureId (textureInfo_of c))
                                 (cell_of (Some (textureInfo_of best))))
                  candidates with
          | None => Some (textureInfo_of best)
          | Some previousCandidate =>
              if gt (colorDistance pixelColor (perceivedColor previousCandidate)
                     - minDistance)%float (textureSwitchThreshold CONFIG)
              then Some (textureInfo_of best)
              else Some (textureInfo_of previousCandidate)
          end
    end = Some (textureInfo_of best)).
  { cbn [cell_of Gif.same_id]. rewrite Z.eqb_refl. reflexivity. }
  destruct previousTextureId as [| |p]; [exact Hbest| |].
  - cbn [Gif.same_id].
    rewrite (find_absent (fun _ => false) candidates) by reflexivity.
    exact Hbest.
  - cbn [Gif.same_id].
    destruct (textureId (textureInfo_of best) =? p) eqn:Hsame;
      [exact Hbest|].
    destruct (find (fun c => textureId (textureInfo_of c) =? p) candidates)
      as [previousCandidate|] eqn:Hfind; [|exact Hbest].
    destruct (gt _ _) eqn:Hgt; [exact Hbest|].
    pose proof (find_some _ _ Hfind) as [_ Hid].
    apply Z.eqb_eq in Hid. cbn [cell_of Gif.same_id].
    rewrite Hid, Hsame, Hfind, Hgt. reflexivity.
Qed.

Lemma process_row_settled (CONFIG : config) (candidates : list candidate)
  (previous : option (list (list choice))) (grid : list (list choice))
  (y : nat) (whole : list choice) (pixels : list rgb) :
  grid !! y = Some whole ->
  forall x cells,
    Gif.process_row CONFIG candidates previous y x pixels = Returns cells ->
    (forall k cell, cells !! k = Some cell ->
       whole !! (x + k)%nat = Some cell) ->
    Gif.process_row CONFIG candidates (Some grid) y x pixels = Returns cells.
Proof.
  intros Hy. induction pixels as [|px pixels IH]; intros x cells;
    cbn [Gif.process_row]; [auto|].
  destruct (Gif.previous_choice previous y x) as [previousChoiceId|];
    cbn [mbind result_bind]; [|discriminate].
  destruct (Gif.process_row CONFIG candidates previous y (S x) pixels)
    as [rest|] eqn:Hrest; cbn [mbind result_bind]; [|discriminate].
  intros [= <-] Hwhole.
  cbn [Gif.previous_choice]. rewrite Hy. cbn [mbind result_bind].
  rewrite (IH (S x) rest Hrest).
  2:{ intros k cell Hk. replace (S x + k)%nat with (x + S k)%nat by lia.
      apply Hwhole. exact Hk. }
  cbn [mbind result_bind]. unfold row_get.
  specialize (Hwhole 0%nat _ eq_refl). rewrite Nat.add_0_r in Hwhole.
  rewrite Hwhole.
  change (match Gif.findBestMatch CONFIG px candidates previousChoiceId with
          | Some bestTextureInfo => TexId (textureId bestTextureInfo)
          | None => Null
          end)
    with (cell_of (Gif.findBestMatch CONFIG px candidates previousChoiceId)).
  change (match Gif.findBestMatch CONFIG px candidates
                  (cell_of (Gif.findBestMatch CONFIG px candidates
                              previousChoiceId)) with
          | Some bestTextureInfo => TexId (textureId bestTextureInfo)
          | None => Null
          end)
    with (cell_of (Gif.findBestMatch CONFIG px candidates
                     (cell_of (Gif.findBestMatch CONFIG px candidates
                                 previousChoiceId)))).
  rewrite findBestMatch_settled. reflexivity.
Qed.

Lemma process_rows_settled (CONFIG : config) (candidates : list candidate)
  (previous : option (list (list choice))) (grid : list (list choice))
  (rows : list (list rgb)) :
  forall y chosen,
    Gif.process_rows CONFIG candidates previous y rows = Returns chosen ->
    (forall k row, chosen !! k = Some row -> grid !! (y + k)%nat = Some row) ->
    Gif.process_rows CONFIG candidates (Some grid) y rows = Returns chosen.
Proof.
  induction rows as [|pixels rows IH]; intros y chosen;
    cbn [Gif.process_rows]; [auto|].
  destruct (Gif.process_row CONFIG candidates previous y 0 pixels)
    as [row|] eqn:Hrow; cbn [mbind result_bind]; [|discriminate].
  destruct (Gif.process_rows CONFIG candidates previous (S y) rows)
    as [rest|] eqn:Hrest; cbn [mbind result_bind]; [|discriminate].
  intros [= <-] Hgrid.
  rewrite (process_row_settled CONFIG candidates previous grid y row pixels
             (eq_trans (f_equal (fun n => grid !! n) (eq_sym (Nat.add_0_r y)))
                (Hgrid 0%nat row eq_refl)) 0%nat row Hrow)
    by (intros k cell Hk; exact Hk).
  cbn [mbind result_bind].
  rewrite (IH (S y) rest Hrest).
  - reflexivity.
  - intros k r Hk. replace (S y + k)%nat with (y + S k)%nat by lia.
    apply Hgrid. exact Hk.
Qed.

(** ** The shape of the choices *)

Lemma process_row_shape (CONFIG : config) (candidates : list candidate)
  (previous : option (list (list choice))) (y : nat) (pixels : list rgb) :
  forall x cells,
    Gif.process_row CONFIG candidates previous y x pixels = Returns cells ->
    length cells = length pixels.
Proof.
  induction pixels as [|px pixels IH]; intros x cells; cbn [Gif.process_row].
  - intros [= <-]. reflexivity.
  - destruct (Gif.previous_choice previous y x) as [previousChoiceId|];
      cbn [mbind result_bind]; [|discriminate].
    destruct (Gif.process_row CONFIG candidates previous y (S x) pixels)
      as [rest|] eqn:Hrest; cbn [mbind result_bind]; [|discriminate].
    intros [= <-]. simpl. rewrite (IH (S x) rest Hrest). reflexivity.
Qed.

Lemma process_rows_shape (CONFIG : config) (candidates : list candidate)
  (previous : option (list (list choice))) (rows : list (list rgb)) :
  forall y chosen,
    Gif.process_rows CONFIG candidates previous y rows = Returns chosen ->
    shape chosen = shape rows.
Proof.
  induction rows as [|pixels rows IH]; intros y chosen;
    cbn [Gif.process_rows].
  - intros [= <-]. reflexivity.
  - destruct (Gif.process_row CONFIG candidates previous y 0 pixels)
      as [row|] eqn:Hrow; cbn [mbind result_bind]; [|discriminate].
    destruct (Gif.process_rows CONFIG candidates previous (S y) rows)
      as [rest|] eqn:Hrest; cbn [mbind result_bind]; [|discriminate].
    intros [= <-]. unfold shape in *. rewrite !fmap_cons.
    rewrite (process_row_shape _ _ _ _ _ _ _ Hrow), (IH (S y) rest Hrest).
    reflexivity.
Qed.

Lemma process_row_returns (CONFIG : config) (candidates : list candidate)
  (grid : list (list choice)) (y : nat) (pixels : list rgb) :
  (y < length grid)%nat ->
  forall x,
    exists cells,
      Gif.process_row CONFIG candidates (Some grid) y x pixels
        = Returns cells.
Proof.
  intros Hy. destruct (lookup_lt_is_Some_2 grid y Hy) as [whole Hwhole].
  induction pixels as [|px pixels IH]; intros x; cbn [Gif.process_row];
    [eauto|].
  cbn [Gif.previous_choice]. rewrite Hwhole. cbn [mbind result_bind].
  destruct (IH (S x)) as [rest ->]. cbn [mbind result_bind]. eauto.
Qed.

Lemma process_rows_returns (CONFIG : config) (candidates : list candidate)
  (grid : list (list choice)) (rows : list (list rgb)) :
  forall y,
    (y + length rows <= length grid)%nat ->
    exists chosen,
      Gif.process_rows CONFIG candidates (Some grid) y rows = Returns chosen.
Proof.
  induction rows as [|pixels rows IH]; intros y Hy; cbn [Gif.process_rows];
    [eauto|].
  simpl in Hy.
  destruct (process_row_returns CONFIG candidates grid y pixels) with (x := 0%nat)
    as [row ->]; [lia|].
  cbn [mbind result_bind]. destruct (IH (S y)) as [rest ->]; [lia|].
  cbn [mbind result_bind]. eauto.
Qed.


(** ** The loop over the frames *)

Lemma frames_from_later (CONFIG : config) (textureData : textureData)
  (candidates : list candidate) (frameData : list (list (list rgb))) :
  forall st i frames st',
    i <> 0%nat -> GifJob.encoder st = Some frames ->
    GifJob.frames_from CONFIG textureData candidates st i frameData
      = Returns st' ->
    exists grids,
      follows CONFIG candidates (GifJob.previousFrameChoices st) frameData
        grids /\
      GifJob.encoder st' = Some (frames ++ grids) /\
      GifJob.written st' = GifJob.written st.
Proof.
  induction frameData as [|frame rest IH]; intros st i frames st' Hi Henc;
    cbn [GifJob.frames_from].
  - intros [= <-]. exists []. cbn [follows]. rewrite app_nil_r. auto.
  - unfold GifJob.frame_step.
    destruct (Gif.processImageFrame CONFIG frame candidates
                (GifJob.previousFrameChoices st)) as [grid|] eqn:Hgrid;
      cbn [mbind result_bind]; [|discriminate].
    destruct (Nat.eqb_spec i 0) as [|_]; [congruence|].
    cbn [mbind result_bind]. rewrite Henc. cbn [mbind result_bind].
    intros Hrest.
    apply IH with (frames := frames ++ [grid]) in Hrest
      as (grids & Hfollows & Henc' & Hwritten); [|lia | reflexivity].
    exists (grid :: grids). cbn [follows GifJob.previousFrameChoices] in *.
    split; [auto|]. rewrite Henc', <- app_assoc. cbn [GifJob.written] in *.
    auto.
Qed.

Lemma frames_from_follows (CONFIG : config) (textureData : textureData)
  (candidates : list candidate) (frameData : list (list (list rgb))) :
  forall st i frames grids,
    i <> 0%nat -> GifJob.encoder st = Some frames ->
    follows CONFIG candidates (GifJob.previousFrameChoices st) frameData
      grids ->
    exists st',
      GifJob.frames_from CONFIG textureData candidates st i frameData
        = Returns st' /\
      GifJob.encoder st' = Some (frames ++ grids) /\
      GifJob.written st' = GifJob.written st.
Proof.
  induction frameData as [|frame rest IH]; intros st i frames grids Hi Henc;
    destruct grids as [|grid grids]; cbn [follows GifJob.frames_from];
    try contradiction.
  - intros _. exists st. rewrite app_nil_r. auto.
  - intros [Hgrid Hfollows]. unfold GifJob.frame_step. rewrite Hgrid.
    cbn [mbind result_bind].
    destruct (Nat.eqb_spec i 0) as [|_]; [congruence|].
    cbn [mbind result_bind]. rewrite Henc. cbn [mbind result_bind].
    destruct (IH (GifJob.Run (Some grid) (Some (frames ++ [grid]))
                    (GifJob.written st)) (S i) (frames ++ [grid]) grids)
      as (st' & Hst' & Henc' & Hwritten); [lia | reflexivity | exact Hfollows|].
    exists st'. split; [exact Hst'|]. rewrite Henc', <- app_assoc.
    cbn [GifJob.written] in Hwritten. auto.
Qed.

Lemma animated_run (CONFIG : config) (textureData : textureData)
  (frameData : list (list (list rgb))) (out : GifJob.output) :
  GifJob.main CONFIG textureData (GifJob.Animated frameData) = Returns out
  <->
  exists candidates first others,
    loadAndPrepareCandidates CONFIG textureData = Returns candidates /\
    follows CONFIG candidates None frameData (first :: others) /\
    generateBlueprintFiles first (texture_palette textureData)
      = Returns (GifJob.out_blueprint out) /\
    GifJob.out_frames out = first :: others.
Proof.
  unfold GifJob.main.
  destruct (loadAndPrepareCandidates CONFIG textureData)
    as [candidates|e]; cbn [mbind result_bind].
  2:{ split; [discriminate|]. intros (c & f & o & Hc & _). discriminate. }
  destruct frameData as [|frame rest].
  { cbn [GifJob.frames_from mbind result_bind GifJob.encoder].
    split; [discriminate|].
    intros (c & f & o & _ & Hfollows & _). destruct Hfollows. }
  cbn [GifJob.frames_from]. unfold GifJob.frame_step at 1.
  cbn [GifJob.previousFrameChoices Nat.eqb].
  destruct (Gif.processImageFrame CONFIG frame candidates None)
    as [grid|e] eqn:Hgrid; cbn [mbind result_bind].
  2:{ split; [discriminate|].
      intros (c & f & o & [= <-] & [Hf _] & _). congruence. }
  destruct (generateBlueprintFiles grid (texture_palette textureData))
    as [blueprint|e] eqn:Hblueprint; cbn [mbind result_bind app].
  2:{ split; [discriminate|].
      intros (c & f & o & [= <-] & [Hf _] & Hb & _).
      rewrite Hgrid in Hf. injection Hf as <-. congruence. }
  split.
  - destruct (GifJob.frames_from CONFIG textureData candidates _ 1 rest)
      as [st'|e] eqn:Hrest; cbn [mbind result_bind]; [|discriminate].
    apply frames_from_later with (frames := [grid]) in Hrest
      as (grids & Hfollows & Henc & Hwritten); [|lia | reflexivity].
    rewrite Henc. intros [= <-].
    exists candidates, grid, grids. split; [reflexivity|].
    cbn [follows GifJob.out_blueprint GifJob.out_frames].
    cbn [GifJob.previousFrameChoices GifJob.written] in *.
    rewrite Hwritten. auto.
  - intros (c & first & others & [= <-] & [Hf Hfollows] & Hb & Hframes).
    rewrite Hgrid in Hf. injection Hf as <-.
    destruct (frames_from_follows CONFIG textureData candidates rest
                (GifJob.Run (Some grid) (Some [grid]) blueprint) 1%nat
                [grid] others) as (st' & -> & Henc & Hwritten);
      [lia | reflexivity | exact Hfollows|].
    cbn [mbind result_bind]. rewrite Henc.
    cbn [GifJob.written] in Hwritten. rewrite Hwritten.
    destruct out as [bp frames].
    cbn [GifJob.out_blueprint GifJob.out_frames app] in *. congruence.
Qed.

End GifJobFacts.

Module GifJobSpec.
Import StillJob JobFacts GifJobFacts.

(** X17.  A frame that repeats is chosen alike: processing a frame once more,
    with the choices it just got as the previous ones, returns those very
    choices.  The textures of a still passage of a GIF do not change,
    whatever the switch threshold. *)
Theorem repeated_frame_keeps_its_choices (CONFIG : config)
  (frame : list (list rgb)) (candidates : list candidate)
  (previous : option (list (list choice))) (chosen : list (list choice)) :
  Gif.processImageFrame CONFIG frame candidates previous = Returns chosen ->
  Gif.processImageFrame CONFIG frame candidates (Some chosen)
    = Returns chosen.
Proof.
  unfold Gif.processImageFrame. intros Hchosen.
  apply (process_rows_settled CONFIG candidates previous chosen frame 0%nat
           chosen Hchosen).
  intros k row Hk. exact Hk.
Qed.

Lemma repeated_frame_keeps_its_choices_witness :
  Gif.processImageFrame CONFIG_gif [[Rgb 250 0 0; Rgb 0 0 250]]
    [Sample.c_crimson; Sample.c_red; Sample.c_blue] (Some [[TexId 4; TexId 1]])
    = Returns [[TexId 4; TexId 1]].
Proof.
  apply (repeated_frame_keeps_its_choices CONFIG_gif
           [[Rgb 250 0 0; Rgb 0 0 250]]
           [Sample.c_crimson; Sample.c_red; Sample.c_blue]
           (Some [[TexId 4; TexId 4]])).
  vm_compute. reflexivity.
Defined.


Example processImageFrame_short_previous :
  Gif.processImageFrame CONFIG_gif [[Rgb 250 0 0]; [Rgb 0 0 250]]
    [Sample.c_red; Sample.c_blue] (Some [[TexId 0]])
    = Throws TypeError /\
  Gif.processImageFrame CONFIG_gif [[Rgb 250 0 0; Rgb 0 0 250]]
    [Sample.c_red; Sample.c_blue] (Some [[TexId 0]])
    = Returns [[TexId 0; TexId 1]].
Proof. split; vm_compute; reflexivity. Qed.

(** X19.  The run of the GIF script on the frames of a GIF.  It reaches its end
    exactly when the candidates could be prepared, there is a first
    frame, every frame could be processed with the choices of the frame
    before it (the first with none), and the blueprint of the first
    frame could be encoded; the output is then one frame of choices per
    input frame, and the blueprint is that of the first frame.  A GIF
    without frames makes the script fail with a [TypeError]. *)
Theorem gif_run_characterised (CONFIG : config) (textureData : textureData)
  (frameData : list (list (list rgb))) :
  (forall out,
     GifJob.main CONFIG textureData (GifJob.Animated frameData) = Returns out
     <->
     exists candidates first others,
       loadAndPrepareCandidates CONFIG textureData = Returns candidates /\
       follows CONFIG candidates None frameData (first :: others) /\
       generateBlueprintFiles first (texture_palette textureData)
         = Returns (GifJob.out_blueprint out) /\
       GifJob.out_frames out = first :: others) /\
  (forall candidates,
     loadAndPrepareCandidates CONFIG textureData = Returns candidates ->
     GifJob.main CONFIG textureData (GifJob.Animated []) = Throws TypeError).
Proof.
  split.
  - intros out. apply animated_run.
  - intros candidates Hc. unfold GifJob.main. rewrite Hc. reflexivity.
Qed.

(** Two frames over the sample index: the second frame is a little
    darker, and keeps the textures of the first; the blueprint is that of
    the first frame. *)
Example gif_run_of_two_frames :
  GifJob.main CONFIG_still
    (TextureData [Sample.red; Sample.blue] (face_index Sample.index))
    (GifJob.Animated [[[Rgb 255 0 0; Rgb 0 0 255]];
                      [[Rgb 250 0 0; Rgb 0 0 250]]])
    = Returns (GifJob.Output (Some (Blueprint [0xE000 + 7; 0xE000 + 3] 2 1))
                 [[[TexId 0; TexId 1]]; [[TexId 0; TexId 1]]]) /\
  GifJob.main CONFIG_still
    (TextureData [Sample.red; Sample.blue] (face_index Sample.index))
    (GifJob.Animated [])
    = Throws TypeError.
Proof. split; vm_compute; reflexivity. Qed.

(** X20.  The blueprint of a GIF is the blueprint of its first frame taken as
    a static image, and a GIF of one frame is processed as that image. *)
Theorem gif_blueprint_is_first_frame (CONFIG : config)
  (textureData : textureData) (frame : list (list rgb))
  (others : list (list (list rgb))) :
  GifJob.main CONFIG textureData (GifJob.Animated [frame])
    = GifJob.main CONFIG textureData (GifJob.Static frame) /\
  forall out,
    GifJob.main CONFIG textureData (GifJob.Animated (frame :: others))
      = Returns out ->
    exists first,
      head (GifJob.out_frames out) = Some first /\
      GifJob.main CONFIG textureData (GifJob.Static frame)
        = Returns (GifJob.Output (GifJob.out_blueprint out) [first]).
Proof.
  split.
  - unfold GifJob.main.
    destruct (loadAndPrepareCandidates CONFIG textureData)
      as [candidates|e]; cbn [mbind result_bind]; [|reflexivity].
    cbn [GifJob.frames_from]. unfold GifJob.frame_step.
    cbn [GifJob.previousFrameChoices Nat.eqb].
    destruct (Gif.processImageFrame CONFIG frame candidates None)
      as [grid|e]; cbn [mbind result_bind]; [|reflexivity].
    destruct (generateBlueprintFiles grid (texture_palette textureData))
      as [blueprint|e]; cbn [mbind result_bind]; reflexivity.
  - intros out Hout.
    apply animated_run
      in Hout as (candidates & first & rest & Hc & [Hfirst _] & Hb & Hframes).
    exists first. rewrite Hframes. split; [reflexivity|].
    unfold GifJob.main. rewrite Hc. cbn [mbind result_bind].
    rewrite Hfirst. cbn [mbind result_bind]. rewrite Hb. reflexivity.
Qed.

End GifJobSpec.

(* ================================================================== *)
(** * Part XXIV: when the encoder fails *)
(* ================================================================== *)

Module EncoderErrorFacts.
Import EncoderFacts.

Lemma code_point_dec (n : Z) : {code_point n} + {~ code_point n}.
Proof.
  unfold code_point.
  destruct (Z_le_dec 0 n); [|right; lia].
  destruct (Z_le_dec n 0x10FFFF); [left | right]; lia.
Qed.

Lemma fromCodePoint_rejects (n : Z) :
  ~ code_point n -> String_fromCodePoint n = Throws RangeError.
Proof.
  unfold code_point, String_fromCodePoint. intros Hn.
  destruct (Z.leb_spec 0 n); [|reflexivity].
  destruct (Z.leb_spec n 0x10FFFF); [lia | reflexivity].
Qed.

Lemma encode_row_rejects (texturePalette : list textureInfo)
  (row : list choice) (xs : list nat) :
  forall stringBuilder,
    Exists (fun x => ~ code_point (symbol_of texturePalette (row_get row x)))
      xs ->
    encode_row texturePalette row xs stringBuilder = Throws RangeError.
Proof.
  induction xs as [|x xs IH]; intros stringBuilder Hex.
  - inversion Hex.
  - cbn [encode_row].
    fold (symbol_of texturePalette (row_get row x)).
    destruct (code_point_dec (symbol_of texturePalette (row_get row x)))
      as [Hok|Hbad].
    + rewrite (fromCodePoint_code_point _ Hok). cbn [mbind result_bind].
      apply IH. inversion Hex; subst; [contradiction | assumption].
    + rewrite (fromCodePoint_rejects _ Hbad). reflexivity.
Qed.

Lemma cells_dec (texturePalette : list textureInfo) (cells : list choice) :
  {Forall (fun c => code_point (symbol_of texturePalette c)) cells}
  + {Exists (fun c => ~ code_point (symbol_of texturePalette c)) cells}.
Proof.
  induction cells as [|c cells [IH|IH]].
  - left. constructor.
  - destruct (code_point_dec (symbol_of texturePalette c)).
    + left. constructor; assumption.
    + right. constructor. assumption.
  - right. apply Exists_cons_tl. exact IH.
Qed.

Lemma encode_rows_rejects (texturePalette : list textureInfo) (width : nat)
  (rows : list (list choice)) :
  forall stringBuilder,
    Exists (rejected_in texturePalette width) rows ->
    encode_rows texturePalette rows width stringBuilder = Throws RangeError.
Proof.
  induction rows as [|row rows IH]; intros stringBuilder Hex.
  - inversion Hex.
  - cbn [encode_rows].
    destruct (cells_dec texturePalette (cells_read width row)) as [Hok|Hbad].
    + rewrite encode_row_spec
        by (unfold cells_read in Hok; rewrite Forall_fmap in Hok; exact Hok).
      cbn [mbind result_bind]. apply IH.
      inversion Hex as [? ? Hrow|]; subst; [|assumption].
      exfalso. unfold rejected_in in Hrow.
      apply Exists_exists in Hrow as (c & Hc & Hn).
      rewrite Forall_forall in Hok. apply Hn, Hok, Hc.
    + rewrite encode_row_rejects; [reflexivity|].
      unfold cells_read in Hbad. rewrite Exists_fmap in Hbad. exact Hbad.
Qed.

Lemma rows_dec (texturePalette : list textureInfo) (width : nat)
  (rows : list (list choice)) :
  {Forall (fun row =>
             Forall (fun c => code_point (symbol_of texturePalette c))
               (cells_read width row)) rows}
  + {Exists (rejected_in texturePalette width) rows}.
Proof.
  induction rows as [|row rows [IH|IH]].
  - left. constructor.
  - destruct (cells_dec texturePalette (cells_read width row)).
    + left. constructor; assumption.
    + right. constructor. assumption.
  - right. apply Exists_cons_tl. exact IH.
Qed.

(** What [generateBlueprintFiles] does on a grid with a first row. *)
Lemma generateBlueprintFiles_cases (row0 : list choice)
  (rows : list (list choice)) (texturePalette : list textureInfo) :
  (Forall (fun row =>
             Forall (fun c => code_point (symbol_of texturePalette c))
               (cells_read (length row0) row)) (row0 :: rows) /\
   generateBlueprintFiles (row0 :: rows) texturePalette
     = Returns (Some (Blueprint
         (concat ((fun row => symbol_of texturePalette
                                <$> cells_read (length row0) row)
                    <$> row0 :: rows))
         (length row0) (length (row0 :: rows))))) \/
  (Exists (rejected_in texturePalette (length row0)) (row0 :: rows) /\
   generateBlueprintFiles (row0 :: rows) texturePalette = Throws RangeError).
Proof.
  unfold generateBlueprintFiles.
  destruct (rows_dec texturePalette (length row0) (row0 :: rows))
    as [Hok|Hbad].
  - left. split; [exact Hok|].
    rewrite (encode_rows_spec _ _ _ [] Hok). reflexivity.
  - right. split; [exact Hbad|].
    rewrite (encode_rows_rejects _ _ _ [] Hbad). reflexivity.
Qed.

End EncoderErrorFacts.

Module EncoderErrorSpec.
Import EncoderFacts EncoderErrorFacts.

(** X21.  [generateBlueprintFiles] on a grid with a first row either returns a
    blueprint or throws a [RangeError], before anything is written.  It
    throws exactly when [String.fromCodePoint] rejects a symbol of a cell
    it reads: a block id below -0xE000 or above 0x10FFFF - 0xE000.  When
    it returns, the blueprint has the width of the first row and the
    height of the grid, and that many symbols by row: a longer row is
    cut, a shorter one filled with the symbol of block id 0. *)
Theorem generateBlueprintFiles_fails_iff (row0 : list choice)
  (rows : list (list choice)) (texturePalette : list textureInfo) :
  (generateBlueprintFiles (row0 :: rows) texturePalette = Throws RangeError
   <-> Exists (rejected_in texturePalette (length row0)) (row0 :: rows)) /\
  ((exists symbols,
      generateBlueprintFiles (row0 :: rows) texturePalette
        = Returns (Some (Blueprint symbols (length row0)
                           (length (row0 :: rows)))) /\
      length symbols = (length row0 * length (row0 :: rows))%nat)
   \/ generateBlueprintFiles (row0 :: rows) texturePalette
        = Throws RangeError).
Proof.
  destruct (generateBlueprintFiles_cases row0 rows texturePalette)
    as [[Hok ->]|[Hbad ->]].
  - split.
    + split; [discriminate|]. intros Hbad. exfalso.
      apply Exists_exists in Hbad as (row & Hrow & Hrej).
      rewrite Forall_forall in Hok. specialize (Hok row Hrow).
      apply Exists_exists in Hrej as (c & Hc & Hn).
      rewrite Forall_forall in Hok. apply Hn, Hok, Hc.
    + left. eexists. split; [reflexivity|].
      generalize (row0 :: rows). intros grid.
      induction grid as [|row grid IH]; [simpl; lia|].
      rewrite fmap_cons. cbn [concat]. rewrite length_app, IH.
      unfold cells_read. rewrite !length_fmap, length_seq. simpl. lia.
  - split; [split; auto | right; reflexivity].
Qed.

Example generateBlueprintFiles_rejects :
  generateBlueprintFiles [[TexId 0]]
    [TextureInfo 0 0 0 false 1 ["#ff0000"%string] [64] (Some [1056768])]
    = Throws RangeError /\
  generateBlueprintFiles [[TexId 0]; [TexId 0; TexId 0]; []]
    [TextureInfo 0 0 0 false 1 ["#ff0000"%string] [64] (Some [1056767])]
    = Returns (Some (Blueprint [0x10FFFF; 0x10FFFF; 0xE000] 1 3)).
Proof. split; vm_compute; reflexivity. Qed.

End EncoderErrorSpec.

(* ================================================================== *)
(** * Part XXV: from the block mapping to the blueprint *)
(* ================================================================== *)

Module PipelineFacts.
Import FilterFacts EncoderFacts EncoderErrorFacts.

Lemma candidates_in_palette (CONFIG : config) (textureData : textureData)
  (candidates : list candidate) (c : candidate) :
  loadAndPrepareCandidates CONFIG textureData = Returns candidates ->
  c ∈ candidates -> textureInfo_of c ∈ texture_palette textureData.
Proof.
  intros Hload Hc.
  pose proof (loadAndPrepareCandidates_cases CONFIG textureData) as Hcases.
  destruct (face_index textureData !! faceDirection CONFIG) as [faceIndex|];
    [|destruct Hcases as [e He]; congruence].
  destruct (prepared CONFIG faceIndex (texture_palette textureData))
    as [|c0 cs] eqn:Hprepared; [destruct Hcases as [e He]; congruence|].
  rewrite Hcases in Hload. injection Hload as <-.
  rewrite <- Hprepared, prepared_filtered in Hc. unfold filtered in Hc.
  apply list_elem_of_omap in Hc as (t & Ht & Hcand).
  unfold candidate_of in Hcand.
  destruct (passes CONFIG _ t); [|discriminate].
  destruct (calculatePerceivedColor t (searchDepth CONFIG)); [|discriminate].
  injection Hcand as <-. exact Ht.
Qed.

(** A texture read from the index file is found at its id, and the block
    id the encoder takes for it is a listed one. *)
Lemma read_texture_block (analyzeTexture : textureRef -> result Indexer.analysis)
  (blockEntries : list (string * blockData)) (out : Indexer.output)
  (textureData : textureData) (t : textureInfo) :
  Indexer.main analyzeTexture blockEntries = Returns out ->
  reads_index out textureData ->
  t ∈ texture_palette textureData ->
  Some (cell_blockId (texture_palette textureData) (TexId (textureId t)))
    ∈ Indexer.out_includedBlockIds out.
Proof.
  intros Hmain [Hpalette _] Ht.
  apply list_elem_of_lookup in Ht as [i Hi].
  destruct (Forall2_lookup_r _ _ _ _ _ Hpalette Hi) as (w & Hw & Hread).
  destruct (IndexFacts.written_texture _ _ _ _ _ Hmain Hw)
    as (Hid & ids & Hids & Hne & Hall).
  destruct Hread as (Htid & _ & _ & _ & _ & _ & _ & Hblocks).
  cbn [cell_blockId]. unfold array_get. rewrite Htid, Hid.
  destruct (Z.ltb_spec (Z.of_nat i) 0); [lia|].
  rewrite Nat2Z.id, Hi. rewrite Hids in Hblocks.
  destruct (blockIds t) as [[|first others]|]; simpl in Hblocks;
    [ injection Hblocks as ->; congruence
    | injection Hblocks as ->
    | discriminate ].
  apply Hall. apply elem_of_cons. left. reflexivity.
Qed.

Lemma chosen_cell_available
  (analyzeTexture : textureRef -> result Indexer.analysis)
  (blockEntries : list (string * blockData)) (out : Indexer.output)
  (CONFIG : config) (textureData : textureData)
  (candidates : list candidate) (cell : choice) :
  Indexer.main analyzeTexture blockEntries = Returns out ->
  reads_index out textureData ->
  loadAndPrepareCandidates CONFIG textureData = Returns candidates ->
  chosen_from candidates cell \/ cell = Undefined ->
  available_symbol out (symbol_of (texture_palette textureData) cell).
Proof.
  intros Hmain Hreads Hload [[->|(c & Hc & ->)]| ->]; unfold available_symbol,
    decode, symbol_of.
  - left. cbn [cell_blockId]. lia.
  - right.
    replace (UNICODE_PRIVATE_USE_START + _ - UNICODE_PRIVATE_USE_START)
      with (cell_blockId (texture_palette textureData)
              (TexId (textureId (textureInfo_of c)))) by lia.
    eapply read_texture_block; [exact Hmain | exact Hreads|].
    eapply candidates_in_palette; eassumption.
  - left. cbn [cell_blockId]. lia.
Qed.

Lemma blueprint_available
  (analyzeTexture : textureRef -> result Indexer.analysis)
  (blockEntries : list (string * blockData)) (out : Indexer.output)
  (CONFIG : config) (textureData : textureData)
  (candidates : list candidate) (grid : list (list choice))
  (bp : blueprint) :
  Indexer.main analyzeTexture blockEntries = Returns out ->
  reads_index out textureData ->
  loadAndPrepareCandidates CONFIG textureData = Returns candidates ->
  Forall (Forall (chosen_from candidates)) grid ->
  generateBlueprintFiles grid (texture_palette textureData)
    = Returns (Some bp) ->
  Forall (available_symbol out) (blockMapString bp).
Proof.
  intros Hmain Hreads Hload Hgrid Hbp.
  destruct grid as [|row0 rows]; [discriminate|].
  destruct (generateBlueprintFiles_cases row0 rows
              (texture_palette textureData)) as [[_ Heq]|[_ Heq]];
    rewrite Heq in Hbp; [|discriminate].
  injection Hbp as <-.
  assert (Hall : forall (w : nat) (grid : list (list choice)),
    Forall (Forall (chosen_from candidates)) grid ->
    Forall (available_symbol out)
      (concat ((fun row => symbol_of (texture_palette textureData)
                             <$> cells_read w row) <$> grid))).
  { clear Hgrid Heq. intros w grid Hgrid.
    induction Hgrid as [|row grid Hrow _ IH]; [constructor|].
    rewrite fmap_cons. cbn [concat]. apply Forall_app. split; [|exact IH].
    apply Forall_fmap, Forall_forall. intros cell Hcell. simpl.
    unfold cells_read in Hcell.
    apply list_elem_of_fmap in Hcell as (x & -> & _).
    eapply chosen_cell_available; try eassumption.
    unfold row_get. destruct (row !! x) as [cell|] eqn:Hx;
      [left | right; reflexivity].
    rewrite Forall_forall in Hrow. apply Hrow.
    eapply list_elem_of_lookup_2, Hx. }
  apply (Hall (length row0) (row0 :: rows) Hgrid).
Qed.

End PipelineFacts.

Module PipelineSpec.
Import PipelineFacts JobFacts FrameSpec.

(** X22.  From the block mapping to the blueprint.  When a bloxelizer runs on
    the index file the indexer wrote, every symbol of the blueprint it
    writes stands for block id 0 or for a block id of the indexer's list
    of available block ids: a block the indexer left out is never placed
    through a texture.  This holds of the still-image script and of the
    GIF script, on a GIF and on a single image. *)
Theorem blueprint_holds_available_blocks
  (analyzeTexture : textureRef -> result Indexer.analysis)
  (blockEntries : list (string * blockData)) (out : Indexer.output)
  (textureData : textureData) :
  Indexer.main analyzeTexture blockEntries = Returns out ->
  reads_index out textureData ->
  (forall intToRGBA resized bp,
     StillJob.main intToRGBA textureData resized = Returns (Some bp) ->
     Forall (available_symbol out) (blockMapString bp)) /\
  (forall CONFIG inputFile run bp,
     GifJob.main CONFIG textureData inputFile = Returns run ->
     GifJob.out_blueprint run = Some bp ->
     Forall (available_symbol out) (blockMapString bp)).
Proof.
  intros Hmain Hreads. split.
  - intros intToRGBA resized bp. unfold StillJob.main.
    destruct (loadAndPrepareCandidates CONFIG_still textureData)
      as [candidates|e] eqn:Hload; cbn [mbind result_bind]; [|discriminate].
    rewrite (proj1 (match_rows_spec intToRGBA candidates resized ∅
                      (empty_cache_sound intToRGBA candidates))).
    intros Hbp.
    eapply blueprint_available; try eassumption.
    unfold matched_grid. apply Forall_fmap, Forall_forall. intros pixels _.
    simpl. apply Forall_fmap, Forall_forall. intros px _. simpl.
    destruct (Still.findBestMatch (intToRGBA px) candidates) as [t|] eqn:Ht;
      [|left; reflexivity].
    right. apply findBestMatch_static_elem in Ht as (c & Hc & <-).
    exists c. auto.
  - intros CONFIG inputFile run bp Hrun Hbp.
    destruct inputFile as [frameData|sourceImage].
    + apply GifJobFacts.animated_run in Hrun
        as (candidates & first & others & Hload & Hfollows & Hfirst & _).
      rewrite Hbp in Hfirst.
      destruct frameData as [|frame rest]; [destruct Hfollows|].
      destruct Hfollows as [Hframe _].
      eapply blueprint_available; try eassumption.
      apply (process_rows_chosen _ _ _ _ _ _ Hframe).
    + unfold GifJob.main in Hrun.
      destruct (loadAndPrepareCandidates CONFIG textureData)
        as [candidates|e] eqn:Hload; cbn [mbind result_bind] in Hrun;
        [|discriminate].
      destruct (Gif.processImageFrame CONFIG sourceImage candidates None)
        as [grid|e] eqn:Hgrid; cbn [mbind result_bind] in Hrun;
        [|discriminate].
      destruct (generateBlueprintFiles grid (texture_palette textureData))
        as [blueprint|e] eqn:Hblueprint; cbn [mbind result_bind] in Hrun;
        [|discriminate].
      injection Hrun as <-. cbn [GifJob.out_blueprint] in Hbp. subst blueprint.
      eapply blueprint_available; try eassumption.
      apply (process_rows_chosen _ _ _ _ _ _ Hgrid).
Qed.

Lemma blueprint_holds_available_blocks_witness :
  exists out,
    Indexer.main Sample.plain_red Sample.blocks = Returns out /\
    let textureData :=
      TextureData
        [TextureInfo 0 0 1 false 1 ["#ff0000"%string] [64] (Some [2; 12]);
         TextureInfo 1 0 2 false 1 ["#ff0000"%string] [64] (Some [2])]
        (Indexer.out_face_index out) in
    (forall intToRGBA resized bp,
       StillJob.main intToRGBA textureData resized = Returns (Some bp) ->
       Forall (available_symbol out) (blockMapString bp)) /\
    (forall CONFIG inputFile run bp,
       GifJob.main CONFIG textureData inputFile = Returns run ->
       GifJob.out_blueprint run = Some bp ->
       Forall (available_symbol out) (blockMapString bp)).
Proof.
  destruct (Indexer.main Sample.plain_red Sample.blocks) as [out|e] eqn:Hmain.
  - exists out. split; [reflexivity|].
    apply (blueprint_holds_available_blocks Sample.plain_red Sample.blocks
             out _ Hmain).
    pose proof Hmain as Hout. vm_compute in Hout. injection Hout as <-.
    split; [|reflexivity].
    repeat (apply List.Forall2_cons; [repeat split|]).
    apply List.Forall2_nil.
  - vm_compute in Hmain. discriminate.
Defined.

Example blueprint_of_sample_index :
  StillJob.main (fun px => Rgb (of_Z px) 0 0)
    (TextureData
       [TextureInfo 0 0 1 false 1 ["#ff0000"%string] [64] (Some [2; 12]);
        TextureInfo 1 0 2 false 1 ["#ff0000"%string] [64] (Some [2])]
       {[ "front"%string := {[ "#ff0000"%string := [0; 1] ]} ]})
    [[255; 7]; [7; 255]]
    = Returns (Some (Blueprint [0xE002; 0xE002; 0xE002; 0xE002] 2 2)).
Proof. vm_compute. reflexivity. Qed.

End PipelineSpec.

(* ================================================================== *)
(** * Part XXVI: the two lists of block ids *)
(* ================================================================== *)

Module GeneratorFacts.
Import IndexerFacts.

(** The set the loop of the generator builds. *)
Lemma generator_set (blockEntries : list (string * blockData)) :
  forall (acc : gset (option Z)) (id : option Z),
    id ∈ fold_left IncludedBlockIds.block_step blockEntries acc <->
    id ∈ acc \/
    exists entry,
      entry ∈ blockEntries /\
      includes (block_name (snd entry)) "Slab" = false /\
      parseInt_Z (fst entry) 10 = id.
Proof.
  induction blockEntries as [|[blockId blockData] rest IH]; intros acc id;
    cbn [fold_left].
  - split; [auto|]. intros [H|(entry & Hin & _)]; [exact H|].
    apply elem_of_nil in Hin. destruct Hin.
  - rewrite IH. unfold IncludedBlockIds.block_step.
    destruct (includes (block_name blockData) "Slab") eqn:Hslab.
    + split.
      * intros [H|(entry & Hin & Hrest)]; [auto|].
        right. exists entry. split; [apply elem_of_cons; auto | exact Hrest].
      * intros [H|(entry & Hin & Hno & Hid)]; [auto|].
        apply elem_of_cons in Hin as [->|Hin].
        -- simpl in Hno. congruence.
        -- right. eauto.
    + rewrite elem_of_union, elem_of_singleton. split.
      * intros [[->|H]|(entry & Hin & Hrest)].
        -- right. exists (blockId, blockData).
           split; [apply elem_of_cons; auto | auto].
        -- auto.
        -- right. exists entry.
           split; [apply elem_of_cons; auto | exact Hrest].
      * intros [H|(entry & Hin & Hno & Hid)]; [auto|].
        apply elem_of_cons in Hin as [->|Hin].
        -- simpl in Hid. auto.
        -- right. eauto.
Qed.

Lemma generator_elem (blockEntries : list (string * blockData))
  (id : option Z) :
  id ∈ IncludedBlockIds.main blockEntries <->
  exists entry,
    entry ∈ blockEntries /\
    includes (block_name (snd entry)) "Slab" = false /\
    parseInt_Z (fst entry) 10 = id.
Proof.
  unfold IncludedBlockIds.main. rewrite sort_numeric_elem, elem_of_elements.
  rewrite generator_set. split; [|auto].
  intros [H|H]; [|exact H]. apply elem_of_empty in H. destruct H.
Qed.

Lemma indexer_elem (analyzeTexture : textureRef -> result Indexer.analysis)
  (blockEntries : list (string * blockData)) (out : Indexer.output)
  (id : option Z) :
  Indexer.main analyzeTexture blockEntries = Returns out ->
  (id ∈ Indexer.out_includedBlockIds out <->
   exists entry,
     entry ∈ blockEntries /\ excluded entry = false /\
     parseInt_Z (fst entry) 10 = id).
Proof.
  unfold Indexer.main. intros Hout.
  destruct (Indexer.for_of (Indexer.block_step analyzeTexture) blockEntries
              Indexer.initial) as [st|e] eqn:Hloop; simpl in Hout;
    [|discriminate].
  injection Hout as <-. simpl.
  rewrite sort_numeric_elem.
  rewrite (blocks_includedBlockIds analyzeTexture _ _ _ Hloop). simpl.
  rewrite list_elem_of_fmap. split.
  - intros (entry & -> & Hentry). exists entry.
    apply list_elem_of_In, filter_In in Hentry as [Hin Hexcluded].
    apply negb_true_iff in Hexcluded.
    split; [apply list_elem_of_In; exact Hin | auto].
  - intros (entry & Hin & Hexcluded & <-). exists entry.
    split; [reflexivity|].
    apply list_elem_of_In, filter_In.
    split; [apply list_elem_of_In; exact Hin|].
    rewrite Hexcluded. reflexivity.
Qed.

End GeneratorFacts.

Module GeneratorSpec.
Import IndexerFacts GeneratorFacts.

(** X13.  The list [generate_included_blockids.js] writes holds the parsed id
    of every block whose name does not contain "Slab", and nothing else;
    it holds no id twice and is in the order of the comparator. *)
Theorem generator_lists_blocks_that_are_no_slabs
  (blockEntries : list (string * blockData)) :
  NoDup (IncludedBlockIds.main blockEntries) /\
  Sorted num_le (IncludedBlockIds.main blockEntries) /\
  forall id,
    id ∈ IncludedBlockIds.main blockEntries <->
    exists entry,
      entry ∈ blockEntries /\
      includes (block_name (snd entry)) "Slab" = false /\
      parseInt_Z (fst entry) 10 = id.
Proof.
  split; [|split].
  - unfold IncludedBlockIds.main, sort_numeric.
    rewrite merge_sort_Permutation. apply NoDup_elements.
  - apply sort_numeric_sorted.
  - apply generator_elem.
Qed.

(** X14.  The two lists of block ids side by side: every id the indexer lists
    is listed by the generator; an id the generator lists and the indexer
    does not is the id of a block of the fixed exclusion set; and on a
    block mapping without such blocks the two lists hold the same ids. *)
Theorem indexer_and_generator_lists
  (analyzeTexture : textureRef -> result Indexer.analysis)
  (blockEntries : list (string * blockData)) (out : Indexer.output) :
  Indexer.main analyzeTexture blockEntries = Returns out ->
  (forall id,
     id ∈ Indexer.out_includedBlockIds out ->
     id ∈ IncludedBlockIds.main blockEntries) /\
  (forall id,
     id ∈ IncludedBlockIds.main blockEntries ->
     id ∉ Indexer.out_includedBlockIds out ->
     exists entry,
       entry ∈ blockEntries /\ fst entry ∈ Indexer.idsToSkip /\
       parseInt_Z (fst entry) 10 = id) /\
  ((forall entry, entry ∈ blockEntries -> fst entry ∉ Indexer.idsToSkip) ->
   forall id,
     id ∈ IncludedBlockIds.main blockEntries <->
     id ∈ Indexer.out_includedBlockIds out).
Proof.
  intros Hmain.
  assert (Hsub : forall id,
    id ∈ Indexer.out_includedBlockIds out ->
    id ∈ IncludedBlockIds.main blockEntries).
  { intros id Hid. apply (indexer_elem _ _ _ id Hmain) in Hid
      as (entry & Hin & Hex & Hparse).
    apply generator_elem. exists entry. split; [exact Hin|].
    split; [|exact Hparse].
    unfold excluded in Hex. apply orb_false_iff in Hex as [Hslab _].
    exact Hslab. }
  assert (Hdiff : forall id,
    id ∈ IncludedBlockIds.main blockEntries ->
    id ∉ Indexer.out_includedBlockIds out ->
    exists entry,
      entry ∈ blockEntries /\ fst entry ∈ Indexer.idsToSkip /\
      parseInt_Z (fst entry) 10 = id).
  { intros id Hgen Hnot.
    apply generator_elem in Hgen as (entry & Hin & Hslab & Hparse).
    exists entry. split; [exact Hin|]. split; [|exact Hparse].
    destruct (decide (fst entry ∈ Indexer.idsToSkip)) as [Hskip|Hkeep];
      [exact Hskip|].
    exfalso. apply Hnot. apply (indexer_elem _ _ _ id Hmain).
    exists entry. split; [exact Hin|]. split; [|exact Hparse].
    unfold excluded. rewrite Hslab. simpl.
    apply bool_decide_eq_false_2. exact Hkeep. }
  split; [exact Hsub|]. split; [exact Hdiff|].
  intros Hnone id. split; [|apply Hsub].
  intros Hgen.
  destruct (decide (id ∈ Indexer.out_includedBlockIds out)) as [Hin|Hout];
    [exact Hin|].
  destruct (Hdiff id Hgen Hout) as (entry & Hin & Hskip & _).
  destruct (Hnone entry Hin Hskip).
Qed.

Lemma indexer_and_generator_lists_witness :
  exists out,
    Indexer.main Sample.plain_red Sample.blocks = Returns out /\
    (forall id,
       id ∈ Indexer.out_includedBlockIds out ->
       id ∈ IncludedBlockIds.main Sample.blocks) /\
    (forall id,
       id ∈ IncludedBlockIds.main Sample.blocks ->
       id ∉ Indexer.out_includedBlockIds out ->
       exists entry,
         entry ∈ Sample.blocks /\ fst entry ∈ Indexer.idsToSkip /\
         parseInt_Z (fst entry) 10 = id) /\
    ((forall entry, entry ∈ Sample.blocks ->
        fst entry ∉ Indexer.idsToSkip) ->
     forall id,
       id ∈ IncludedBlockIds.main Sample.blocks <->
       id ∈ Indexer.out_includedBlockIds out).
Proof.
  destruct (Indexer.main Sample.plain_red Sample.blocks) as [out|e] eqn:Hmain.
  - exists out. split; [reflexivity|].
    apply (indexer_and_generator_lists Sample.plain_red Sample.blocks out
             Hmain).
  - vm_compute in Hmain. discriminate.
Defined.

End GeneratorSpec.

(* ================================================================== *)
(** * Part XXVII: colours that meet *)
(* ================================================================== *)

Module ExactMatchFacts.
Import JsFacts MatcherFacts ByteFacts.

Lemma squared_distance_sym (c1 c2 : rgb8) :
  squared_distance c1 c2 = squared_distance c2 c1.
Proof. unfold squared_distance. lia. Qed.

Lemma squared_distance_zero (c1 c2 : rgb8) :
  squared_distance c1 c2 = 0 <-> c1 = c2.
Proof.
  unfold squared_distance. destruct c1 as [r1 g1 b1], c2 as [r2 g2 b2].
  cbn [r8 g8 b8]. split.
  - intros H.
    pose proof (Z.square_nonneg (r1 - r2)) as Hr.
    pose proof (Z.square_nonneg (g1 - g2)) as Hg.
    pose proof (Z.square_nonneg (b1 - b2)) as Hb.
    assert (Hr0 : (r1 - r2) * (r1 - r2) = 0) by lia.
    assert (Hg0 : (g1 - g2) * (g1 - g2) = 0) by lia.
    assert (Hb0 : (b1 - b2) * (b1 - b2) = 0) by lia.
    apply Z.mul_eq_0 in Hr0, Hg0, Hb0.
    f_equal; lia.
  - intros [= -> -> ->]. lia.
Qed.

Lemma root_zero (n : Z) :
  0 <= n <= 195075 -> (PrimFloat.sqrt (of_Z n) = 0%float <-> n = 0).
Proof.
  intros Hn. split.
  - intros Hroot. destruct (Z.eq_dec n 0) as [Hz|Hnz]; [exact Hz|].
    exfalso. pose proof (root_lt 0 n) as Hlt.
    rewrite Hroot in Hlt. change (PrimFloat.sqrt (of_Z 0)) with 0%float in Hlt.
    rewrite lt_irrefl in Hlt. specialize (Hlt ltac:(lia) ltac:(lia)).
    discriminate.
  - intros ->. reflexivity.
Qed.

End ExactMatchFacts.

Module ExactMatchSpec.
Import JsFacts MatcherFacts ByteFacts ExactMatchFacts.

(** X24.  Between colours with byte channels [colorDistance] is a number below
    [Infinity], the same in both directions, and 0 exactly between a
    colour and itself. *)
Theorem colorDistance_on_bytes (c1 c2 : rgb8) :
  in_range c1 -> in_range c2 ->
  lt (colorDistance (to_rgb c1) (to_rgb c2)) Infinity = true /\
  colorDistance (to_rgb c1) (to_rgb c2)
    = colorDistance (to_rgb c2) (to_rgb c1) /\
  (colorDistance (to_rgb c1) (to_rgb c2) = 0%float <-> c1 = c2).
Proof.
  intros H1 H2.
  rewrite (colorDistance_bytes c1 c2 H1 H2), (colorDistance_bytes c2 c1 H2 H1).
  pose proof (squared_distance_bound c1 c2 H1 H2) as Hbound.
  split; [apply root_finite, Hbound|].
  split; [rewrite squared_distance_sym; reflexivity|].
  rewrite (root_zero _ Hbound). apply squared_distance_zero.
Qed.

Lemma colorDistance_on_bytes_witness :
  lt (colorDistance (to_rgb (Rgb8 250 0 0)) (to_rgb (Rgb8 0 0 255))) Infinity
    = true /\
  colorDistance (to_rgb (Rgb8 250 0 0)) (to_rgb (Rgb8 0 0 255))
    = colorDistance (to_rgb (Rgb8 0 0 255)) (to_rgb (Rgb8 250 0 0)) /\
  (colorDistance (to_rgb (Rgb8 250 0 0)) (to_rgb (Rgb8 0 0 255)) = 0%float
   <-> Rgb8 250 0 0 = Rgb8 0 0 255).
Proof.
  apply (colorDistance_on_bytes (Rgb8 250 0 0) (Rgb8 0 0 255));
    unfold in_range; simpl; lia.
Defined.

(** X25.  A pixel that has exactly the perceived colour of a candidate gets, in
    the still-image script, a texture of exactly that colour: the first
    candidate of the list that has it. *)
Theorem exact_colour_is_matched (pixel : rgb8)
  (cs : list (textureInfo * rgb8)) (texture : textureInfo) :
  in_range pixel -> Forall (fun c => in_range (snd c)) cs ->
  (texture, pixel) ∈ cs ->
  exists before best after,
    cs = before ++ best :: after /\
    snd best = pixel /\
    (forall c, c ∈ before -> snd c <> pixel) /\
    Still.findBestMatch (to_rgb pixel) (candidate8 <$> cs)
      = Some (fst best).
Proof.
  intros Hpixel Hcs Hexact.
  assert (Hne : candidate8 <$> cs <> []).
  { destruct cs; [apply elem_of_nil in Hexact; destruct Hexact | discriminate]. }
  assert (Hmeasurable : Forall (measurable (to_rgb pixel)) (candidate8 <$> cs)).
  { apply Forall_fmap. eapply Forall_impl; [exact Hcs|]. intros c Hc.
    apply measurable_bytes; assumption. }
  destruct (nearest_spec (to_rgb pixel) (candidate8 <$> cs) Hne Hmeasurable)
    as (before' & best' & after' & Hsplit & Hscan & Hmin & Hfirst).
  apply fmap_app_inv in Hsplit as (before & rest & -> & Hrest & ->).
  symmetry in Hrest.
  apply fmap_cons_inv in Hrest as (best & after & -> & -> & ->).
  rewrite Forall_forall in Hcs.
  assert (Hbest : in_range (snd best)).
  { apply Hcs, elem_of_app. right. apply elem_of_cons. left. reflexivity. }
  assert (Hzero : squared_distance pixel (snd best) = 0).
  { pose proof (squared_distance_bound pixel (snd best) Hpixel Hbest).
    assert (Hle : squared_distance pixel (snd best)
                  <= squared_distance pixel (snd (texture, pixel))).
    { apply (le_distance_iff pixel best (texture, pixel)); auto.
      apply Hmin. apply list_elem_of_fmap. exists (texture, pixel).
      split; [reflexivity | exact Hexact]. }
    simpl in Hle. rewrite (proj2 (squared_distance_zero pixel pixel) eq_refl)
      in Hle. lia. }
  exists before, best, after. split; [reflexivity|].
  split; [symmetry; apply squared_distance_zero, Hzero|].
  split.
  - intros c Hc Hsame.
    assert (Hlt : squared_distance pixel (snd best)
                  < squared_distance pixel (snd c)).
    { apply (lt_distance_iff pixel best c); auto.
      - apply Hcs, elem_of_app. left. exact Hc.
      - apply Hfirst. apply list_elem_of_fmap. exists c.
        split; [reflexivity | exact Hc]. }
    rewrite Hsame, (proj2 (squared_distance_zero pixel pixel) eq_refl) in Hlt.
    lia.
  - unfold Still.findBestMatch. rewrite Hscan. reflexivity.
Qed.

Lemma exact_colour_is_matched_witness :
  exists before best after,
    [(Sample.crimson, Rgb8 240 0 0); (Sample.red, Rgb8 255 0 0);
     (Sample.blue, Rgb8 0 0 255)] = before ++ best :: after /\
    snd best = Rgb8 255 0 0 /\
    (forall c, c ∈ before -> snd c <> Rgb8 255 0 0) /\
    Still.findBestMatch (to_rgb (Rgb8 255 0 0))
      (candidate8 <$> [(Sample.crimson, Rgb8 240 0 0);
                       (Sample.red, Rgb8 255 0 0);
                       (Sample.blue, Rgb8 0 0 255)])
      = Some (fst best).
Proof.
  apply (exact_colour_is_matched (Rgb8 255 0 0) _ Sample.red).
  - unfold in_range. simpl. lia.
  - repeat (apply List.Forall_cons; [unfold in_range; simpl; lia|]).
    apply List.Forall_nil.
  - apply list_elem_of_further, list_elem_of_here.
Defined.

End ExactMatchSpec.

(* ================================================================== *)
(** * Part XXVIII: textures without a colour *)
(* ================================================================== *)

Module ColourlessFacts.
Import FilterFacts.

Lemma transparent_steps (texture : textureInfo) (idxs : list nat) :
  Forall (fun i => hex_at texture i = "#transparent"%string) idxs ->
  forall t, fold_left (perceived_step texture) idxs t = t.
Proof.
  induction 1 as [|i idxs Hi _ IH]; intros t; cbn [fold_left];
    [reflexivity|].
  unfold perceived_step at 2. rewrite Hi. cbn [hexToRgb String.eqb].
  change (String.eqb "#transparent" "#transparent") with true.
  cbv iota. apply IH.
Qed.

Lemma transparent_prefix (texture : textureInfo) (limit : nat) :
  (limit <= length (colorHexes texture))%nat ->
  Forall (fun hex => hex = "#transparent"%string)
    (take limit (colorHexes texture)) ->
  Forall (fun i => hex_at texture i = "#transparent"%string) (seq 0 limit).
Proof.
  intros Hlimit Hall. apply Forall_forall. intros i Hi.
  apply elem_of_seq in Hi. unfold hex_at.
  rewrite Forall_forall in Hall.
  destruct (lookup_lt_is_Some_2 (colorHexes texture) i) as [hex Hhex];
    [lia|].
  rewrite (nth_lookup_Some _ _ _ _ Hhex). apply Hall.
  apply list_elem_of_lookup. exists i. rewrite lookup_take_lt by lia.
  exact Hhex.
Qed.

Lemma depth_limit_le (depth : option nat) (len : nat) :
  (depth_limit depth len <= len)%nat.
Proof. destruct depth; simpl; lia. Qed.

Lemma colourless (texture : textureInfo) (depth : option nat) :
  Forall (fun hex => hex = "#transparent"%string)
    (take (depth_limit depth (length (colorHexes texture)))
       (colorHexes texture)) ->
  calculatePerceivedColor texture depth = None.
Proof.
  intros Hall. unfold calculatePerceivedColor.
  rewrite (transparent_steps texture _
             (transparent_prefix texture _ (depth_limit_le _ _) Hall)).
  reflexivity.
Qed.

End ColourlessFacts.

Module ColourlessSpec.
Import FilterFacts ColourlessFacts.

(** X26.  A texture without a colour within the search depth (each of its first
    [searchDepth] histogram keys, or all of them for an unbounded depth,
    is the transparent key) has no perceived colour and is never a
    candidate, whether transparency is allowed or not.  With a search
    depth of 0 this is every texture: the candidates cannot be prepared,
    whatever the index. *)
Theorem texture_without_colour_is_no_candidate (CONFIG : config)
  (textureData : textureData) :
  (forall texture valid candidates,
     Forall (fun hex => hex = "#transparent"%string)
       (take (depth_limit (searchDepth CONFIG) (length (colorHexes texture)))
          (colorHexes texture)) ->
     calculatePerceivedColor texture (searchDepth CONFIG) = None /\
     candidate_step CONFIG valid candidates texture = candidates) /\
  (searchDepth CONFIG = Some 0%nat ->
   exists e, loadAndPrepareCandidates CONFIG textureData = Throws e).
Proof.
  assert (Hstep : forall texture valid candidates,
    calculatePerceivedColor texture (searchDepth CONFIG) = None ->
    candidate_step CONFIG valid candidates texture = candidates).
  { intros texture valid candidates Hnone.
    rewrite candidate_step_spec. unfold candidate_of. rewrite Hnone.
    destruct (passes CONFIG valid texture); simpl; apply app_nil_r. }
  split.
  - intros texture valid candidates Hall.
    pose proof (colourless texture (searchDepth CONFIG) Hall) as Hnone.
    split; [exact Hnone | apply Hstep, Hnone].
  - intros Hdepth.
    pose proof (loadAndPrepareCandidates_cases CONFIG textureData) as Hcases.
    destruct (face_index textureData !! faceDirection CONFIG) as [faceIndex|];
      [|exact Hcases].
    assert (Hnil : prepared CONFIG faceIndex (texture_palette textureData)
                   = []).
    { unfold prepared. generalize (texture_palette textureData).
      intros palette. induction palette as [|texture palette IH];
        [reflexivity|].
      cbn [fold_left]. rewrite Hstep; [exact IH|].
      apply colourless. rewrite Hdepth. simpl. constructor. }
    rewrite Hnil in Hcases. exact Hcases.
Qed.

Example glass_is_no_candidate :
  calculatePerceivedColor Sample.glass None = None /\
  loadAndPrepareCandidates
    (Config "front" None None None true 15%float)
    (TextureData [Sample.glass] (face_index Sample.index))
    = Throws (Error "No candidate textures found with the specified filters.").
Proof. split; vm_compute; reflexivity. Qed.

End ColourlessSpec.

(* ================================================================== *)
(** * Part XXIX: the cells of a frame *)
(* ================================================================== *)

Module FrameCellFacts.
Import StillJob JobFacts GifJobFacts.

(** The cell the inner loop stores for the pixel at [x + k]. *)
Lemma process_row_cell (CONFIG : config) (candidates : list candidate)
  (previous : option (list (list choice))) (y : nat) (pixels : list rgb) :
  forall x cells,
    Gif.process_row CONFIG candidates previous y x pixels = Returns cells ->
    forall k pixelRGBA,
      pixels !! k = Some pixelRGBA ->
      exists previousChoiceId,
        Gif.previous_choice previous y (x + k) = Returns previousChoiceId /\
        cells !! k
          = Some (cell_of (Gif.findBestMatch CONFIG pixelRGBA candidates
                             previousChoiceId)).
Proof.
  induction pixels as [|px pixels IH]; intros x cells;
    cbn [Gif.process_row]; [intros _ k p Hk; discriminate|].
  destruct (Gif.previous_choice previous y x) as [previousChoiceId|]
    eqn:Hprevious; cbn [mbind result_bind]; [|discriminate].
  destruct (Gif.process_row CONFIG candidates previous y (S x) pixels)
    as [rest|] eqn:Hrest; cbn [mbind result_bind]; [|discriminate].
  intros [= <-] [|k] pixelRGBA Hk.
  - injection Hk as <-. exists previousChoiceId.
    rewrite Nat.add_0_r. split; [exact Hprevious|].
    cbn [lookup list_lookup]. unfold cell_of.
    destruct (Gif.findBestMatch CONFIG px candidates previousChoiceId);
      reflexivity.
  - destruct (IH (S x) rest Hrest k pixelRGBA Hk) as (c & Hc & Hcell).
    exists c. rewrite Nat.add_succ_r. split; [exact Hc | exact Hcell].
Qed.

(** The row the outer loop stores for the row [y + k] of the frame. *)
Lemma process_rows_row (CONFIG : config) (candidates : list candidate)
  (previous : option (list (list choice))) (rows : list (list rgb)) :
  forall y chosen,
    Gif.process_rows CONFIG candidates previous y rows = Returns chosen ->
    forall k pixels,
      rows !! k = Some pixels ->
      exists row,
        chosen !! k = Some row /\
        Gif.process_row CONFIG candidates previous (y + k) 0 pixels
          = Returns row.
Proof.
  induction rows as [|pixels0 rows IH]; intros y chosen;
    cbn [Gif.process_rows]; [intros _ k p Hk; discriminate|].
  destruct (Gif.process_row CONFIG candidates previous y 0 pixels0)
    as [row0|] eqn:Hrow; cbn [mbind result_bind]; [|discriminate].
  destruct (Gif.process_rows CONFIG candidates previous (S y) rows)
    as [rest|] eqn:Hrest; cbn [mbind result_bind]; [|discriminate].
  intros [= <-] [|k] pixels Hk.
  - injection Hk as <-. exists row0. rewrite Nat.add_0_r. auto.
  - destruct (IH (S y) rest Hrest k pixels Hk) as (row & Hrow' & Hcells).
    exists row. rewrite Nat.add_succ_r. auto.
Qed.


End FrameCellFacts.

Module FrameCellSpec.
Import StillJob JobFacts GifJobFacts FrameCellFacts.

(** X27.  [processImageFrame], cell by cell: when it returns, the choices have
    the shape of the frame, and the cell at row [y] and column [x] holds
    what [findBestMatch] returns for the pixel there and the previous
    choice at the same place, its texture id or [null].  No cell depends
    on another pixel of the frame or on another cell of the previous
    one. *)
Theorem processImageFrame_cell_by_cell (CONFIG : config)
  (frame : list (list rgb)) (candidates : list candidate)
  (previous : option (list (list choice))) (chosen : list (list choice)) :
  Gif.processImageFrame CONFIG frame candidates previous = Returns chosen ->
  shape chosen = shape frame /\
  forall y x pixels pixelRGBA,
    frame !! y = Some pixels -> pixels !! x = Some pixelRGBA ->
    exists row previousChoiceId,
      chosen !! y = Some row /\
      Gif.previous_choice previous y x = Returns previousChoiceId /\
      row !! x
        = Some (cell_of (Gif.findBestMatch CONFIG pixelRGBA candidates
                           previousChoiceId)).
Proof.
  unfold Gif.processImageFrame. intros Hchosen. split.
  - apply (process_rows_shape _ _ _ _ _ _ Hchosen).
  - intros y x pixels pixelRGBA Hy Hx.
    destruct (process_rows_row _ _ _ _ _ _ Hchosen y pixels Hy)
      as (row & Hrow & Hcells).
    destruct (process_row_cell _ _ _ _ _ _ _ Hcells x pixelRGBA Hx)
      as (previousChoiceId & Hprevious & Hcell).
    exists row, previousChoiceId. auto.
Qed.

Lemma processImageFrame_cell_by_cell_witness :
  exists chosen,
    Gif.processImageFrame CONFIG_gif [[Rgb 250 0 0; Rgb 0 0 250]]
      [Sample.c_crimson; Sample.c_red; Sample.c_blue]
      (Some [[TexId 4; TexId 4]]) = Returns chosen /\
    shape chosen = [2%nat] /\
    forall y x pixels pixelRGBA,
      [[Rgb 250 0 0; Rgb 0 0 250]] !! y = Some pixels ->
      pixels !! x = Some pixelRGBA ->
      exists row previousChoiceId,
        chosen !! y = Some row /\
        Gif.previous_choice (Some [[TexId 4; TexId 4]]) y x
          = Returns previousChoiceId /\
        row !! x
          = Some (cell_of (Gif.findBestMatch CONFIG_gif pixelRGBA
                             [Sample.c_crimson; Sample.c_red; Sample.c_blue]
                             previousChoiceId)).
Proof.
  exists [[TexId 4; TexId 1]].
  split; [vm_compute; reflexivity|].
  apply (processImageFrame_cell_by_cell CONFIG_gif
           [[Rgb 250 0 0; Rgb 0 0 250]]
           [Sample.c_crimson; Sample.c_red; Sample.c_blue]
           (Some [[TexId 4; TexId 4]]) [[TexId 4; TexId 1]]).
  vm_compute. reflexivity.
Defined.



End FrameCellSpec.

(* ================================================================== *)
(** * Part XXX: the atlas cache *)
(* ================================================================== *)

Module AtlasFacts.

Section Files.

Context {image : Type}.
Variable Jimp_read : Z -> result image.

Lemma filter_snoc (f : Z -> bool) (l : list Z) (i : Z) :
  List.filter f (l ++ [i])
  = List.filter f l ++ (if f i then [i] else []).
Proof.
  induction l as [|a l IH]; simpl; [reflexivity|].
  rewrite IH. destruct (f a); reflexivity.
Qed.

(** One call: what it returns and what it leaves. *)
Lemma getAtlas_step (st : Atlas.files image) (atlasFileIndex : Z) :
  files_sound Jimp_read st ->
  fst (Atlas.getAtlas Jimp_read st atlasFileIndex)
    = Jimp_read atlasFileIndex /\
  files_sound Jimp_read (snd (Atlas.getAtlas Jimp_read st atlasFileIndex)) /\
  (forall j,
     j ∈ Atlas.reads (snd (Atlas.getAtlas Jimp_read st atlasFileIndex)) <->
     j ∈ Atlas.reads st \/
     (j = atlasFileIndex /\ Atlas.atlasCache st !! atlasFileIndex = None)) /\
  (forall j atlas,
     Atlas.atlasCache (snd (Atlas.getAtlas Jimp_read st atlasFileIndex)) !! j
       = Some atlas <->
     Atlas.atlasCache st !! j = Some atlas \/
     (j = atlasFileIndex /\ Jimp_read atlasFileIndex = Returns atlas)).
Proof.
  intros [Hcache Hread Honce]. unfold Atlas.getAtlas.
  destruct (Atlas.atlasCache st !! atlasFileIndex) as [cached|] eqn:Hhit.
  - cbn [fst snd]. repeat split; auto.
    + symmetry. apply Hcache, Hhit.
    + intros [H|[_ [=]]]. exact H.
    + intros [H|[-> H]]; [exact H|].
      rewrite (Hcache _ _ Hhit) in H. injection H as <-. exact Hhit.
  - cbn [Atlas.atlasCache Atlas.reads].
    destruct (Jimp_read atlasFileIndex) as [atlas|e] eqn:Hfile;
      cbn [fst snd Atlas.atlasCache Atlas.reads].
    + assert (Hnew : atlasFileIndex ∉ Atlas.reads st).
      { intros Hin. rewrite (Hread _ _ Hin Hfile) in Hhit. discriminate. }
      repeat split; cbn [Atlas.atlasCache Atlas.reads].
      * intros i a Hi. apply lookup_insert_Some in Hi as [[<- <-]|[_ Hi]];
          [exact Hfile | apply Hcache, Hi].
      * intros i a Hi Ha. apply lookup_insert_Some.
        destruct (decide (atlasFileIndex = i)) as [<-|Hne].
        -- left. split; [reflexivity|]. congruence.
        -- right. split; [exact Hne|]. apply Hread; [|exact Ha].
           apply elem_of_app in Hi as [Hi|Hi]; [exact Hi|].
           apply list_elem_of_singleton in Hi. congruence.
      * rewrite filter_snoc. unfold was_read at 2. rewrite Hfile.
        apply NoDup_app. split; [exact Honce|]. split.
        -- intros i Hi Hi'. apply list_elem_of_singleton in Hi'. subst i.
           apply list_elem_of_In, filter_In in Hi as [Hi _].
           apply Hnew, list_elem_of_In, Hi.
        -- apply NoDup_singleton.
      * intros Hj. apply elem_of_app in Hj as [Hj|Hj]; [left; exact Hj|].
        apply list_elem_of_singleton in Hj. right. auto.
      * intros [Hj|[-> _]]; apply elem_of_app; [left; exact Hj|].
        right. apply list_elem_of_singleton. reflexivity.
      * intros Hj. apply lookup_insert_Some in Hj as [[<- <-]|[_ Hj]]; auto.
      * intros [Hj|[-> [= <-]]]; apply lookup_insert_Some.
        -- destruct (decide (atlasFileIndex = j)) as [<-|Hne];
             [congruence | right; auto].
        -- left. auto.
    + repeat split; cbn [Atlas.atlasCache Atlas.reads].
      * exact Hcache.
      * intros i a Hi Ha. apply Hread; [|exact Ha].
        apply elem_of_app in Hi as [Hi|Hi]; [exact Hi|].
        apply list_elem_of_singleton in Hi. congruence.
      * rewrite filter_snoc. unfold was_read at 2. rewrite Hfile.
        rewrite app_nil_r. exact Honce.
      * intros Hj. apply elem_of_app in Hj as [Hj|Hj]; [left; exact Hj|].
        apply list_elem_of_singleton in Hj. right. auto.
      * intros [Hj|[-> _]]; apply elem_of_app; [left; exact Hj|].
        right. apply list_elem_of_singleton. reflexivity.
      * auto.
      * intros [Hj|[_ [=]]]. exact Hj.
Qed.

(** A sequence of calls. *)
Lemma getAtlases_spec (indices : list Z) :
  forall st : Atlas.files image,
    files_sound Jimp_read st ->
    fst (Atlas.getAtlases Jimp_read st indices) = Jimp_read <$> indices /\
    files_sound Jimp_read (snd (Atlas.getAtlases Jimp_read st indices)) /\
    (forall j,
       j ∈ Atlas.reads (snd (Atlas.getAtlases Jimp_read st indices)) <->
       j ∈ Atlas.reads st \/
       (j ∈ indices /\ Atlas.atlasCache st !! j = None)) /\
    (forall j atlas,
       Atlas.atlasCache (snd (Atlas.getAtlases Jimp_read st indices)) !! j
         = Some atlas <->
       Atlas.atlasCache st !! j = Some atlas \/
       (j ∈ indices /\ Jimp_read j = Returns atlas)).
Proof.
  induction indices as [|i rest IH]; intros st Hst; cbn [Atlas.getAtlases].
  - cbn [fst snd]. split; [reflexivity|]. split; [exact Hst|].
    split; intros j; [|intros atlas]; (split; [auto|]).
    + intros [H|[H _]]; [exact H | apply elem_of_nil in H; destruct H].
    + intros [H|[H _]]; [exact H | apply elem_of_nil in H; destruct H].
  - destruct (getAtlas_step st i Hst) as (Hret & Hst1 & Hreads1 & Hcache1).
    destruct (Atlas.getAtlas Jimp_read st i) as [atlas st1].
    cbn [fst snd] in Hret, Hst1, Hreads1, Hcache1.
    destruct (IH st1 Hst1) as (Hrets & Hst2 & Hreads2 & Hcache2).
    destruct (Atlas.getAtlases Jimp_read st1 rest) as [atlases st2].
    cbn [fst snd] in *. rewrite fmap_cons, Hret, Hrets.
    split; [reflexivity|]. split; [exact Hst2|]. split.
    + intros j. rewrite Hreads2, Hreads1, elem_of_cons. split.
      * intros [[H|[-> H]]|[Hj Hnone]]; auto.
        destruct (Atlas.atlasCache st !! j) as [a|] eqn:Hj0; [|auto].
        exfalso. assert (Hsome : Atlas.atlasCache st1 !! j = Some a)
          by (apply Hcache1; auto). congruence.
      * intros [H|[[->|Hj] Hnone]]; auto.
        destruct (decide (j ∈ Atlas.reads st)) as [Hin|Hout]; [auto|].
        destruct (Atlas.atlasCache st1 !! j) as [a|] eqn:Hj1; [|auto].
        apply Hcache1 in Hj1 as [Hj1|[-> _]]; [congruence | auto].
    + intros j a. rewrite Hcache2, Hcache1, elem_of_cons. split.
      * intros [[H|[-> H]]|[Hj Ha]]; auto.
      * intros [H|[[->|Hj] Ha]]; auto.
Qed.

Lemma empty_files_sound : files_sound Jimp_read (Atlas.Files ∅ []).
Proof.
  split; cbn [Atlas.atlasCache Atlas.reads].
  - intros i a H. rewrite lookup_empty in H. discriminate.
  - intros i a H. apply elem_of_nil in H. destruct H.
  - apply NoDup_nil_2.
Qed.

End Files.

End AtlasFacts.

Module AtlasSpec.
Import AtlasFacts.

(** X29.  [getAtlas] reads an atlas file once.  Over any sequence of calls
    that starts with the empty cache, every call returns what [Jimp.read]
    gives for its index, from the file or from the cache; [Jimp.read] is
    called for the indices asked for and for no other; no atlas that
    could be read is read a second time, while a failed read is not
    remembered; and the cache ends up holding exactly the atlases asked
    for that could be read. *)
Theorem getAtlas_reads_an_atlas_once {image : Type}
  (Jimp_read : Z -> result image) (indices : list Z) :
  fst (Atlas.getAtlases Jimp_read (Atlas.Files ∅ []) indices)
    = Jimp_read <$> indices /\
  (forall i,
     i ∈ Atlas.reads
           (snd (Atlas.getAtlases Jimp_read (Atlas.Files ∅ []) indices)) <->
     i ∈ indices) /\
  NoDup (List.filter (was_read Jimp_read)
           (Atlas.reads
              (snd (Atlas.getAtlases Jimp_read (Atlas.Files ∅ []) indices)))) /\
  (forall i atlas,
     Atlas.atlasCache
       (snd (Atlas.getAtlases Jimp_read (Atlas.Files ∅ []) indices)) !! i
       = Some atlas <->
     i ∈ indices /\ Jimp_read i = Returns atlas).
Proof.
  destruct (getAtlases_spec Jimp_read indices (Atlas.Files ∅ [])
              (empty_files_sound Jimp_read))
    as (Hret & [_ _ Honce] & Hreads & Hcache).
  split; [exact Hret|]. split; [|split; [exact Honce|]].
  - intros i. rewrite Hreads. cbn [Atlas.reads Atlas.atlasCache].
    rewrite lookup_empty. split; [|auto].
    intros [H|[H _]]; [apply elem_of_nil in H; destruct H | exact H].
  - intros i atlas. rewrite Hcache. cbn [Atlas.atlasCache].
    rewrite lookup_empty. split; [|auto].
    intros [H|H]; [discriminate | exact H].
Qed.

(** Atlas 0 can be read and atlas 1 cannot: the first is read once, the
    second at every call. *)
Example getAtlas_twice :
  let Jimp_read := fun i : Z =>
    if i =? 0 then Returns 8%nat else Throws (Error "ENOENT") in
  Atlas.reads (snd (Atlas.getAtlases Jimp_read (Atlas.Files ∅ [])
                      [0; 1; 0; 1]))
  = [0; 1; 1].
Proof. vm_compute. reflexivity. Qed.

End AtlasSpec.

(* ================================================================== *)
(** * Part XXXI: runs that do not fail *)
(* ================================================================== *)

Module RunFacts.
Import StillJob JobFacts GifJobFacts EncoderFacts EncoderErrorFacts.

Lemma in_range_symbol (texturePalette : list textureInfo) (cell : choice) :
  first_ids_in_range texturePalette ->
  code_point (symbol_of texturePalette cell).
Proof.
  intros Hpalette. unfold symbol_of, code_point, cell_blockId.
  destruct cell as [| |id];
    try (unfold UNICODE_PRIVATE_USE_START; lia).
  destruct (array_get texturePalette id) as [texture|] eqn:Hget;
    [|unfold UNICODE_PRIVATE_USE_START; lia].
  destruct (blockIds texture) as [[|first others]|] eqn:Hids;
    try (unfold UNICODE_PRIVATE_USE_START; lia).
  apply (Hpalette texture first others); [|exact Hids].
  unfold array_get in Hget. destruct (id <? 0); [discriminate|].
  apply list_elem_of_lookup. eauto.
Qed.

Lemma generateBlueprintFiles_returns (texturePalette : list textureInfo)
  (choicesGrid : list (list choice)) :
  first_ids_in_range texturePalette ->
  exists blueprint,
    generateBlueprintFiles choicesGrid texturePalette = Returns blueprint.
Proof.
  intros Hpalette. destruct choicesGrid as [|row0 rows];
    [exists None; reflexivity|].
  destruct (generateBlueprintFiles_cases row0 rows texturePalette)
    as [[_ ->]|[Hbad _]]; [eauto|].
  exfalso. apply Exists_exists in Hbad as (row & _ & Hrej).
  apply Exists_exists in Hrej as (cell & _ & Hn).
  apply Hn, in_range_symbol, Hpalette.
Qed.

(** Frames of one height can be processed one after the other. *)
Lemma frames_follow (CONFIG : config) (candidates : list candidate)
  (h : nat) (frames : list (list (list rgb))) :
  Forall (fun frame => length frame = h) frames ->
  forall previous : list (list choice),
    length previous = h ->
    exists grids,
      follows CONFIG candidates (Some previous) frames grids /\
      Forall2 (fun frame grid => shape grid = shape frame) frames grids.
Proof.
  induction 1 as [|frame frames Hframe _ IH]; intros previous Hprevious.
  - exists []. split; [exact I | constructor].
  - destruct (process_rows_returns CONFIG candidates previous frame 0%nat)
      as [grid Hgrid]; [lia|].
    pose proof (process_rows_shape _ _ _ _ _ _ Hgrid) as Hshape.
    destruct (IH grid) as (grids & Hfollows & Hshapes).
    { apply (f_equal length) in Hshape. unfold shape in Hshape.
      rewrite !length_fmap in Hshape. lia. }
    exists (grid :: grids). split; [|constructor; assumption].
    cbn [follows]. split; [exact Hgrid | exact Hfollows].
Qed.

End RunFacts.

Module RunSpec.
Import StillJob JobFacts GifJobFacts RunFacts.

(** X30.  Once the candidates are prepared, matching and encoding do not fail
    on frames of one height.  When every texture's first block id gives
    a symbol in the range of [String.fromCodePoint] and the frames of the
    GIF have as many rows as the first one, the run of the GIF script
    returns, with one grid of choices per frame, of the shape of that
    frame; and so do the run on a static image and the run of the
    still-image script, whatever the image. *)
Theorem runs_on_even_frames_return (CONFIG : config)
  (textureData : textureData) (candidates : list candidate)
  (frame : list (list rgb)) (others : list (list (list rgb))) :
  loadAndPrepareCandidates CONFIG textureData = Returns candidates ->
  first_ids_in_range (texture_palette textureData) ->
  Forall (fun other => length other = length frame) others ->
  (exists out,
     GifJob.main CONFIG textureData (GifJob.Animated (frame :: others))
       = Returns out /\
     Forall2 (fun frame grid => shape grid = shape frame)
       (frame :: others) (GifJob.out_frames out)) /\
  (exists out,
     GifJob.main CONFIG textureData (GifJob.Static frame) = Returns out /\
     Forall2 (fun frame grid => shape grid = shape frame)
       [frame] (GifJob.out_frames out)) /\
  (CONFIG = CONFIG_still ->
   forall (intToRGBA : Z -> rgb) (resized : list (list Z)),
     exists blueprint,
       StillJob.main intToRGBA textureData resized = Returns blueprint).
Proof.
  intros Hcandidates Hpalette Hothers.
  pose proof (process_rows_first CONFIG candidates frame 0%nat) as Hfirst.
  set (first := (fun pixels : list rgb =>
                   (fun pixelRGBA =>
                      cell_of (Still.findBestMatch pixelRGBA candidates))
                     <$> pixels) <$> frame) in Hfirst.
  assert (Hshape : shape first = shape frame).
  { apply (process_rows_shape _ _ _ _ _ _ Hfirst). }
  destruct (generateBlueprintFiles_returns (texture_palette textureData)
              first Hpalette) as [blueprint Hblueprint].
  split; [|split].
  - destruct (frames_follow CONFIG candidates (length frame) others Hothers
                first) as (grids & Hfollows & Hshapes).
    { apply (f_equal length) in Hshape. unfold shape in Hshape.
      rewrite !length_fmap in Hshape. exact Hshape. }
    exists (GifJob.Output blueprint (first :: grids)).
    split; [|constructor; assumption].
    apply animated_run. exists candidates, first, grids.
    cbn [follows GifJob.out_blueprint GifJob.out_frames]. auto.
  - exists (GifJob.Output blueprint [first]).
    split; [|repeat constructor; exact Hshape].
    unfold GifJob.main. rewrite Hcandidates. cbn [mbind result_bind].
    unfold Gif.processImageFrame. rewrite Hfirst. cbn [mbind result_bind].
    rewrite Hblueprint. reflexivity.
  - intros -> intToRGBA resized. unfold StillJob.main.
    rewrite Hcandidates. cbn [mbind result_bind].
    apply generateBlueprintFiles_returns, Hpalette.
Qed.

Lemma runs_on_even_frames_return_witness :
  (exists out,
     GifJob.main CONFIG_still
       (TextureData [Sample.red; Sample.blue] (face_index Sample.index))
       (GifJob.Animated [[[Rgb 255 0 0; Rgb 0 0 255]];
                         [[Rgb 250 0 0; Rgb 0 0 250]]])
       = Returns out /\
     Forall2 (fun frame grid => shape grid = shape frame)
       [[[Rgb 255 0 0; Rgb 0 0 255]]; [[Rgb 250 0 0; Rgb 0 0 250]]]
       (GifJob.out_frames out)) /\
  (exists out,
     GifJob.main CONFIG_still
       (TextureData [Sample.red; Sample.blue] (face_index Sample.index))
       (GifJob.Static [[Rgb 255 0 0; Rgb 0 0 255]]) = Returns out /\
     Forall2 (fun frame grid => shape grid = shape frame)
       [[[Rgb 255 0 0; Rgb 0 0 255]]] (GifJob.out_frames out)) /\
  (CONFIG_still = CONFIG_still ->
   forall (intToRGBA : Z -> rgb) (resized : list (list Z)),
     exists blueprint,
       StillJob.main intToRGBA
         (TextureData [Sample.red; Sample.blue] (face_index Sample.index))
         resized = Returns blueprint).
Proof.
  destruct (loadAndPrepareCandidates CONFIG_still
              (TextureData [Sample.red; Sample.blue]
                 (face_index Sample.index)))
    as [candidates|e] eqn:Hcandidates;
    [|vm_compute in Hcandidates; discriminate].
  apply (runs_on_even_frames_return CONFIG_still
           (TextureData [Sample.red; Sample.blue] (face_index Sample.index))
           candidates [[Rgb 255 0 0; Rgb 0 0 255]]
           [[[Rgb 250 0 0; Rgb 0 0 250]]] Hcandidates).
  - intros texture first others Hin Hids.
    cbn [texture_palette] in Hin.
    apply elem_of_cons in Hin as [->|Hin];
      [injection Hids as <- _; vm_compute; split; discriminate|].
    apply elem_of_cons in Hin as [->|Hin];
      [injection Hids as <- _; vm_compute; split; discriminate|].
    apply elem_of_nil in Hin. destruct Hin.
  - repeat constructor.
Defined.

End RunSpec.
